(** * Scrabble-style crossword placement engine

    A shallow embedding of [scrabble_crossword.py] (classes [Trie] and
    [ScrabbleCrossword]) and the properties of its placement validator,
    connectivity rule, candidate ranking and backtracking search.

    Conventions of the embedding.
    - A Python [str] is a list of characters ([ascii]); the model covers
      ASCII text, where [str.upper] maps a-z to A-Z character by character
      and keeps the length.  A grid cell is one character, [' '] meaning
      empty.
    - Python integers are [Z].  List indexing follows Python: an index in
      [-len, 0) counts from the end, an index outside [-len, len) raises
      [IndexError].
    - The validators only read the grid.  They run in a small monad [run]
      that returns either a value or [IndexError] and logs every index pair
      [(r, c)] at which [self.grid[r][c]] is evaluated.
    - The solver mutates [self]; it is written in state-passing style.
      [time.time()] and the [random] module are oracles: the k-th reading of
      the clock and the k-th draw of the generator are functions of k, and
      the state counts how many readings and draws were consumed.
    - Clock readings are rationals and elapsed times are exact; the
      recursion of the solver has no depth limit ([RecursionError] is not
      modelled).
    - [print] calls are not modelled. *)

From Stdlib Require Import List ZArith Ascii Bool Lia QArith Lqa Permutation Sorted.
Import ListNotations.
Open Scope Z_scope.

Set Implicit Arguments.

(** ** Strings *)

Definition str := list ascii.

Definition SPACE : ascii := " "%char.
Definition PLACEHOLDER : ascii := "?"%char.

Definition is_lower (c : ascii) : bool :=
  ((97 <=? nat_of_ascii c) && (nat_of_ascii c <=? 122))%nat.

Definition is_upper (c : ascii) : bool :=
  ((65 <=? nat_of_ascii c) && (nat_of_ascii c <=? 90))%nat.

Definition upper_char (c : ascii) : ascii :=
  if is_lower c then ascii_of_nat (nat_of_ascii c - 32) else c.

(** [str.upper] *)
Definition upper (s : str) : str := map upper_char s.

(** [str.replace(old, new)] for one-character [old] and [new] *)
Definition replace (old new : ascii) (s : str) : str :=
  map (fun c => if Ascii.eqb c old then new else c) s.

Fixpoint str_eqb (a b : str) : bool :=
  match a, b with
  | [], [] => true
  | x :: a', y :: b' => Ascii.eqb x y && str_eqb a' b'
  | _, _ => false
  end.

Definition len {A} (l : list A) : Z := Z.of_nat (length l).

(** ** Python list indexing *)

(** [l[i]] *)
Definition py_index {A} (l : list A) (i : Z) : option A :=
  if 0 <=? i then nth_error l (Z.to_nat i)
  else if - len l <=? i then nth_error l (Z.to_nat (len l + i))
  else None.

Fixpoint list_set {A} (l : list A) (k : nat) (v : A) : option (list A) :=
  match l, k with
  | [], _ => None
  | _ :: t, O => Some (v :: t)
  | h :: t, S k' =>
      match list_set t k' v with
      | Some t' => Some (h :: t')
      | None => None
      end
  end.

(** [l[i] = v] *)
Definition py_setitem {A} (l : list A) (i : Z) (v : A) : option (list A) :=
  if 0 <=? i then list_set l (Z.to_nat i) v
  else if - len l <=? i then list_set l (Z.to_nat (len l + i)) v
  else None.

(** [range(n)] *)
Definition range (n : Z) : list Z := map Z.of_nat (seq 0 (Z.to_nat n)).

(** ** Dictionary *)

(** [Trie]: [contains] consults [all_words] only; the tree of [TrieNode]s
    that [insert] also builds is never read, so it is left out. *)
Record Trie := mkTrie { all_words : list str }.

Definition Trie_new : Trie := mkTrie [].

Definition set_mem (w : str) (s : list str) : bool := existsb (str_eqb w) s.

Definition set_add (w : str) (s : list str) : list str :=
  if set_mem w s then s else w :: s.

Definition Trie_insert (t : Trie) (word : str) : Trie :=
  let word := upper word in
  mkTrie (set_add word (all_words t)).

Definition Trie_contains (t : Trie) (word : str) : bool :=
  set_mem (upper word) (all_words t).

(** ** The engine state *)

Inductive direction := across | down.

Definition placement := (str * Z * Z * direction)%type.

Definition Grid := list (list ascii).

Record ScrabbleCrossword := mkSC {
  grid_size : Z;
  grid : Grid;
  placed_words : list placement;
  start_time : option Q;
  timeout : Q;
  trie : Trie;
  words : list str;
  (** environment: number of [time.time()] readings and of generator draws
      consumed so far *)
  clock_reads : nat;
  random_draws : nat
}.

Definition with_grid (self : ScrabbleCrossword) (g : Grid) :=
  mkSC (grid_size self) g (placed_words self) (start_time self) (timeout self)
       (trie self) (words self) (clock_reads self) (random_draws self).

Definition with_placed_words (self : ScrabbleCrossword) (p : list placement) :=
  mkSC (grid_size self) (grid self) p (start_time self) (timeout self)
       (trie self) (words self) (clock_reads self) (random_draws self).

Definition with_start_time (self : ScrabbleCrossword) (t : option Q) :=
  mkSC (grid_size self) (grid self) (placed_words self) t (timeout self)
       (trie self) (words self) (clock_reads self) (random_draws self).

Definition with_timeout (self : ScrabbleCrossword) (t : Q) :=
  mkSC (grid_size self) (grid self) (placed_words self) (start_time self) t
       (trie self) (words self) (clock_reads self) (random_draws self).

Definition with_words (self : ScrabbleCrossword) (w : list str) :=
  mkSC (grid_size self) (grid self) (placed_words self) (start_time self)
       (timeout self) (trie self) w (clock_reads self) (random_draws self).

Definition with_clock_reads (self : ScrabbleCrossword) (n : nat) :=
  mkSC (grid_size self) (grid self) (placed_words self) (start_time self)
       (timeout self) (trie self) (words self) n (random_draws self).

Definition with_random_draws (self : ScrabbleCrossword) (n : nat) :=
  mkSC (grid_size self) (grid self) (placed_words self) (start_time self)
       (timeout self) (trie self) (words self) (clock_reads self) n.

(** [[[' ' for _ in range(n)] for _ in range(n)]] *)
Definition empty_grid (n : Z) : Grid :=
  map (fun _ => map (fun _ => SPACE) (range n)) (range n).

(** ** Reading the grid *)

(** Outcome of a validator: [result] is [None] when [IndexError] was raised;
    [reads] lists the index pairs at which the grid was subscripted. *)
Record run (A : Type) := Run { result : option A; reads : list (Z * Z) }.

Definition ret {A} (a : A) : run A := Run (Some a) [].

Definition bind {A B} (m : run A) (f : A -> run B) : run B :=
  match result m with
  | None => Run None (reads m)
  | Some a => let r := f a in Run (result r) (reads m ++ reads r)
  end.

Notation "x <- m ;; k" := (bind m (fun x => k))
  (at level 61, m at next level, right associativity).

(** [g[r][c]] *)
Definition cell (g : Grid) (r c : Z) : option ascii :=
  match py_index g r with
  | Some line => py_index line c
  | None => None
  end.

Definition read (g : Grid) (r c : Z) : run ascii := Run (cell g r c) [(r, c)].

(** ** build_perpendicular_word *)

(** The loop [while r >= 0 and cells[r] != ' ': letters.insert(0, cells[r]);
    r -= 1].  The argument [n] is [r + 1], the number of indices still ahead
    of the scan. *)
Fixpoint scan_before (at_ : Z -> run ascii) (n : nat) (letters : str) : run str :=
  match n with
  | O => ret letters
  | S k =>
      ch <- at_ (Z.of_nat k) ;;
      if Ascii.eqb ch SPACE then ret letters
      else ch' <- at_ (Z.of_nat k) ;; scan_before at_ k (ch' :: letters)
  end.

(** The loop [while r < grid_size and cells[r] != ' ': letters.append(cells[r]);
    r += 1].  The argument [n] is [grid_size - r]. *)
Fixpoint scan_after (at_ : Z -> run ascii) (size : Z) (n : nat) (letters : str)
  : run str :=
  match n with
  | O => ret letters
  | S k =>
      let r := size - Z.of_nat (S k) in
      ch <- at_ r ;;
      if Ascii.eqb ch SPACE then ret letters
      else ch' <- at_ r ;; scan_after at_ size k (letters ++ [ch'])
  end.

Definition build_perpendicular_word (self : ScrabbleCrossword) (row col : Z)
    (main_direction : direction) : run str :=
  match main_direction with
  | across =>
      let at_ := fun r => read (grid self) r col in
      letters <- scan_before at_ (Z.to_nat row) [] ;;
      let letters := letters ++ [PLACEHOLDER] in
      scan_after at_ (grid_size self) (Z.to_nat (grid_size self - (row + 1))) letters
  | down =>
      let at_ := fun c => read (grid self) row c in
      letters <- scan_before at_ (Z.to_nat col) [] ;;
      let letters := letters ++ [PLACEHOLDER] in
      scan_after at_ (grid_size self) (Z.to_nat (grid_size self - (col + 1))) letters
  end.

(** ** can_place_word_scrabble *)

(** The cell of the [i]-th letter of a word that starts at [(row, col)]. *)
Definition position (row col : Z) (d : direction) (i : Z) : Z * Z :=
  match d with
  | across => (row, col + i)
  | down => (row + i, col)
  end.

(** The loop [for i, char in enumerate(word)] of the validator; [true] means
    the loop ran to its end without [return False]. *)
Fixpoint check_letters (self : ScrabbleCrossword) (row col : Z) (d : direction)
    (i : Z) (chars : str) : run bool :=
  match chars with
  | [] => ret true
  | char :: rest =>
      let '(curr_row, curr_col) := position row col d i in
      current_char <- read (grid self) curr_row curr_col ;;
      if negb (Ascii.eqb current_char SPACE) && negb (Ascii.eqb current_char char)
      then ret false
      else
        ok <- (if Ascii.eqb current_char SPACE then
                 perp_word <- build_perpendicular_word self curr_row curr_col d ;;
                 let perp_word := replace PLACEHOLDER char perp_word in
                 ret (negb ((1 <? len perp_word)
                            && negb (Trie_contains (trie self) perp_word)))
               else ret true) ;;
        if ok then check_letters self row col d (i + 1) rest else ret false
  end.

(** The final block, [# Check word boundaries (must be isolated)]. *)
Definition check_boundaries (self : ScrabbleCrossword) (word : str)
    (row col : Z) (d : direction) : run bool :=
  match d with
  | across =>
      before <- (if col >? 0 then
                   ch <- read (grid self) row (col - 1) ;;
                   ret (negb (Ascii.eqb ch SPACE))
                 else ret false) ;;
      if before then ret false
      else
        after <- (if col + len word <? grid_size self then
                    ch <- read (grid self) row (col + len word) ;;
                    ret (negb (Ascii.eqb ch SPACE))
                  else ret false) ;;
        if after then ret false else ret true
  | down =>
      before <- (if row >? 0 then
                   ch <- read (grid self) (row - 1) col ;;
                   ret (negb (Ascii.eqb ch SPACE))
                 else ret false) ;;
      if before then ret false
      else
        after <- (if row + len word <? grid_size self then
                    ch <- read (grid self) (row + len word) col ;;
                    ret (negb (Ascii.eqb ch SPACE))
                  else ret false) ;;
        if after then ret false else ret true
  end.

Definition out_of_span (self : ScrabbleCrossword) (word : str) (row col : Z)
    (d : direction) : bool :=
  match d with
  | across => col + len word >? grid_size self
  | down => row + len word >? grid_size self
  end.

Definition can_place_word_scrabble (self : ScrabbleCrossword) (word : str)
    (row col : Z) (d : direction) : run bool :=
  let word := upper word in
  if out_of_span self word row col d then ret false
  else
    ok <- check_letters self row col d 0 word ;;
    if ok then check_boundaries self word row col d else ret false.

(** ** place_word *)

Inductive exn := IndexError | TypeError.

Inductive outcome (A : Type) := Return (a : A) | Raise (e : exn).
Arguments Raise {A} e.

(** [g[r][c] = v].  The rows of the grid are distinct list objects (built by
    a comprehension in the constructor, copied row by row in the solver), so
    mutating row [r] in place changes that row only. *)
Definition grid_set (g : Grid) (r c : Z) (v : ascii) : option Grid :=
  match py_index g r with
  | None => None
  | Some line =>
      match py_setitem line c v with
      | None => None
      | Some line' => py_setitem g r line'
      end
  end.

(** [for i, char in enumerate(word): grid[...] = char]; letters written
    before an [IndexError] stay written. *)
Fixpoint write_letters (g : Grid) (row col : Z) (d : direction) (i : Z)
    (chars : str) : outcome unit * Grid :=
  match chars with
  | [] => (Return tt, g)
  | char :: rest =>
      let '(r, c) := position row col d i in
      match grid_set g r c char with
      | None => (Raise IndexError, g)
      | Some g' => write_letters g' row col d (i + 1) rest
      end
  end.

Definition place_word (self : ScrabbleCrossword) (word : str) (row col : Z)
    (d : direction) : outcome unit * ScrabbleCrossword :=
  let word := upper word in
  match write_letters (grid self) row col d 0 word with
  | (Raise e, g) => (Raise e, with_grid self g)
  | (Return _, g) =>
      (Return tt,
       with_placed_words (with_grid self g)
         (placed_words self ++ [(word, row, col, d)]))
  end.

(** ** has_connection_to_existing *)

Definition orthogonal_directions : list (Z * Z) :=
  [(-1, 0); (1, 0); (0, -1); (0, 1)].

(** [for dr, dc in orthogonal_directions: ...] *)
Fixpoint neighbour_occupied (self : ScrabbleCrossword) (curr_row curr_col : Z)
    (dirs : list (Z * Z)) : run bool :=
  match dirs with
  | [] => ret false
  | (dr, dc) :: rest =>
      let nr := curr_row + dr in
      let nc := curr_col + dc in
      if (0 <=? nr) && (nr <? grid_size self) && (0 <=? nc) && (nc <? grid_size self)
      then
        ch <- read (grid self) nr nc ;;
        if negb (Ascii.eqb ch SPACE) then ret true
        else neighbour_occupied self curr_row curr_col rest
      else neighbour_occupied self curr_row curr_col rest
  end.

(** [for i in range(len(word))], with [chars] the letters [word[i:]]. *)
Fixpoint connection_scan (self : ScrabbleCrossword) (row col : Z) (d : direction)
    (i : Z) (chars : str) : run bool :=
  match chars with
  | [] => ret false
  | char :: rest =>
      let '(curr_row, curr_col) := position row col d i in
      here <- read (grid self) curr_row curr_col ;;
      if Ascii.eqb here char then ret true
      else
        adjacent <- neighbour_occupied self curr_row curr_col orthogonal_directions ;;
        if adjacent then ret true
        else connection_scan self row col d (i + 1) rest
  end.

Definition has_connection_to_existing (self : ScrabbleCrossword) (word : str)
    (row col : Z) (d : direction) : run bool :=
  if len (placed_words self) =? 0 then ret true
  else connection_scan self row col d 0 (upper word).

(** ** Candidate enumeration *)

(** [for i in range(len(word)): if grid[...] == word[i]: intersections += 1] *)
Fixpoint count_intersections (g : Grid) (row col : Z) (d : direction) (i : Z)
    (chars : str) (intersections : Z) : run Z :=
  match chars with
  | [] => ret intersections
  | char :: rest =>
      let '(r, c) := position row col d i in
      here <- read g r c ;;
      count_intersections g row col d (i + 1) rest
        (if Ascii.eqb here char then intersections + 1 else intersections)
  end.

(** The triples visited by [for row in range(n): for col in range(n):
    for direction in ['across', 'down']], in order. *)
Definition all_positions (n : Z) : list (Z * Z * direction) :=
  flat_map (fun row =>
    flat_map (fun col => [(row, col, across); (row, col, down)]) (range n))
    (range n).

Fixpoint for_each {A B} (f : B -> A -> run B) (l : list A) (acc : B) : run B :=
  match l with
  | [] => ret acc
  | x :: rest => acc' <- f acc x ;; for_each f rest acc'
  end.

Definition lift {A} (r : run A) : outcome A :=
  match result r with
  | Some a => Return a
  | None => Raise IndexError
  end.

(** ** Sorting *)

(** [list.sort] and [sorted] are stable and ascending in the key; a stable
    sort has one result, computed here by insertion from the right. *)
Fixpoint insert_by {K A} (le : K -> K -> bool) (x : K * A) (l : list (K * A))
  : list (K * A) :=
  match l with
  | [] => [x]
  | y :: t => if le (fst x) (fst y) then x :: y :: t else y :: insert_by le x t
  end.

Definition sort_by {K A} (le : K -> K -> bool) (l : list (K * A)) : list A :=
  map snd (fold_right (insert_by le) [] l).

(** Order of Python tuples of two and three integers. *)
Definition le2 (a b : Z * Z) : bool :=
  (fst a <? fst b) || ((fst a =? fst b) && (snd a <=? snd b)).

Definition le3 (a b : Z * Z * Z) : bool :=
  let '(a1, a2, a3) := a in
  let '(b1, b2, b3) := b in
  (a1 <? b1) || ((a1 =? b1) && ((a2 <? b2) || ((a2 =? b2) && (a3 <=? b3)))).

(** [sorted(word_list, key=len, reverse=True)]: descending length, words of
    equal length in their original order. *)
Definition sorted_by_len_desc (word_list : list str) : list str :=
  sort_by (fun a b => b <=? a) (map (fun w => (len w, w)) word_list).

(** [itertools.groupby(l, key)]: runs of consecutive elements of equal key. *)
Fixpoint groupby {A} (key : A -> Z) (l : list A) : list (list A) :=
  match l with
  | [] => []
  | x :: t =>
      match groupby key t with
      | [] => [[x]]
      | [] :: gs => [x] :: gs
      | (y :: g) :: gs =>
          if key x =? key y then (x :: y :: g) :: gs
          else [x] :: (y :: g) :: gs
      end
  end.

Definition candidate := (Z * Z * direction * Z)%type.
Definition ranked := (Z * Z * direction * Z * Z)%type.

Section Engine.

(** [clock k]: the k-th value returned by [time.time()], in seconds.
    [entropy k]: the k-th draw of the generator; [random.random()] is
    [entropy k * 2^-53], kept as its integer numerator, and a draw below [n]
    ([random.shuffle]) is [entropy k mod n]. *)
Variable clock : nat -> Q.
Variable entropy : nat -> Z.

(** *** Constructor *)

(** [x[i], x[j] = x[j], x[i]] *)
Definition swap {A} (x : list A) (i j : nat) : list A :=
  match nth_error x j, nth_error x i with
  | Some a, Some b =>
      match list_set x i a with
      | Some x1 => match list_set x1 j b with Some x2 => x2 | None => x1 end
      | None => x
      end
  | _, _ => x
  end.

(** [random.shuffle]: [for i in reversed(range(1, len(x))): j = randbelow(i + 1);
    swap].  Returns the list and the number of draws consumed so far. *)
Fixpoint shuffle_loop {A} (i : nat) (x : list A) (k : nat) : list A * nat :=
  match i with
  | O => (x, k)
  | S i' =>
      let j := Z.to_nat (entropy k mod (Z.of_nat i + 1)) in
      shuffle_loop i' (swap x i j) (S k)
  end.

Definition shuffle {A} (x : list A) (k : nat) : list A * nat :=
  shuffle_loop (length x - 1) x k.

Fixpoint shuffle_groups (groups : list (list str)) (grouped : list str) (k : nat)
  : list str * nat :=
  match groups with
  | [] => (grouped, k)
  | group_list :: rest =>
      let '(group_list, k') := shuffle group_list k in
      shuffle_groups rest (grouped ++ group_list) k'
  end.

Definition _shuffle_same_length_groups (self : ScrabbleCrossword)
  : ScrabbleCrossword :=
  let '(grouped, k) :=
    shuffle_groups (groupby (@len ascii) (words self)) [] (random_draws self) in
  with_random_draws (with_words self grouped) k.

(** [ScrabbleCrossword(word_list, grid_size)] *)
Definition ScrabbleCrossword_init (word_list : list str) (size : Z)
  : ScrabbleCrossword :=
  _shuffle_same_length_groups
    (mkSC size (empty_grid size) [] None (30 # 1)
          (fold_left Trie_insert word_list Trie_new)
          (sorted_by_len_desc word_list) 0 0).

Definition clear_grid (self : ScrabbleCrossword) : ScrabbleCrossword :=
  with_placed_words (with_grid self (empty_grid (grid_size self))) [].

(** *** Candidates of the solver *)

Definition consider (self : ScrabbleCrossword) (word : str)
    (acc : list candidate) (p : Z * Z * direction) : run (list candidate) :=
  let '(row, col, d) := p in
  ok <- can_place_word_scrabble self word row col d ;;
  if ok then
    connected <- has_connection_to_existing self word row col d ;;
    if connected then
      intersections <- count_intersections (grid self) row col d 0 word 0 ;;
      ret (acc ++ [(row, col, d, intersections)])
    else ret acc
  else ret acc.

Definition valid_placements (self : ScrabbleCrossword) (word : str)
  : run (list candidate) :=
  for_each (consider self word) (all_positions (grid_size self)) [].

(** Keys [(-x[3], random.random())], drawn in list order from draw [k] on. *)
Fixpoint solver_keys (k : nat) (l : list candidate) : list ((Z * Z) * candidate) :=
  match l with
  | [] => []
  | x :: t => ((- snd x, entropy k), x) :: solver_keys (S k) t
  end.

(** *** _backtrack_solve *)

(** [time.time() - self.start_time > self.timeout].  The readings are
    rationals and the difference is exact; the code rounds the difference to
    the nearest double.  The two comparisons agree whenever the sign of the
    difference decides (a timeout of 0) and, for an integral timeout [t] of
    magnitude below 2^53, whenever the exact difference is at most [t] or at
    least [t + 1]. *)
Definition timed_out (self : ScrabbleCrossword) : outcome bool * ScrabbleCrossword :=
  let now := clock (clock_reads self) in
  let self := with_clock_reads self (S (clock_reads self)) in
  match start_time self with
  | None => (Raise TypeError, self)
  | Some t0 => (Return (negb (Qle_bool (now - t0) (timeout self))), self)
  end.

(** [for row, col, direction, _ in valid_placements: ...]; [solve_rest] is
    [self._backtrack_solve(word_index + 1)]. *)
Fixpoint try_placements
    (solve_rest : ScrabbleCrossword -> outcome bool * ScrabbleCrossword)
    (word : str) (cands : list candidate) (self : ScrabbleCrossword)
  : outcome bool * ScrabbleCrossword :=
  match cands with
  | [] => (Return false, self)
  | (row, col, d, _) :: rest =>
      let old_grid := grid self in
      let old_placed_words := placed_words self in
      match place_word self word row col d with
      | (Raise e, self1) => (Raise e, self1)
      | (Return _, self1) =>
          match solve_rest self1 with
          | (Raise e, self2) => (Raise e, self2)
          | (Return true, self2) => (Return true, self2)
          | (Return false, self2) =>
              try_placements solve_rest word rest
                (with_placed_words (with_grid self2 old_grid) old_placed_words)
          end
      end
  end.

(** [_backtrack_solve(word_index)] for [word_index = len(words) - remaining]:
    the recursion is on the number of words still to place.  The call nests
    one frame per word; the interpreter's limit on the nesting depth is not
    part of the embedding, which describes the runs that stay within it. *)
Fixpoint backtrack_from (remaining : nat) (self : ScrabbleCrossword)
  : outcome bool * ScrabbleCrossword :=
  match timed_out self with
  | (Raise e, self) => (Raise e, self)
  | (Return true, self) => (Return false, self)
  | (Return false, self) =>
      match remaining with
      | O => (Return true, self)
      | S k =>
          let word_index := len (words self) - Z.of_nat remaining in
          match py_index (words self) word_index with
          | None => (Raise IndexError, self)
          | Some word =>
              match lift (valid_placements self word) with
              | Raise e => (Raise e, self)
              | Return found =>
                  let sorted := sort_by le2 (solver_keys (random_draws self) found) in
                  let self :=
                    with_random_draws self (random_draws self + length found) in
                  try_placements (backtrack_from k) word sorted self
              end
          end
      end
  end.

(** A [word_index] above [len(words)] behaves as [len(words)]: after the
    timeout check the call returns [True]. *)
Definition _backtrack_solve (self : ScrabbleCrossword) (word_index : Z)
  : outcome bool * ScrabbleCrossword :=
  backtrack_from (Z.to_nat (len (words self) - word_index)) self.

Definition generate_puzzle (self : ScrabbleCrossword)
  : outcome bool * ScrabbleCrossword :=
  let self :=
    with_start_time (with_clock_reads self (S (clock_reads self)))
      (Some (clock (clock_reads self))) in
  match _backtrack_solve self 0 with
  | (Raise e, self) => (Raise e, self)
  | (Return result, self) =>
      (Return result, with_clock_reads self (S (clock_reads self)))
  end.

(** *** find_best_placement *)

Definition distance_to_center (self : ScrabbleCrossword) (word : str)
    (row col : Z) (d : direction) : Z :=
  let center_row := grid_size self / 2 in
  let center_col := grid_size self / 2 in
  let '(word_center_row, word_center_col) :=
    match d with
    | across => (row, col + len word / 2)
    | down => (row + len word / 2, col)
    end in
  Z.abs (word_center_row - center_row) + Z.abs (word_center_col - center_col).

Definition consider_ranked (self : ScrabbleCrossword) (word : str)
    (acc : list ranked) (p : Z * Z * direction) : run (list ranked) :=
  let '(row, col, d) := p in
  ok <- can_place_word_scrabble self word row col d ;;
  if ok then
    connected <- has_connection_to_existing self word row col d ;;
    if connected then
      intersections <- count_intersections (grid self) row col d 0 word 0 ;;
      ret (acc ++ [(row, col, d, intersections,
                    - distance_to_center self word row col d)])
    else ret acc
  else ret acc.

(** Keys [(-x[3], x[4], random.random())]. *)
Fixpoint ranking_keys (k : nat) (l : list ranked) : list ((Z * Z * Z) * ranked) :=
  match l with
  | [] => []
  | x :: t =>
      let '(_, _, _, intersections, neg_distance) := x in
      ((- intersections, neg_distance, entropy k), x) :: ranking_keys (S k) t
  end.

Definition find_best_placement (self : ScrabbleCrossword) (word : str)
  : outcome (option (Z * Z * direction)) * ScrabbleCrossword :=
  let word := upper word in
  match lift (for_each (consider_ranked self word)
                (all_positions (grid_size self)) []) with
  | Raise e => (Raise e, self)
  | Return connected_placements =>
      match connected_placements with
      | [] => (Return None, self)
      | _ =>
          let sorted :=
            sort_by le3 (ranking_keys (random_draws self) connected_placements) in
          let self :=
            with_random_draws self
              (random_draws self + length connected_placements) in
          match sorted with
          | (row, col, d, _, _) :: _ => (Return (Some (row, col, d)), self)
          | [] => (Raise IndexError, self)
          end
      end
  end.

End Engine.

(** ** get_bounding_box *)

(** The cells visited by [for row in range(n): for col in range(n)]. *)
Definition all_cells (n : Z) : list (Z * Z) :=
  flat_map (fun row => map (fun col => (row, col)) (range n)) (range n).

(** The body of the double loop; the box is
    [(min_row, max_row, min_col, max_col)]. *)
Definition visit_cell (self : ScrabbleCrossword) (box : Z * Z * Z * Z)
    (p : Z * Z) : run (Z * Z * Z * Z) :=
  let '(min_row, max_row, min_col, max_col) := box in
  let '(row, col) := p in
  ch <- read (grid self) row col ;;
  if negb (Ascii.eqb ch SPACE) then
    ret (Z.min min_row row, Z.max max_row row,
         Z.min min_col col, Z.max max_col col)
  else ret box.

Definition get_bounding_box (self : ScrabbleCrossword) : run (Z * Z * Z * Z) :=
  for_each (visit_cell self) (all_cells (grid_size self))
    (grid_size self, -1, grid_size self, -1).

(** ** Replaying a recorded layout *)

(** [for (word, row, col, direction) in recorded: board.place_word(...)] *)
Fixpoint replay (self : ScrabbleCrossword) (recorded : list placement)
  : outcome unit * ScrabbleCrossword :=
  match recorded with
  | [] => (Return tt, self)
  | (word, row, col, d) :: rest =>
      match place_word self word row col d with
      | (Return _, self') => replay self' rest
      | (Raise e, self') => (Raise e, self')
      end
  end.

(** ** Vocabulary of the statements *)

(** The grid is the square the constructor and [clear_grid] build. *)
Definition well_formed (self : ScrabbleCrossword) : Prop :=
  len (grid self) = grid_size self /\
  Forall (fun line => len line = grid_size self) (grid self).

Definition in_board (self : ScrabbleCrossword) (p : Z * Z) : Prop :=
  0 <= fst p < grid_size self /\ 0 <= snd p < grid_size self.

Definition at_cell (self : ScrabbleCrossword) (p : Z * Z) : option ascii :=
  cell (grid self) (fst p) (snd p).

(** A cell of the board that holds the letter [ch]; an empty cell holds no
    letter. *)
Definition holds (self : ScrabbleCrossword) (p : Z * Z) (ch : ascii) : Prop :=
  in_board self p /\ at_cell self p = Some ch /\ ch <> SPACE.

(** A cell of the board that holds some letter. *)
Definition occupied (self : ScrabbleCrossword) (p : Z * Z) : Prop :=
  in_board self p /\ exists ch, at_cell self p = Some ch /\ ch <> SPACE.

(** A cell that is empty, or a position off the board. *)
Definition empty_or_off_board (self : ScrabbleCrossword) (p : Z * Z) : Prop :=
  ~ in_board self p \/ at_cell self p = Some SPACE.

(** Every cell of the placement lies on the board. *)
Definition covered_in_board (self : ScrabbleCrossword) (word : str)
    (row col : Z) (d : direction) : Prop :=
  forall k, 0 <= k < len word -> in_board self (position row col d k).

(** Condition (1) of the validator: the span fits. *)
Definition span_fits (self : ScrabbleCrossword) (word : str) (row col : Z)
    (d : direction) : Prop :=
  match d with
  | across => col + len word <= grid_size self
  | down => row + len word <= grid_size self
  end.

(** Condition (2): no covered cell holds a different letter. *)
Definition no_conflict (self : ScrabbleCrossword) (word : str) (row col : Z)
    (d : direction) : Prop :=
  forall k ch, nth_error word k = Some ch ->
    exists cur, at_cell self (position row col d (Z.of_nat k)) = Some cur /\
                (cur = SPACE \/ cur = ch).

(** What the loop of the validator tests at each new letter: the string
    [build_perpendicular_word] returns, every ["?"] of it replaced by the
    letter, has length 1 or is in the dictionary. *)
Definition perpendicular_check (self : ScrabbleCrossword) (word : str)
    (row col : Z) (d : direction) : Prop :=
  forall k ch, nth_error word k = Some ch ->
    at_cell self (position row col d (Z.of_nat k)) = Some SPACE ->
    exists perp,
      result (build_perpendicular_word self
                (fst (position row col d (Z.of_nat k)))
                (snd (position row col d (Z.of_nat k))) d) = Some perp /\
      (len (replace PLACEHOLDER ch perp) = 1 \/
       Trie_contains (trie self) (replace PLACEHOLDER ch perp) = true).

(** Condition (4): the cells before the start and after the end. *)
Definition ends_isolated (self : ScrabbleCrossword) (word : str) (row col : Z)
    (d : direction) : Prop :=
  empty_or_off_board self (position row col d (-1)) /\
  empty_or_off_board self (position row col d (len word)).

(** Some letter of the candidate meets a cell holding that letter, or has an
    occupied orthogonal neighbour. *)
Definition touches (self : ScrabbleCrossword) (word : str) (row col : Z)
    (d : direction) : Prop :=
  exists k ch, nth_error word k = Some ch /\
    let p := position row col d (Z.of_nat k) in
    (holds self p ch \/
     exists dr dc, In (dr, dc) orthogonal_directions /\
                   occupied self (fst p + dr, snd p + dc)).

(** The cell at coordinate [j] of the line through [(row, col)] orthogonal
    to the placement axis, and the coordinate of [(row, col)] on that line. *)
Definition along (self : ScrabbleCrossword) (row col : Z) (d : direction)
    (j : Z) : option ascii :=
  match d with
  | across => cell (grid self) j col
  | down => cell (grid self) row j
  end.

Definition coordinate (row col : Z) (d : direction) : Z :=
  match d with across => row | down => col end.

(** [letters] are the non-empty cells [start, start + len letters). *)
Definition is_run (f : Z -> option ascii) (start : Z) (letters : str) : Prop :=
  forall k ch, nth_error letters k = Some ch ->
    f (start + Z.of_nat k) = Some ch /\ ch <> SPACE.

(** Coordinate [j] ends a run: it is off the board or empty. *)
Definition ends_run (f : Z -> option ascii) (size : Z) (j : Z) : Prop :=
  j < 0 \/ size <= j \/ f j = Some SPACE.




Definition pw_word (p : placement) : str := fst (fst (fst p)).

Definition is_letter (c : ascii) : bool := is_lower c || is_upper c.

Definition alphabetic (w : str) : Prop := Forall (fun c => is_letter c = true) w.

(** A word made of letters and blanks, as a name of one or more words is. *)
Definition letters_and_blanks (w : str) : Prop :=
  Forall (fun c => is_letter c = true \/ c = SPACE) w.

(** Every recorded word and every non-empty cell is made of characters
    satisfying [Q]. *)
Definition all_chars (Q : ascii -> Prop) (self : ScrabbleCrossword) : Prop :=
  (forall p, In p (placed_words self) -> Forall Q (pw_word p)) /\
  (forall line ch, In line (grid self) -> In ch line -> ch = SPACE \/ Q ch).

(** States an engine goes through: construction, then any of its operations
    returning normally, on words satisfying [ok]. *)
Inductive reachable (clock : nat -> Q) (entropy : nat -> Z) (ok : str -> Prop)
  : ScrabbleCrossword -> Prop :=
| reach_init word_list size :
    Forall ok word_list ->
    reachable clock entropy ok (ScrabbleCrossword_init entropy word_list size)
| reach_clear_grid self :
    reachable clock entropy ok self ->
    reachable clock entropy ok (clear_grid self)
| reach_place_word self word row col d self' :
    reachable clock entropy ok self -> ok word ->
    place_word self word row col d = (Return tt, self') ->
    reachable clock entropy ok self'
| reach_find_best_placement self word r self' :
    reachable clock entropy ok self ->
    find_best_placement entropy self word = (Return r, self') ->
    reachable clock entropy ok self'
| reach_generate_puzzle self b self' :
    reachable clock entropy ok self ->
    generate_puzzle clock entropy self = (Return b, self') ->
    reachable clock entropy ok self'.

(** What the loop of the validator tests for one letter [ch] at cell [p]:
    no conflict, and for a new letter the test of [perpendicular_check]. *)
Definition letter_ok (self : ScrabbleCrossword) (d : direction) (p : Z * Z)
    (ch : ascii) : Prop :=
  exists cur, at_cell self p = Some cur /\
    (cur = SPACE \/ cur = ch) /\
    (cur = SPACE ->
     exists perp,
       result (build_perpendicular_word self (fst p) (snd p) d) = Some perp /\
       (len (replace PLACEHOLDER ch perp) = 1 \/
        Trie_contains (trie self) (replace PLACEHOLDER ch perp) = true)).

(** An engine before any placement: empty board, nothing recorded. *)
Definition fresh (self : ScrabbleCrossword) : Prop :=
  grid self = empty_grid (grid_size self) /\ placed_words self = [].

(** Replaying [recorded] onto any board whose grid is the empty [size] x
    [size] grid succeeds and yields the grid [g]. *)
Definition reconstructs (size : Z) (g : Grid) (recorded : list placement) : Prop :=
  forall base, grid base = empty_grid size ->
    exists s, replay base recorded = (Return tt, s) /\ grid s = g.

(** An engine stopped on a one-cell board with a two-letter word to place,
    after [generate_puzzle] has set the start time. *)
Definition cramped_engine : ScrabbleCrossword :=
  with_start_time (ScrabbleCrossword_init (fun _ => 0) [["A"; "B"]%char] 1)
    (Some (0 # 1)).

(** The state satisfies [P] on its grid and placed words, for the puzzle
    words [ws] and the board size [size]. *)
Definition preserved (P : Grid -> list placement -> Prop) (size : Z)
    (ws : list str) (s : ScrabbleCrossword) : Prop :=
  P (grid s) (placed_words s) /\ words s = ws /\ grid_size s = size.

(** Every cell of the grid is empty or satisfies [Q]. *)
Definition cells_satisfy (Q : ascii -> Prop) (g : Grid) : Prop :=
  forall line ch, In line g -> In ch line -> ch = SPACE \/ Q ch.

(** The candidates [find_best_placement] collects before sorting. *)
Definition connected_placements (self : ScrabbleCrossword) (word : str)
  : run (list ranked) :=
  for_each (consider_ranked self (upper word)) (all_positions (grid_size self)) [].

(** [x = (row, col, direction, intersections, -distance)] is one of the
    candidates [find_best_placement] collects: it passed the validator and
    the connectivity rule. *)
Definition collected (self : ScrabbleCrossword) (word : str) (x : ranked) : Prop :=
  exists found, result (connected_placements self word) = Some found /\ In x found.

(** Lexicographic order of the ranking key [(-intersections, -distance)],
    the random draw apart: [x] is ranked no later than [y]. *)
Definition ranked_before (x y : ranked) : Prop :=
  let '(_, _, _, n, nd) := x in
  let '(_, _, _, n', nd') := y in
  n' < n \/ (n' = n /\ nd <= nd').

(** A state in which the search can run: a well-formed board of size
    [size], the start time set, the puzzle words [ws]. *)
Definition ready (size : Z) (ws : list str) (s : ScrabbleCrossword) : Prop :=
  well_formed s /\ start_time s <> None /\ words s = ws /\ grid_size s = size.

(** A candidate of the solver whose cells all lie on the board. *)
Definition candidate_on_board (self : ScrabbleCrossword) (word : str)
    (x : candidate) : Prop :=
  let '(row, col, d, _) := x in covered_in_board self (upper word) row col d.

(** The placement passes the validator and the connectivity rule, and
    [n] cells of its span already hold the letter of [word] they would get. *)
Definition accepted (self : ScrabbleCrossword) (word : str) (row col : Z)
    (d : direction) (n : Z) : Prop :=
  result (can_place_word_scrabble self word row col d) = Some true /\
  result (has_connection_to_existing self word row col d) = Some true /\
  result (count_intersections (grid self) row col d 0 word 0) = Some n.

(** The cell [p] lies within the box. *)
Definition inside (box : Z * Z * Z * Z) (p : Z * Z) : Prop :=
  let '(min_row, max_row, min_col, max_col) := box in
  min_row <= fst p <= max_row /\ min_col <= snd p <= max_col.

(** Each side of the box passes through an occupied cell. *)
Definition tight (self : ScrabbleCrossword) (box : Z * Z * Z * Z) : Prop :=
  let '(min_row, max_row, min_col, max_col) := box in
  (exists p, occupied self p /\ fst p = min_row) /\
  (exists p, occupied self p /\ fst p = max_row) /\
  (exists p, occupied self p /\ snd p = min_col) /\
  (exists p, occupied self p /\ snd p = max_col).

(** Invariant of the loop of [get_bounding_box] after the cells [visited]. *)
Definition box_so_far (self : ScrabbleCrossword) (visited : list (Z * Z))
    (box : Z * Z * Z * Z) : Prop :=
  (forall p, In p visited -> occupied self p -> inside box p) /\
  ((box = (grid_size self, -1, grid_size self, -1) /\
    forall p, In p visited -> ~ occupied self p) \/
   tight self box).

(** Every recorded word lies on the board of side [size] and can be read
    off the grid at its recorded place, letter by letter; none of its cells
    is empty. *)
Definition legible (size : Z) (g : Grid) (recorded : list placement) : Prop :=
  forall w r c d, In (w, r, c, d) recorded ->
  forall k ch, nth_error w k = Some ch ->
    0 <= fst (position r c d (Z.of_nat k)) < size /\
    0 <= snd (position r c d (Z.of_nat k)) < size /\
    cell g (fst (position r c d (Z.of_nat k))) (snd (position r c d (Z.of_nat k)))
    = Some ch /\ ch <> SPACE.

(** A candidate of the solver that starts on the board and that the
    validator accepts on the board of [self]. *)
Definition validated (self : ScrabbleCrossword) (word : str) (x : candidate)
  : Prop :=
  let '(row, col, d, _) := x in
  in_board self (row, col) /\
  result (can_place_word_scrabble self word row col d) = Some true.

(** The two states have the same board and dictionary. *)
Definition same_board (s1 s2 : ScrabbleCrossword) : Prop :=
  grid s1 = grid s2 /\ grid_size s1 = grid_size s2 /\ trie s1 = trie s2.

(** ** Example states *)

Definition example_words : list str :=
  [["C"; "A"; "T"]; ["C"; "A"; "R"]; ["A"; "R"; "C"]]%char.

Definition example_engine : ScrabbleCrossword :=
  ScrabbleCrossword_init (fun _ => 0) example_words 5.

(** The empty 5x5 board of a puzzle whose only word is A. *)
Definition single_letter_engine : ScrabbleCrossword :=
  ScrabbleCrossword_init (fun _ => 0) [["A"%char]] 5.

(** A 3x3 board with one word, ["A"] at [(0, 2)]. *)
Definition corner_engine : ScrabbleCrossword :=
  snd (place_word (ScrabbleCrossword_init (fun _ => 0) [["A"%char]] 3)
         ["A"%char] 0 2 across).

(** The 5x5 board of the puzzle CAT, CAR, ARC with CAT placed across from
    [(0, 0)]. *)
Definition cat_engine : ScrabbleCrossword :=
  snd (place_word example_engine ["C"; "A"; "T"]%char 0 0 across).


(** The 4x4 puzzle whose only word is r2d2. *)
Definition droid_engine : ScrabbleCrossword :=
  ScrabbleCrossword_init (fun _ => 0) [["r"; "2"; "d"; "2"]%char] 4.

(** * Properties *)

(** ** The reading monad *)

Lemma result_bind A B (m : run A) (f : A -> run B) :
  result (bind m f) =
  match result m with Some a => result (f a) | None => None end.
Proof. unfold bind. destruct (result m); reflexivity. Qed.

Lemma reads_bind A B (P : Z * Z -> Prop) (m : run A) (f : A -> run B) :
  Forall P (reads m) ->
  (forall a, result m = Some a -> Forall P (reads (f a))) ->
  Forall P (reads (bind m f)).
Proof.
  intros Hm Hf. unfold bind. destruct (result m) as [a|] eqn:E; simpl; auto.
  apply Forall_app. split; auto.
Qed.

Lemma result_read g r c : result (read g r c) = cell g r c.
Proof. reflexivity. Qed.

Lemma len_nonneg A (l : list A) : 0 <= len l.
Proof. unfold len. lia. Qed.

Lemma len_app A (l1 l2 : list A) : len (l1 ++ l2) = len l1 + len l2.
Proof. unfold len. rewrite length_app. lia. Qed.

Lemma len_cons A (x : A) (l : list A) : len (x :: l) = len l + 1.
Proof. unfold len. simpl length. lia. Qed.

Lemma py_index_nonneg A (l : list A) i :
  0 <= i -> py_index l i = nth_error l (Z.to_nat i).
Proof. intros H. unfold py_index. destruct (0 <=? i) eqn:E; [reflexivity|lia]. Qed.

Lemma py_index_in_range A (l : list A) i :
  0 <= i < len l -> exists a, py_index l i = Some a.
Proof.
  intros [H0 H1]. rewrite py_index_nonneg by assumption.
  destruct (nth_error l (Z.to_nat i)) eqn:E; eauto.
  apply nth_error_None in E. unfold len in H1. lia.
Qed.

Lemma py_index_In A (l : list A) i a : py_index l i = Some a -> In a l.
Proof.
  unfold py_index. destruct (0 <=? i).
  - apply nth_error_In.
  - destruct (- len l <=? i); [apply nth_error_In | discriminate].
Qed.

Lemma cell_in_board self p :
  well_formed self -> in_board self p -> exists ch, at_cell self p = Some ch.
Proof.
  intros [Hrows Hcols] [Hr Hc]. unfold at_cell, cell.
  destruct (py_index_in_range (grid self) (i := fst p)) as [line Hline]; [lia|].
  rewrite Hline. apply py_index_in_range.
  rewrite Forall_forall in Hcols. rewrite (Hcols line); [lia|].
  eapply py_index_In; eauto.
Qed.

(** ** build_perpendicular_word *)

Lemma scan_before_spec (at_ : Z -> run ascii) n : forall letters,
  (forall j, 0 <= j < Z.of_nat n -> exists ch, result (at_ j) = Some ch) ->
  exists pre,
    result (scan_before at_ n letters) = Some (pre ++ letters) /\
    len pre <= Z.of_nat n /\
    is_run (fun j => result (at_ j)) (Z.of_nat n - len pre) pre /\
    ends_run (fun j => result (at_ j)) (Z.of_nat n) (Z.of_nat n - len pre - 1).
Proof.
  induction n as [|k IH]; intros letters Hat.
  - exists []. simpl. split; [reflexivity|]. split; [unfold len; simpl; lia|]. split.
    + intros i ch H. destruct i; discriminate.
    + left. unfold len. simpl. lia.
  - destruct (Hat (Z.of_nat k)) as [ch Hch]; [lia|].
    cbn [scan_before]. rewrite result_bind, Hch.
    destruct (Ascii.eqb_spec ch SPACE) as [->|Hne].
    + exists []. split; [reflexivity|].
      split; [unfold len; simpl length; lia|]. split.
      * intros i c H. destruct i; discriminate.
      * right. right. unfold len. simpl length.
        replace (Z.of_nat (S k) - Z.of_nat 0 - 1) with (Z.of_nat k) by lia.
        exact Hch.
    + rewrite result_bind, Hch.
      destruct (IH (ch :: letters)) as (pre & Hres & Hlen & Hrun & Hend).
      { intros j Hj. apply Hat. lia. }
      exists (pre ++ [ch]). rewrite <- app_assoc. cbn [app].
      rewrite len_app. change (len [ch]) with 1.
      split; [exact Hres|]. split; [lia|]. split.
      * intros i c Hi.
        replace (Z.of_nat (S k) - (len pre + 1)) with (Z.of_nat k - len pre) by lia.
        destruct (Nat.lt_ge_cases i (length pre)) as [Hlt|Hge].
        -- rewrite nth_error_app1 in Hi by assumption. apply Hrun; assumption.
        -- rewrite nth_error_app2 in Hi by assumption.
           destruct (i - length pre)%nat as [|m] eqn:Em.
           ++ simpl in Hi. inversion Hi; subst c.
              replace (Z.of_nat k - len pre + Z.of_nat i) with (Z.of_nat k)
                by (unfold len; lia).
              split; assumption.
           ++ destruct m; discriminate.
      * replace (Z.of_nat (S k) - (len pre + 1) - 1)
          with (Z.of_nat k - len pre - 1) by lia.
        destruct Hend as [H|[H|H]].
        -- left. exact H.
        -- exfalso. pose proof (len_nonneg pre). lia.
        -- right. right. exact H.
Qed.

Lemma scan_after_spec (at_ : Z -> run ascii) size n : forall letters,
  (forall j, size - Z.of_nat n <= j < size -> exists ch, result (at_ j) = Some ch) ->
  exists post,
    result (scan_after at_ size n letters) = Some (letters ++ post) /\
    len post <= Z.of_nat n /\
    is_run (fun j => result (at_ j)) (size - Z.of_nat n) post /\
    ends_run (fun j => result (at_ j)) size (size - Z.of_nat n + len post).
Proof.
  induction n as [|k IH]; intros letters Hat.
  - exists []. rewrite app_nil_r. simpl. split; [reflexivity|].
    split; [unfold len; simpl; lia|]. split.
    + intros i ch H. destruct i; discriminate.
    + right. left. unfold len. simpl. lia.
  - destruct (Hat (size - Z.of_nat (S k))) as [ch Hch]; [lia|].
    cbn [scan_after]. cbv zeta. rewrite result_bind, Hch.
    destruct (Ascii.eqb_spec ch SPACE) as [->|Hne].
    + exists []. rewrite app_nil_r. split; [reflexivity|].
      split; [unfold len; simpl length; lia|]. split.
      * intros i c H. destruct i; discriminate.
      * right. right. unfold len. simpl length.
        replace (size - Z.of_nat (S k) + Z.of_nat 0) with (size - Z.of_nat (S k)) by lia.
        exact Hch.
    + rewrite result_bind, Hch.
      destruct (IH (letters ++ [ch])) as (post & Hres & Hlen & Hrun & Hend).
      { intros j Hj. apply Hat. lia. }
      exists (ch :: post). rewrite <- app_assoc in Hres. cbn [app] in Hres.
      rewrite len_cons.
      split; [exact Hres|]. split; [lia|]. split.
      * intros i c Hi. destruct i as [|m].
        -- simpl in Hi. inversion Hi; subst c.
           replace (size - Z.of_nat (S k) + Z.of_nat 0) with (size - Z.of_nat (S k)) by lia.
           split; assumption.
        -- simpl in Hi.
           replace (size - Z.of_nat (S k) + Z.of_nat (S m))
             with (size - Z.of_nat k + Z.of_nat m) by lia.
           apply Hrun; assumption.
      * replace (size - Z.of_nat (S k) + (len post + 1))
          with (size - Z.of_nat k + len post) by lia.
        exact Hend.
Qed.

Lemma is_run_last_not_end (f : Z -> option ascii) size start letters :
  letters <> [] -> 0 <= start -> start + len letters <= size ->
  is_run f start letters ->
  ~ ends_run f size (start + len letters - 1).
Proof.
  intros Hne H0 Hsz Hrun [H|[H|H]].
  - destruct letters; [congruence|]. rewrite len_cons in H.
    pose proof (len_nonneg letters). lia.
  - lia.
  - destruct (nth_error letters (length letters - 1)) as [c|] eqn:E.
    + destruct (Hrun _ _ E) as [Hc Hsp].
      replace (start + Z.of_nat (length letters - 1))
        with (start + len letters - 1) in Hc.
      * congruence.
      * destruct letters; [congruence|]. unfold len. simpl length. lia.
    + apply nth_error_None in E. destruct letters; [congruence|].
      simpl in E. lia.
Qed.

Lemma is_run_first_not_end (f : Z -> option ascii) size start letters :
  letters <> [] -> 0 <= start < size ->
  is_run f start letters -> ~ ends_run f size start.
Proof.
  intros Hne Hs Hrun [H|[H|H]]; try lia.
  destruct letters as [|c t]; [congruence|].
  destruct (Hrun 0%nat c eq_refl) as [Hc Hsp].
  replace (start + Z.of_nat 0) with start in Hc by lia. congruence.
Qed.

(** The two loops of [build_perpendicular_word] around coordinate [p]. *)
Lemma perpendicular_scan (at_ : Z -> run ascii) size p :
  0 <= p < size ->
  (forall j, 0 <= j < size -> exists ch, result (at_ j) = Some ch) ->
  exists pre post,
    result (letters <- scan_before at_ (Z.to_nat p) [] ;;
            scan_after at_ size (Z.to_nat (size - (p + 1)))
              (letters ++ [PLACEHOLDER]))
    = Some (pre ++ PLACEHOLDER :: post) /\
    0 <= p - len pre /\ p + len post < size /\
    is_run (fun j => result (at_ j)) (p - len pre) pre /\
    ends_run (fun j => result (at_ j)) size (p - len pre - 1) /\
    is_run (fun j => result (at_ j)) (p + 1) post /\
    ends_run (fun j => result (at_ j)) size (p + len post + 1) /\
    (ends_run (fun j => result (at_ j)) size (p - 1) ->
     ends_run (fun j => result (at_ j)) size (p + 1) ->
     pre = [] /\ post = []).
Proof.
  intros Hp Hat.
  destruct (@scan_before_spec at_ (Z.to_nat p) []) as (pre & Hb & Hbl & Hbr & Hbe).
  { intros j Hj. apply Hat. lia. }
  destruct (@scan_after_spec at_ size (Z.to_nat (size - (p + 1)))
              (pre ++ [PLACEHOLDER])) as (post & Ha & Hal & Har & Hae).
  { intros j Hj. apply Hat. lia. }
  rewrite app_nil_r in Hb.
  rewrite Z2Nat.id in Hbl, Hbr, Hbe by lia.
  rewrite Z2Nat.id in Hal, Har, Hae by lia.
  replace (size - (size - (p + 1))) with (p + 1) in Har, Hae by lia.
  pose proof (len_nonneg pre) as Hpre0. pose proof (len_nonneg post) as Hpost0.
  exists pre, post. rewrite result_bind, Hb, Ha, <- app_assoc.
  split; [reflexivity|]. split; [lia|]. split; [lia|].
  split; [exact Hbr|]. split.
  { destruct Hbe as [H|[H|H]]; [left; exact H | lia | right; right; exact H]. }
  split; [exact Har|]. split.
  { replace (p + len post + 1) with (p + 1 + len post) by lia. exact Hae. }
  intros He1 He2. split.
  - destruct pre as [|c t]; [reflexivity|]. exfalso.
    apply (@is_run_last_not_end _ size _ (c :: t)) in Hbr;
      [| congruence | lia | lia].
    apply Hbr. replace (p - len (c :: t) + len (c :: t) - 1) with (p - 1) by lia.
    exact He1.
  - destruct post as [|c t]; [reflexivity|]. exfalso.
    assert (Hlt : p + 1 < size).
    { rewrite len_cons in Hal. pose proof (len_nonneg t). lia. }
    apply (@is_run_first_not_end _ size _ (c :: t)) in Har;
      [| congruence | lia].
    apply Har. exact He2.
Qed.

(** C5.  On a well-formed board and for an in-bounds cell,
    [build_perpendicular_word] returns [pre ++ "?" ++ post], where [pre] and
    [post] are the cells of the maximal runs of non-empty cells just before
    and just after the cell on the line orthogonal to the placement axis, in
    board order: each run lies on the board, is made of non-empty cells and
    is ended by the board edge or an empty cell.  When the neighbours on both
    sides are empty or off the board the result is the placeholder alone. *)
Theorem build_perpendicular_word_maximal_run self row col d :
  well_formed self -> in_board self (row, col) ->
  exists pre post,
    result (build_perpendicular_word self row col d)
    = Some (pre ++ PLACEHOLDER :: post) /\
    0 <= coordinate row col d - len pre /\
    coordinate row col d + len post < grid_size self /\
    is_run (along self row col d) (coordinate row col d - len pre) pre /\
    ends_run (along self row col d) (grid_size self)
      (coordinate row col d - len pre - 1) /\
    is_run (along self row col d) (coordinate row col d + 1) post /\
    ends_run (along self row col d) (grid_size self)
      (coordinate row col d + len post + 1) /\
    (ends_run (along self row col d) (grid_size self) (coordinate row col d - 1) ->
     ends_run (along self row col d) (grid_size self) (coordinate row col d + 1) ->
     result (build_perpendicular_word self row col d) = Some [PLACEHOLDER]).
Proof.
  intros Hwf [Hr Hc]. simpl in Hr, Hc.
  destruct d; unfold build_perpendicular_word, along, coordinate; cbv zeta.
  - destruct (@perpendicular_scan (fun r => read (grid self) r col)
                (grid_size self) row Hr) as (pre & post & H).
    { intros j Hj. apply (@cell_in_board self (j, col) Hwf). split; simpl; lia. }
    exists pre, post. destruct H as (H1 & H2 & H3 & H4 & H5 & H6 & H7 & H8).
    repeat (split; [assumption|]).
    intros E1 E2. destruct (H8 E1 E2) as [-> ->]. exact H1.
  - destruct (@perpendicular_scan (fun c => read (grid self) row c)
                (grid_size self) col Hc) as (pre & post & H).
    { intros j Hj. apply (@cell_in_board self (row, j) Hwf). split; simpl; lia. }
    exists pre, post. destruct H as (H1 & H2 & H3 & H4 & H5 & H6 & H7 & H8).
    repeat (split; [assumption|]).
    intros E1 E2. destruct (H8 E1 E2) as [-> ->]. exact H1.
Qed.

Lemma build_perpendicular_word_total self row col d :
  well_formed self -> in_board self (row, col) ->
  exists w, result (build_perpendicular_word self row col d) = Some w /\
            1 <= len w.
Proof.
  intros Hwf [Hr Hc]. simpl in Hr, Hc.
  destruct d; unfold build_perpendicular_word; cbv zeta.
  - destruct (@perpendicular_scan (fun r => read (grid self) r col)
                (grid_size self) row Hr) as (pre & post & H & _).
    { intros j Hj. apply (@cell_in_board self (j, col) Hwf). split; simpl; lia. }
    exists (pre ++ PLACEHOLDER :: post). split; [exact H|].
    rewrite len_app, len_cons.
    pose proof (len_nonneg pre). pose proof (len_nonneg post). lia.
  - destruct (@perpendicular_scan (fun c => read (grid self) row c)
                (grid_size self) col Hc) as (pre & post & H & _).
    { intros j Hj. apply (@cell_in_board self (row, j) Hwf). split; simpl; lia. }
    exists (pre ++ PLACEHOLDER :: post). split; [exact H|].
    rewrite len_app, len_cons.
    pose proof (len_nonneg pre). pose proof (len_nonneg post). lia.
Qed.

Lemma build_perpendicular_word_maximal_run_witness :
  exists pre post,
    result (build_perpendicular_word corner_engine 1 2 across)
    = Some (pre ++ PLACEHOLDER :: post) /\
    0 <= coordinate 1 2 across - len pre /\
    coordinate 1 2 across + len post < grid_size corner_engine /\
    is_run (along corner_engine 1 2 across) (coordinate 1 2 across - len pre) pre /\
    ends_run (along corner_engine 1 2 across) (grid_size corner_engine)
      (coordinate 1 2 across - len pre - 1) /\
    is_run (along corner_engine 1 2 across) (coordinate 1 2 across + 1) post /\
    ends_run (along corner_engine 1 2 across) (grid_size corner_engine)
      (coordinate 1 2 across + len post + 1) /\
    (ends_run (along corner_engine 1 2 across) (grid_size corner_engine)
       (coordinate 1 2 across - 1) ->
     ends_run (along corner_engine 1 2 across) (grid_size corner_engine)
       (coordinate 1 2 across + 1) ->
     result (build_perpendicular_word corner_engine 1 2 across)
     = Some [PLACEHOLDER]).
Proof.
  apply (@build_perpendicular_word_maximal_run corner_engine 1 2 across).
  - split; [reflexivity|]. vm_compute. repeat constructor.
  - unfold in_board. change (grid_size corner_engine) with 3. cbn [fst snd]. lia.
Defined.

Lemma len_replace old new s : len (replace old new s) = len s.
Proof. unfold len, replace. rewrite length_map. reflexivity. Qed.

Lemma len_upper s : len (upper s) = len s.
Proof. unfold len, upper. rewrite length_map. reflexivity. Qed.

(** ** can_place_word_scrabble *)

Lemma check_letters_spec self row col d chars : forall i,
  well_formed self ->
  (forall k, 0 <= k < len chars -> in_board self (position row col d (i + k))) ->
  exists b,
    result (check_letters self row col d i chars) = Some b /\
    (b = true <->
     forall k ch, nth_error chars k = Some ch ->
       letter_ok self d (position row col d (i + Z.of_nat k)) ch).
Proof.
  induction chars as [|char rest IH]; intros i Hwf Hin.
  - exists true. split; [reflexivity|]. split; [|reflexivity].
    intros _ k ch H. destruct k; discriminate.
  - assert (Hin0 : in_board self (position row col d i)).
    { replace i with (i + 0) by lia. apply Hin. rewrite len_cons.
      pose proof (len_nonneg rest). lia. }
    destruct (cell_in_board Hwf Hin0) as [cur Hcur].
    destruct (IH (i + 1) Hwf) as [b [Hb Hiff]].
    { intros k Hk. replace (i + 1 + k) with (i + (k + 1)) by lia.
      apply Hin. rewrite len_cons. lia. }
    assert (Hrest : (forall m ch, nth_error rest m = Some ch ->
                       letter_ok self d (position row col d (i + 1 + Z.of_nat m)) ch)
                    <-> (forall k ch, nth_error (char :: rest) (S k) = Some ch ->
                       letter_ok self d (position row col d (i + Z.of_nat (S k))) ch)).
    { split; intros H m ch Hm.
      - replace (i + Z.of_nat (S m)) with (i + 1 + Z.of_nat m) by lia. apply H. exact Hm.
      - replace (i + 1 + Z.of_nat m) with (i + Z.of_nat (S m)) by lia. apply H. exact Hm. }
    cbn [check_letters]. unfold at_cell in Hcur.
    destruct (position row col d i) as [cr cc] eqn:Ep. cbn [fst snd] in Hcur.
    rewrite result_bind, result_read, Hcur.
    assert (Hzero : forall P : Z * Z -> Prop,
               P (position row col d (i + Z.of_nat 0)) <-> P (cr, cc)).
    { intros P. replace (i + Z.of_nat 0) with i by lia. rewrite Ep. reflexivity. }
    destruct (Ascii.eqb_spec cur SPACE) as [Hsp|Hnsp]; cbn [negb andb].
    + (* a new letter *)
      subst cur.
      destruct (@build_perpendicular_word_total self cr cc d Hwf) as [perp [Hperp Hlen]].
      { exact Hin0. }
      rewrite !result_bind, Hperp. cbn [ret result].
      destruct (negb ((1 <? len (replace PLACEHOLDER char perp))
                      && negb (Trie_contains (trie self)
                                 (replace PLACEHOLDER char perp)))) eqn:Eok.
      * exists b. split; [exact Hb|]. rewrite Hiff, Hrest. split.
        -- intros H k ch Hk. destruct k as [|k]; [|apply H; exact Hk].
           inversion Hk; subst ch. apply (Hzero (fun p => letter_ok self d p char)).
           exists SPACE. split; [exact Hcur|]. split; [left; reflexivity|].
           intros _. exists perp. split; [exact Hperp|].
           apply negb_true_iff, andb_false_iff in Eok.
           rewrite len_replace in *. destruct Eok as [E|E].
           ++ left. apply Z.ltb_ge in E. lia.
           ++ right. apply negb_false_iff in E. exact E.
        -- intros H k ch Hk. apply H. exact Hk.
      * exists false. split; [reflexivity|]. split; [discriminate|].
        intros H. exfalso.
        pose proof (H 0%nat char eq_refl) as H0.
        apply (Hzero (fun p => letter_ok self d p char)) in H0.
        destruct H0 as (cur & Hc & _ & Hp). cbn [fst snd] in *.
        unfold at_cell in Hc. cbn [fst snd] in Hc.
        rewrite Hcur in Hc. inversion Hc; subst cur.
        destruct (Hp eq_refl) as (perp' & Hperp' & Hor).
        rewrite Hperp in Hperp'. inversion Hperp'; subst perp'.
        apply negb_false_iff, andb_true_iff in Eok. destruct Eok as [E1 E2].
        apply Z.ltb_lt in E1. apply negb_true_iff in E2.
        destruct Hor as [Hor|Hor]; [lia | congruence].
    + destruct (Ascii.eqb_spec cur char) as [Heq|Hneq]; cbn [negb andb].
      * (* an intersection *)
        subst cur. rewrite result_bind. cbn [ret result].
        exists b. split; [exact Hb|]. rewrite Hiff, Hrest. split.
        -- intros H k ch Hk. destruct k as [|k]; [|apply H; exact Hk].
           inversion Hk; subst ch. apply (Hzero (fun p => letter_ok self d p char)).
           exists char. split; [exact Hcur|]. split; [right; reflexivity|].
           intros E. congruence.
        -- intros H k ch Hk. apply H. exact Hk.
      * (* a conflict *)
        exists false. split; [reflexivity|]. split; [discriminate|].
        intros H. exfalso.
        pose proof (H 0%nat char eq_refl) as H0.
        apply (Hzero (fun p => letter_ok self d p char)) in H0.
        destruct H0 as (cur' & Hc & Hor & _).
        unfold at_cell in Hc. cbn [fst snd] in Hc.
        rewrite Hcur in Hc. inversion Hc; subst cur'.
        destruct Hor; congruence.
Qed.

Lemma probe_spec self (guard : bool) p :
  well_formed self -> (guard = true <-> in_board self p) ->
  exists b,
    result (if guard then
              ch <- read (grid self) (fst p) (snd p) ;;
              ret (negb (Ascii.eqb ch SPACE))
            else ret false) = Some b /\
    (b = false <-> empty_or_off_board self p).
Proof.
  intros Hwf Hg. destruct guard.
  - assert (Hin : in_board self p) by (apply Hg; reflexivity).
    destruct (cell_in_board Hwf Hin) as [ch Hch].
    rewrite result_bind, result_read. unfold at_cell in Hch. rewrite Hch.
    exists (negb (Ascii.eqb ch SPACE)). split; [reflexivity|].
    unfold empty_or_off_board, at_cell. rewrite Hch.
    destruct (Ascii.eqb_spec ch SPACE) as [->|Hne]; cbn [negb].
    + split; auto.
    + split; [discriminate|]. intros [H|H]; [contradiction|congruence].
  - exists false. split; [reflexivity|]. split; [|reflexivity].
    intros _. left. intros Hin. apply Hg in Hin. discriminate.
Qed.

Lemma check_boundaries_spec self word row col d :
  well_formed self -> in_board self (row, col) ->
  span_fits self word row col d ->
  exists b,
    result (check_boundaries self word row col d) = Some b /\
    (b = true <-> ends_isolated self word row col d).
Proof.
  intros Hwf [Hr Hc] Hfit. cbn [fst snd] in Hr, Hc.
  pose proof (len_nonneg word) as Hlen.
  unfold ends_isolated, check_boundaries.
  destruct d; cbn [span_fits position] in *.
  - destruct (@probe_spec self (col >? 0) (row, col + -1) Hwf) as [b1 [H1 E1]].
    { unfold in_board. cbn [fst snd]. rewrite Z.gtb_lt. lia. }
    destruct (@probe_spec self (col + len word <? grid_size self)
                (row, col + len word) Hwf) as [b2 [H2 E2]].
    { unfold in_board. cbn [fst snd]. rewrite Z.ltb_lt. lia. }
    cbn [fst snd] in H1, H2. change (col + -1) with (col - 1) in H1.
    rewrite result_bind, H1. destruct b1.
    + exists false. split; [reflexivity|]. split; [discriminate|].
      intros [H _]. apply E1 in H. discriminate.
    + rewrite result_bind, H2. destruct b2.
      * exists false. split; [reflexivity|]. split; [discriminate|].
        intros [_ H]. apply E2 in H. discriminate.
      * exists true. split; [reflexivity|]. split; [|reflexivity].
        intros _. split; [apply E1 | apply E2]; reflexivity.
  - destruct (@probe_spec self (row >? 0) (row + -1, col) Hwf) as [b1 [H1 E1]].
    { unfold in_board. cbn [fst snd]. rewrite Z.gtb_lt. lia. }
    destruct (@probe_spec self (row + len word <? grid_size self)
                (row + len word, col) Hwf) as [b2 [H2 E2]].
    { unfold in_board. cbn [fst snd]. rewrite Z.ltb_lt. lia. }
    cbn [fst snd] in H1, H2. change (row + -1) with (row - 1) in H1.
    rewrite result_bind, H1. destruct b1.
    + exists false. split; [reflexivity|]. split; [discriminate|].
      intros [H _]. apply E1 in H. discriminate.
    + rewrite result_bind, H2. destruct b2.
      * exists false. split; [reflexivity|]. split; [discriminate|].
        intros [_ H]. apply E2 in H. discriminate.
      * exists true. split; [reflexivity|]. split; [|reflexivity].
        intros _. split; [apply E1 | apply E2]; reflexivity.
Qed.

Lemma span_covered self word row col d :
  in_board self (row, col) -> span_fits self word row col d ->
  covered_in_board self word row col d.
Proof.
  intros [Hr Hc] Hfit k Hk. cbn [fst snd] in *.
  destruct d; cbn [span_fits position] in *; split; cbn [fst snd]; lia.
Qed.

Lemma out_of_span_spec self word row col d :
  out_of_span self word row col d = false <-> span_fits self word row col d.
Proof.
  unfold out_of_span, span_fits. destruct d; rewrite Z.gtb_ltb, Z.ltb_ge; lia.
Qed.

Lemma letters_ok_split self word row col d :
  (forall k ch, nth_error word k = Some ch ->
     letter_ok self d (position row col d (0 + Z.of_nat k)) ch)
  <-> no_conflict self word row col d /\ perpendicular_check self word row col d.
Proof.
  unfold no_conflict, perpendicular_check, letter_ok. split.
  - intros H. split; intros k ch Hk.
    + destruct (H k ch Hk) as (cur & Hc & Hor & _). exists cur. auto.
    + intros Hsp. destruct (H k ch Hk) as (cur & Hc & _ & Hp).
      cbn [Z.add] in Hc, Hp. apply Hp. congruence.
  - intros [H2 H3] k ch Hk. cbn [Z.add].
    destruct (H2 k ch Hk) as (cur & Hc & Hor).
    exists cur. split; [exact Hc|]. split; [exact Hor|].
    intros ->. apply (H3 k ch Hk Hc).
Qed.

Lemma can_place_word_scrabble_spec self word row col d :
  well_formed self -> in_board self (row, col) ->
  exists b,
    result (can_place_word_scrabble self word row col d) = Some b /\
    (b = true <->
     span_fits self (upper word) row col d /\
     no_conflict self (upper word) row col d /\
     perpendicular_check self (upper word) row col d /\
     ends_isolated self (upper word) row col d).
Proof.
  intros Hwf Hin. unfold can_place_word_scrabble. cbv zeta.
  destruct (out_of_span self (upper word) row col d) eqn:Eout.
  - exists false. split; [reflexivity|]. split; [discriminate|].
    intros [Hfit _]. apply out_of_span_spec in Hfit. congruence.
  - apply out_of_span_spec in Eout.
    destruct (@check_letters_spec self row col d (upper word) 0 Hwf)
      as [ok [Hok Hiff]].
    { intros k Hk. cbn [Z.add]. eapply span_covered; eassumption. }
    rewrite letters_ok_split in Hiff.
    rewrite result_bind, Hok. destruct ok.
    + destruct (@check_boundaries_spec self (upper word) row col d Hwf Hin Eout)
        as [b [Hb Hends]].
      exists b. split; [exact Hb|]. rewrite Hends.
      destruct Hiff as [Hl _]. destruct (Hl eq_refl). tauto.
    + exists false. split; [reflexivity|]. split; [discriminate|].
      intros (_ & H2 & H3 & _). destruct Hiff as [_ Hr].
      exfalso. assert (false = true) by (apply Hr; split; assumption). discriminate.
Qed.

(** *** The perpendicular word the validator tests *)













(** ** What the validator reads *)

Lemma reads_scan_before (P : Z * Z -> Prop) (at_ : Z -> run ascii) n :
  forall letters,
  (forall j, 0 <= j < Z.of_nat n -> Forall P (reads (at_ j))) ->
  Forall P (reads (scan_before at_ n letters)).
Proof.
  induction n as [|k IH]; intros letters H; cbn [scan_before].
  - constructor.
  - apply reads_bind; [apply H; lia|]. intros ch _.
    destruct (Ascii.eqb ch SPACE); [constructor|].
    apply reads_bind; [apply H; lia|]. intros ch' _.
    apply IH. intros j Hj. apply H. lia.
Qed.

Lemma reads_scan_after (P : Z * Z -> Prop) (at_ : Z -> run ascii) size n :
  forall letters,
  (forall j, size - Z.of_nat n <= j < size -> Forall P (reads (at_ j))) ->
  Forall P (reads (scan_after at_ size n letters)).
Proof.
  induction n as [|k IH]; intros letters H; cbn [scan_after]; cbv zeta.
  - constructor.
  - apply reads_bind; [apply H; lia|]. intros ch _.
    destruct (Ascii.eqb ch SPACE); [constructor|].
    apply reads_bind; [apply H; lia|]. intros ch' _.
    apply IH. intros j Hj. apply H. lia.
Qed.

Lemma reads_read (P : Z * Z -> Prop) g r c : P (r, c) -> Forall P (reads (read g r c)).
Proof. intros H. repeat constructor. exact H. Qed.

Lemma reads_build_perpendicular_word self row col d :
  in_board self (row, col) ->
  Forall (in_board self) (reads (build_perpendicular_word self row col d)).
Proof.
  intros [Hr Hc]. cbn [fst snd] in *.
  destruct d; unfold build_perpendicular_word; cbv zeta.
  - apply reads_bind.
    + apply reads_scan_before. intros j Hj. apply reads_read.
      split; cbn [fst snd]; lia.
    + intros letters _. apply reads_scan_after. intros j Hj. apply reads_read.
      split; cbn [fst snd]; lia.
  - apply reads_bind.
    + apply reads_scan_before. intros j Hj. apply reads_read.
      split; cbn [fst snd]; lia.
    + intros letters _. apply reads_scan_after. intros j Hj. apply reads_read.
      split; cbn [fst snd]; lia.
Qed.

Lemma reads_check_letters self row col d chars : forall i,
  (forall k, 0 <= k < len chars -> in_board self (position row col d (i + k))) ->
  Forall (in_board self) (reads (check_letters self row col d i chars)).
Proof.
  induction chars as [|char rest IH]; intros i Hin; cbn [check_letters].
  - constructor.
  - assert (Hin0 : in_board self (position row col d i)).
    { replace i with (i + 0) by lia. apply Hin. rewrite len_cons.
      pose proof (len_nonneg rest). lia. }
    destruct (position row col d i) as [cr cc].
    apply reads_bind; [apply reads_read; exact Hin0|]. intros cur _.
    destruct (negb (Ascii.eqb cur SPACE) && negb (Ascii.eqb cur char));
      [constructor|].
    apply reads_bind.
    + destruct (Ascii.eqb cur SPACE); [|constructor].
      apply reads_bind; [apply reads_build_perpendicular_word; exact Hin0|].
      intros perp _. constructor.
    + intros ok _. destruct ok; [|constructor].
      apply IH. intros k Hk. replace (i + 1 + k) with (i + (k + 1)) by lia.
      apply Hin. rewrite len_cons. lia.
Qed.

Lemma reads_check_boundaries self word row col d :
  in_board self (row, col) -> span_fits self word row col d ->
  Forall (in_board self) (reads (check_boundaries self word row col d)).
Proof.
  intros [Hr Hc] Hfit. cbn [fst snd] in *. pose proof (len_nonneg word).
  destruct d; cbn [span_fits] in Hfit; unfold check_boundaries.
  - apply reads_bind.
    + destruct (col >? 0) eqn:E; [|constructor]. apply Z.gtb_lt in E.
      apply reads_bind; [|intros; constructor].
      apply reads_read. split; cbn [fst snd]; lia.
    + intros before _. destruct before; [constructor|].
      apply reads_bind; [|intros after _; destruct after; constructor].
      destruct (col + len word <? grid_size self) eqn:E; [|constructor].
      apply Z.ltb_lt in E.
      apply reads_bind; [|intros; constructor].
      apply reads_read. split; cbn [fst snd]; lia.
  - apply reads_bind.
    + destruct (row >? 0) eqn:E; [|constructor]. apply Z.gtb_lt in E.
      apply reads_bind; [|intros; constructor].
      apply reads_read. split; cbn [fst snd]; lia.
    + intros before _. destruct before; [constructor|].
      apply reads_bind; [|intros after _; destruct after; constructor].
      destruct (row + len word <? grid_size self) eqn:E; [|constructor].
      apply Z.ltb_lt in E.
      apply reads_bind; [|intros; constructor].
      apply reads_read. split; cbn [fst snd]; lia.
Qed.

(** C6, as the code has it.  For a start cell on the board, the validator
    subscripts the grid only at index pairs inside [0, N) x [0, N), and if
    some cell covered by the placement lies off the board it returns [False]
    before reading anything.  (Start coordinates below zero are not checked
    by the validator: see [negative_start_is_accepted].) *)
Theorem can_place_word_scrabble_stays_on_board self word row col d :
  in_board self (row, col) ->
  Forall (in_board self) (reads (can_place_word_scrabble self word row col d)) /\
  ((exists k, 0 <= k < len (upper word) /\
              ~ in_board self (position row col d k)) ->
   can_place_word_scrabble self word row col d = ret false).
Proof.
  intros Hin. unfold can_place_word_scrabble. cbv zeta.
  destruct (out_of_span self (upper word) row col d) eqn:Eout.
  - split; [constructor | reflexivity].
  - apply out_of_span_spec in Eout. split.
    + apply reads_bind.
      * apply reads_check_letters. intros k Hk. cbn [Z.add].
        eapply span_covered; eassumption.
      * intros ok _. destruct ok; [|constructor].
        apply reads_check_boundaries; assumption.
    + intros (k & Hk & Hout). exfalso. apply Hout.
      eapply span_covered; eassumption.
Qed.

Lemma can_place_word_scrabble_stays_on_board_witness :
  Forall (in_board example_engine)
    (reads (can_place_word_scrabble example_engine ["c"; "a"; "t"]%char 1 3 across)) /\
  ((exists k, 0 <= k < len (upper ["c"; "a"; "t"]%char) /\
              ~ in_board example_engine (position 1 3 across k)) ->
   can_place_word_scrabble example_engine ["c"; "a"; "t"]%char 1 3 across = ret false).
Proof.
  apply (@can_place_word_scrabble_stays_on_board example_engine
           ["c"; "a"; "t"]%char 1 3 across).
  split; cbn; lia.
Defined.

(** C6 as stated fails for a negative start: on the empty 5x5 board the word
    AB across from column -1 covers the off-board cell (0, -1), yet the
    validator subscripts the grid at (0, -1), which Python resolves to the
    last column, and returns [True]. *)
Lemma negative_start_is_accepted :
  ~ in_board example_engine (position 0 (-1) across 0) /\
  result (can_place_word_scrabble example_engine ["A"; "B"]%char 0 (-1) across)
  = Some true /\
  In (0, -1)
     (reads (can_place_word_scrabble example_engine ["A"; "B"]%char 0 (-1) across)).
Proof.
  split; [|split].
  - intros [_ H]. cbn in H. lia.
  - vm_compute. reflexivity.
  - vm_compute. left. reflexivity.
Qed.

(** ** has_connection_to_existing *)

Lemma neighbour_occupied_spec self r c dirs :
  well_formed self ->
  exists b,
    result (neighbour_occupied self r c dirs) = Some b /\
    (b = true <->
     exists dr dc, In (dr, dc) dirs /\ occupied self (r + dr, c + dc)).
Proof.
  intros Hwf. induction dirs as [|[dr dc] rest IH]; cbn [neighbour_occupied].
  - exists false. split; [reflexivity|]. split; [discriminate|].
    intros (dr & dc & [] & _).
  - cbv zeta. destruct IH as [b [Hb Hiff]].
    assert (Hskip : ~ occupied self (r + dr, c + dc) ->
              (b = true <->
               exists dr' dc', In (dr', dc') ((dr, dc) :: rest) /\
                               occupied self (r + dr', c + dc'))).
    { intros Hno. rewrite Hiff. split.
      - intros (dr' & dc' & Hi & Ho). exists dr', dc'. split; [right|]; assumption.
      - intros (dr' & dc' & [Hi|Hi] & Ho).
        + inversion Hi; subst. contradiction.
        + exists dr', dc'. split; assumption. }
    destruct ((0 <=? r + dr) && (r + dr <? grid_size self)
              && (0 <=? c + dc) && (c + dc <? grid_size self)) eqn:Eg.
    + assert (Hin : in_board self (r + dr, c + dc)).
      { apply andb_true_iff in Eg. destruct Eg as [Eg E4].
        apply andb_true_iff in Eg. destruct Eg as [Eg E3].
        apply andb_true_iff in Eg. destruct Eg as [E1 E2].
        split; cbn [fst snd]; lia. }
      destruct (cell_in_board Hwf Hin) as [ch Hch]. unfold at_cell in Hch.
      cbn [fst snd] in Hch. rewrite result_bind, result_read, Hch.
      destruct (Ascii.eqb_spec ch SPACE) as [->|Hne]; cbn [negb].
      * exists b. split; [exact Hb|]. apply Hskip.
        intros (_ & x & Hx & Hxs). unfold at_cell in Hx. cbn [fst snd] in Hx.
        congruence.
      * exists true. split; [reflexivity|]. split; [|reflexivity].
        intros _. exists dr, dc. split; [left; reflexivity|].
        split; [exact Hin|]. exists ch. split; [exact Hch | exact Hne].
    + exists b. split; [exact Hb|]. apply Hskip.
      intros ([H1 H2] & _). cbn [fst snd] in *.
      apply andb_false_iff in Eg. destruct Eg as [Eg|Eg]; [|lia].
      apply andb_false_iff in Eg. destruct Eg as [Eg|Eg]; [|lia].
      apply andb_false_iff in Eg. destruct Eg as [Eg|Eg]; lia.
Qed.

Lemma connection_scan_spec self row col d chars : forall i,
  well_formed self ->
  (forall k, 0 <= k < len chars -> in_board self (position row col d (i + k))) ->
  exists b,
    result (connection_scan self row col d i chars) = Some b /\
    (b = true <->
     exists k ch, nth_error chars k = Some ch /\
       (at_cell self (position row col d (i + Z.of_nat k)) = Some ch \/
        exists dr dc, In (dr, dc) orthogonal_directions /\
          occupied self (fst (position row col d (i + Z.of_nat k)) + dr,
                         snd (position row col d (i + Z.of_nat k)) + dc))).
Proof.
  induction chars as [|char rest IH]; intros i Hwf Hin; cbn [connection_scan].
  - exists false. split; [reflexivity|]. split; [discriminate|].
    intros (k & ch & H & _). destruct k; discriminate.
  - assert (Hin0 : in_board self (position row col d i)).
    { replace i with (i + 0) by lia. apply Hin. rewrite len_cons.
      pose proof (len_nonneg rest). lia. }
    destruct (cell_in_board Hwf Hin0) as [here Hhere].
    destruct (IH (i + 1) Hwf) as [b [Hb Hiff]].
    { intros k Hk. replace (i + 1 + k) with (i + (k + 1)) by lia.
      apply Hin. rewrite len_cons. lia. }
    destruct (@neighbour_occupied_spec self (fst (position row col d i))
                (snd (position row col d i)) orthogonal_directions Hwf)
      as [adj [Hadj Hadjiff]].
    assert (Ei : forall k, i + 1 + Z.of_nat k = i + Z.of_nat (S k)) by (intros; lia).
    assert (E0 : i + Z.of_nat 0 = i) by lia.
    unfold at_cell in Hhere.
    destruct (position row col d i) as [cr cc] eqn:Ep. cbn [fst snd] in *.
    rewrite result_bind, result_read, Hhere.
    destruct (Ascii.eqb_spec here char) as [->|Hne].
    + exists true. split; [reflexivity|]. split; [|reflexivity]. intros _.
      exists 0%nat, char. split; [reflexivity|]. left. rewrite E0, Ep.
      exact Hhere.
    + rewrite result_bind, Hadj. destruct adj.
      * exists true. split; [reflexivity|]. split; [|reflexivity]. intros _.
        exists 0%nat, char. split; [reflexivity|]. right. rewrite E0, Ep.
        apply Hadjiff. reflexivity.
      * exists b. split; [exact Hb|]. rewrite Hiff. split.
        -- intros (k & ch & Hk & H). exists (S k), ch. split; [exact Hk|].
           rewrite <- Ei. exact H.
        -- intros (k & ch & Hk & H). destruct k as [|k].
           ++ exfalso. inversion Hk; subst ch. rewrite E0, Ep in H.
              cbn [fst snd] in H. destruct H as [H|H].
              ** unfold at_cell in H. cbn [fst snd] in H. congruence.
              ** apply Hadjiff in H. discriminate.
           ++ exists k, ch. split; [exact Hk|]. rewrite Ei. exact H.
Qed.

Lemma upper_char_blank c : upper_char c = SPACE -> c = SPACE.
Proof.
  destruct c as [[] [] [] [] [] [] [] []]; vm_compute; intro H;
    first [reflexivity | discriminate H].
Qed.

Lemma upper_blank w : In SPACE (upper w) -> In SPACE w.
Proof.
  unfold upper. intros H. apply in_map_iff in H. destruct H as (c & Hc & Hin).
  apply upper_char_blank in Hc. subst c. exact Hin.
Qed.

(** C4, for placements on the board and words without a blank.  On a
    well-formed board, for a placement whose cells all lie on the board and
    a word that contains no blank, [has_connection_to_existing] returns a
    boolean, [True] exactly when no word is placed yet or some letter of the
    candidate meets a cell holding that letter or has an occupied orthogonal
    neighbour.  (Off the board the function subscripts the grid all the
    same, see [connection_off_board]; a blank of the word is compared with
    the cell like a letter and matches an empty cell, see
    [connection_blank_in_word].) *)
Theorem has_connection_to_existing_iff self word row col d :
  well_formed self -> covered_in_board self (upper word) row col d ->
  ~ In SPACE word ->
  exists b,
    result (has_connection_to_existing self word row col d) = Some b /\
    (b = true <->
     length (placed_words self) = 0%nat \/ touches self (upper word) row col d).
Proof.
  intros Hwf Hcov Hnb. unfold has_connection_to_existing.
  destruct (len (placed_words self) =? 0) eqn:E.
  - exists true. split; [reflexivity|]. split; [|reflexivity]. intros _.
    left. apply Z.eqb_eq in E. unfold len in E. lia.
  - apply Z.eqb_neq in E.
    destruct (@connection_scan_spec self row col d (upper word) 0 Hwf)
      as [b [Hb Hiff]].
    { intros k Hk. cbn [Z.add]. apply Hcov. exact Hk. }
    exists b. split; [exact Hb|]. rewrite Hiff. unfold touches, holds. split.
    + intros (k & ch & Hk & H). right. exists k, ch. split; [exact Hk|].
      destruct H as [H|H]; [left|right; exact H].
      split; [|split; [exact H|]].
      * apply Hcov. split; [lia|].
        assert (k < length (upper word))%nat by (apply nth_error_Some; congruence).
        unfold len. lia.
      * intros ->. apply Hnb, upper_blank. eapply nth_error_In; exact Hk.
    + intros [H|(k & ch & Hk & H)].
      * exfalso. unfold len in E. lia.
      * exists k, ch. split; [exact Hk|].
        destruct H as [(_ & H & _)|H]; [left; exact H | right; exact H].
Qed.

Lemma has_connection_to_existing_iff_witness :
  exists b,
    result (has_connection_to_existing corner_engine ["a"; "b"]%char 1 1 across)
    = Some b /\
    (b = true <->
     length (placed_words corner_engine) = 0%nat \/
     touches corner_engine (upper ["a"; "b"]%char) 1 1 across).
Proof.
  apply (@has_connection_to_existing_iff corner_engine ["a"; "b"]%char 1 1 across).
  - split; [reflexivity|]. vm_compute. repeat constructor.
  - intros k Hk. change (len (upper ["a"; "b"]%char)) with 2 in Hk.
    unfold in_board. change (grid_size corner_engine) with 3.
    cbn [position fst snd]. lia.
  - intros [H|[H|[]]]; discriminate H.
Defined.

(** C4 as stated fails off the board: on the 3x3 board holding A at (0, 2),
    the word A across from column -1 covers no board cell and has no occupied
    neighbour on the board, yet the function returns [True], because
    [grid[0][-1]] is the last cell of row 0. *)
Lemma connection_off_board :
  result (has_connection_to_existing corner_engine ["A"%char] 0 (-1) across)
  = Some true /\
  ~ (length (placed_words corner_engine) = 0%nat \/
     touches corner_engine (upper ["A"%char]) 0 (-1) across).
Proof.
  split; [vm_compute; reflexivity|].
  intros [H|(k & ch & Hk & H)]; [vm_compute in H; discriminate|].
  destruct k as [|k]; [|destruct k; discriminate].
  cbn in Hk. inversion Hk; subst ch. cbv zeta in H.
  destruct H as [[[_ H] _]|(dr & dc & Hin & [[H1 H2] (x & Hx & Hne)])].
  - cbn in H. lia.
  - cbn [fst snd position] in *. unfold orthogonal_directions in Hin.
    destruct Hin as [E|[E|[E|[E|[]]]]]; inversion E; subst dr dc;
      cbn in H1, H2; try lia.
    vm_compute in Hx. inversion Hx; subst x. apply Hne. reflexivity.
Qed.

(** It also fails on the board for a word with a blank.  On the 5x5 board
    with CAT in row 0, the two-word name ["A B"] across from (4, 0) lies on
    the board, meets no letter and has no occupied neighbour, yet the
    function returns [True]: the blank at index 1 equals the empty cell
    (4, 1). *)
Lemma connection_blank_in_word :
  covered_in_board cat_engine (upper ["A"; " "; "B"]%char) 4 0 across /\
  result (has_connection_to_existing cat_engine ["A"; " "; "B"]%char 4 0 across)
  = Some true /\
  ~ (length (placed_words cat_engine) = 0%nat \/
     touches cat_engine (upper ["A"; " "; "B"]%char) 4 0 across).
Proof.
  split; [|split; [vm_compute; reflexivity|]].
  { intros k Hk. change (len (upper ["A"; " "; "B"]%char)) with 3 in Hk.
    unfold in_board. change (grid_size cat_engine) with 5.
    cbn [position fst snd]. lia. }
  intros [H|(k & ch & Hk & H)]; [vm_compute in H; discriminate|].
  assert (Hrow : forall c, 0 <= c < 5 -> at_cell cat_engine (4, c) = Some SPACE).
  { intros c Hc.
    assert (Ec : c = 0 \/ c = 1 \/ c = 2 \/ c = 3 \/ c = 4) by lia.
    destruct Ec as [->|[->|[->|[->| ->]]]]; vm_compute; reflexivity. }
  assert (Hrow3 : forall c, 0 <= c < 5 -> at_cell cat_engine (3, c) = Some SPACE).
  { intros c Hc.
    assert (Ec : c = 0 \/ c = 1 \/ c = 2 \/ c = 3 \/ c = 4) by lia.
    destruct Ec as [->|[->|[->|[->| ->]]]]; vm_compute; reflexivity. }
  assert (Hk3 : (k < 3)%nat).
  { change 3%nat with (length (upper ["A"; " "; "B"]%char)).
    apply nth_error_Some. congruence. }
  cbv zeta in H. cbn [position fst snd] in H.
  destruct H as [(_ & Hc & Hsp)|(dr & dc & Hin & [[H1 H2] (x & Hx & Hne)])].
  - rewrite Hrow in Hc by lia. congruence.
  - change (grid_size cat_engine) with 5 in H1, H2. cbn [fst snd] in *.
    unfold orthogonal_directions in Hin.
    destruct Hin as [E|[E|[E|[E|[]]]]]; inversion E; subst dr dc.
    + replace (4 + -1) with 3 in Hx by lia. rewrite Hrow3 in Hx by lia. congruence.
    + lia.
    + replace (4 + 0) with 4 in Hx by lia. rewrite Hrow in Hx by lia. congruence.
    + replace (4 + 0) with 4 in Hx by lia. rewrite Hrow in Hx by lia. congruence.
Qed.

(** ** The solver: what a call leaves behind *)

Lemma place_word_Return self word row col d self' :
  place_word self word row col d = (Return tt, self') ->
  write_letters (grid self) row col d 0 (upper word) = (Return tt, grid self') /\
  self' = with_placed_words (with_grid self (grid self'))
            (placed_words self ++ [(upper word, row, col, d)]).
Proof.
  unfold place_word. cbv zeta.
  destruct (write_letters (grid self) row col d 0 (upper word)) as [[[]|e] g];
    intros H; inversion H; subst. cbn. split; reflexivity.
Qed.

Lemma place_word_frame self word row col d o self' :
  place_word self word row col d = (o, self') ->
  grid_size self' = grid_size self /\ words self' = words self.
Proof.
  unfold place_word. cbv zeta.
  destruct (write_letters (grid self) row col d 0 (upper word)) as [[[]|e] g];
    intros H; inversion H; subst; split; reflexivity.
Qed.

Section Solver.

Variable clock : nat -> Q.
Variable entropy : nat -> Z.

Lemma timed_out_state self o s :
  timed_out clock self = (o, s) ->
  s = with_clock_reads self (S (clock_reads self)).
Proof.
  unfold timed_out. cbv zeta. cbn [start_time with_clock_reads].
  destruct (start_time self); intros H; inversion H; reflexivity.
Qed.

Lemma backtrack_from_eq n self :
  backtrack_from clock entropy n self =
  match timed_out clock self with
  | (Raise e, self) => (Raise e, self)
  | (Return true, self) => (Return false, self)
  | (Return false, self) =>
      match n with
      | O => (Return true, self)
      | S k =>
          match py_index (words self) (len (words self) - Z.of_nat n) with
          | None => (Raise IndexError, self)
          | Some word =>
              match lift (valid_placements self word) with
              | Raise e => (Raise e, self)
              | Return found =>
                  try_placements (backtrack_from clock entropy k) word
                    (sort_by le2 (solver_keys entropy (random_draws self) found))
                    (with_random_draws self (random_draws self + length found))
              end
          end
      end
  end.
Proof. destruct n; reflexivity. Qed.

(** A failed loop over the candidates ends in the state it started from. *)
Lemma try_placements_false solve_rest word cands : forall self s',
  try_placements solve_rest word cands self = (Return false, s') ->
  grid s' = grid self /\ placed_words s' = placed_words self.
Proof.
  induction cands as [|[[[row col] d] n] rest IH]; intros self s' H;
    cbn [try_placements] in H.
  - inversion H; subst. split; reflexivity.
  - cbv zeta in H.
    destruct (place_word self word row col d) as [[[]|e] s1]; [|discriminate].
    destruct (solve_rest s1) as [[[|]|e] s2]; try discriminate.
    apply IH in H. cbn in H. exact H.
Qed.

Lemma backtrack_from_false n self s' :
  backtrack_from clock entropy n self = (Return false, s') ->
  grid s' = grid self /\ placed_words s' = placed_words self.
Proof.
  rewrite backtrack_from_eq.
  destruct (timed_out clock self) as [[[|]|e] s1] eqn:Et; try discriminate;
    apply timed_out_state in Et; subst s1.
  - intros H. inversion H; subst. split; reflexivity.
  - destruct n as [|k]; [discriminate|].
    destruct (py_index _ _) as [word|]; [|discriminate].
    destruct (lift _) as [found|e]; [|discriminate].
    intros H. apply try_placements_false in H. cbn in H. exact H.
Qed.

(** C3.  Whatever the word index and the state at entry, when
    [_backtrack_solve] returns [False] -- on the timeout check, with no
    candidate, or after exhausting the candidates -- the grid and the list
    of placed words are those of the state at entry. *)
Theorem backtrack_solve_false_restores_state self word_index s' :
  _backtrack_solve clock entropy self word_index = (Return false, s') ->
  grid s' = grid self /\ placed_words s' = placed_words self.
Proof. unfold _backtrack_solve. apply backtrack_from_false. Qed.

(** C8, as the code has it.  With a timeout of 0, if the clock has advanced
    between the reading [generate_puzzle] takes at its start and the reading
    of the first timeout check, [generate_puzzle] returns [False] without
    raising, and the grid and the placed words are untouched.  (The check is
    [elapsed > timeout]: see [zero_timeout_still_clock].) *)
Theorem generate_puzzle_zero_timeout self :
  (timeout self == 0)%Q ->
  (clock (clock_reads self) < clock (S (clock_reads self)))%Q ->
  exists s',
    generate_puzzle clock entropy self = (Return false, s') /\
    grid s' = grid self /\ placed_words s' = placed_words self.
Proof.
  intros Hzero Hadv. unfold generate_puzzle, _backtrack_solve. cbv zeta.
  rewrite backtrack_from_eq. unfold timed_out. cbv zeta.
  cbn [start_time timeout clock_reads with_start_time with_clock_reads].
  destruct (Qle_bool (clock (S (clock_reads self)) - clock (clock_reads self))
              (timeout self)) eqn:E.
  - apply Qle_bool_iff in E. exfalso. lra.
  - cbn [negb]. eexists. split; [reflexivity|]. split; reflexivity.
Qed.

End Solver.

Lemma backtrack_solve_false_restores_state_witness :
  grid (snd (_backtrack_solve (fun _ => 0%Q) (fun _ => 0) cramped_engine 0))
  = grid cramped_engine /\
  placed_words (snd (_backtrack_solve (fun _ => 0%Q) (fun _ => 0) cramped_engine 0))
  = placed_words cramped_engine.
Proof.
  apply (@backtrack_solve_false_restores_state (fun _ => 0%Q) (fun _ => 0)
           cramped_engine 0).
  vm_compute. reflexivity.
Defined.

Lemma generate_puzzle_zero_timeout_witness :
  exists s',
    generate_puzzle (fun k => inject_Z (Z.of_nat k)) (fun _ => 0)
      (with_timeout example_engine 0) = (Return false, s') /\
    grid s' = grid (with_timeout example_engine 0) /\
    placed_words s' = placed_words (with_timeout example_engine 0).
Proof.
  apply (@generate_puzzle_zero_timeout (fun k => inject_Z (Z.of_nat k))
           (fun _ => 0) (with_timeout example_engine 0)).
  - reflexivity.
  - vm_compute. reflexivity.
Defined.

(** C8 as stated fails when the clock stands still: with timeout 0 and two
    equal clock readings the elapsed time is not greater than the timeout,
    the search runs, and on the words CAT, CAR, ARC and a 5x5 board
    [generate_puzzle] returns [True]. *)
Lemma zero_timeout_still_clock :
  timeout (with_timeout example_engine 0) = (0 # 1)%Q /\
  fst (generate_puzzle (fun _ => 0%Q) (fun _ => 0) (with_timeout example_engine 0))
  = Return true.
Proof. split; [reflexivity | vm_compute; reflexivity]. Qed.

(** ** The solver: invariants of the grid and the placed words *)

Section SolverInvariant.

Variable clock : nat -> Q.
Variable entropy : nat -> Z.

(** [P] is a property of the grid and the placed words that [place_word]
    keeps, on a board of size [size], for the words [ws] of the puzzle. *)
Variable P : Grid -> list placement -> Prop.
Variable size : Z.
Variable ws : list str.

Hypothesis place_word_keeps : forall s w r c d s',
  grid_size s = size -> In w ws ->
  P (grid s) (placed_words s) ->
  place_word s w r c d = (Return tt, s') ->
  P (grid s') (placed_words s').


Lemma try_placements_keeps solve_rest word :
  In word ws ->
  (forall s b s', preserved P size ws s -> solve_rest s = (Return b, s') -> preserved P size ws s') ->
  forall cands self b s',
    preserved P size ws self ->
    try_placements solve_rest word cands self = (Return b, s') -> preserved P size ws s'.
Proof.
  intros Hword Hsolve.
  induction cands as [|[[[row col] d] n] rest IH]; intros self b s' Hk H;
    cbn [try_placements] in H.
  - inversion H; subst. exact Hk.
  - cbv zeta in H. destruct Hk as (HP & Hws & Hsz).
    destruct (place_word self word row col d) as [[[]|e] s1] eqn:Ep;
      [|discriminate].
    assert (Hk1 : preserved P size ws s1).
    { destruct (place_word_frame _ _ _ _ _ Ep) as [F1 F2].
      split; [|split]; [|congruence|congruence].
      eapply place_word_keeps; eauto. }
    destruct (solve_rest s1) as [[[|]|e] s2] eqn:Es; try discriminate.
    + inversion H; subst. eapply Hsolve; eauto.
    + apply (Hsolve _ _ _ Hk1) in Es. destruct Es as (_ & Hws2 & Hsz2).
      eapply IH; [|exact H]. split; [|split]; cbn; assumption.
Qed.

Lemma backtrack_from_keeps n : forall self b s',
  preserved P size ws self ->
  backtrack_from clock entropy n self = (Return b, s') -> preserved P size ws s'.
Proof.
  induction n as [|k IH]; intros self b s' Hk; rewrite backtrack_from_eq;
    destruct (timed_out clock self) as [[[|]|e] s1] eqn:Et; try discriminate;
    apply timed_out_state in Et; subst s1; intros H.
  - inversion H; subst. exact Hk.
  - inversion H; subst. exact Hk.
  - inversion H; subst. exact Hk.
  - destruct (py_index _ _) as [word|] eqn:Ew; [|discriminate].
    destruct (lift _) as [found|e]; [|discriminate].
    eapply try_placements_keeps; [| exact IH | | exact H].
    + apply py_index_In in Ew. cbn in Ew. destruct Hk as (_ & <- & _). exact Ew.
    + exact Hk.
Qed.

Lemma generate_puzzle_keeps self b s' :
  preserved P size ws self ->
  generate_puzzle clock entropy self = (Return b, s') -> preserved P size ws s'.
Proof.
  intros Hk. unfold generate_puzzle, _backtrack_solve. cbv zeta.
  destruct (backtrack_from clock entropy _ _) as [[r|e] s1] eqn:E; [|discriminate].
  intros H. inversion H; subst.
  apply backtrack_from_keeps in E; [exact E | exact Hk].
Qed.

End SolverInvariant.

(** ** Replay *)

Lemma upper_char_idempotent c : upper_char (upper_char c) = upper_char c.
Proof. destruct c as [[] [] [] [] [] [] [] []]; reflexivity. Qed.

Lemma upper_idempotent w : upper (upper w) = upper w.
Proof.
  unfold upper. rewrite map_map. apply map_ext. apply upper_char_idempotent.
Qed.

Lemma replay_app l1 : forall base l2,
  replay base (l1 ++ l2) =
  match replay base l1 with
  | (Return _, s) => replay s l2
  | (Raise e, s) => (Raise e, s)
  end.
Proof.
  induction l1 as [|[[[w r] c] d] t IH]; intros base l2; cbn [replay app].
  - reflexivity.
  - destruct (place_word base w r c d) as [[[]|e] s]; [apply IH | reflexivity].
Qed.

Lemma reconstructs_empty size : reconstructs size (empty_grid size) [].
Proof. intros base Hb. exists base. split; [reflexivity | exact Hb]. Qed.

Lemma reconstructs_place_word size s w r c d s' :
  reconstructs size (grid s) (placed_words s) ->
  place_word s w r c d = (Return tt, s') ->
  reconstructs size (grid s') (placed_words s').
Proof.
  intros Hrec Hp base Hb. apply place_word_Return in Hp. destruct Hp as [Hw Hs'].
  destruct (Hrec base Hb) as (m & Hm & Hg).
  rewrite Hs'. cbn [placed_words with_placed_words with_grid grid].
  rewrite replay_app, Hm. cbn [replay]. unfold place_word. cbv zeta.
  rewrite upper_idempotent, Hg, Hw.
  eexists. split; [reflexivity|]. reflexivity.
Qed.

(** C2.  After a successful [generate_puzzle] on a fresh engine, applying
    [place_word] to the recorded placements, in recorded order, on a cleared
    board succeeds and yields exactly the final grid. *)
Theorem replay_reproduces_final_grid clock entropy self s' :
  fresh self ->
  generate_puzzle clock entropy self = (Return true, s') ->
  exists s,
    replay (clear_grid s') (placed_words s') = (Return tt, s) /\
    grid s = grid s'.
Proof.
  intros [Hg Hp] Hgen.
  assert (Hk : preserved (reconstructs (grid_size self)) (grid_size self)
                 (words self) s').
  { eapply generate_puzzle_keeps; [| |exact Hgen].
    - intros s w r c d s1 _ _. apply reconstructs_place_word.
    - split; [|split; reflexivity]. rewrite Hg, Hp. apply reconstructs_empty. }
  destruct Hk as (Hrec & _ & Hsz). apply Hrec. cbn. rewrite Hsz. reflexivity.
Qed.

Lemma replay_reproduces_final_grid_witness :
  exists s,
    replay (clear_grid (snd (generate_puzzle (fun _ => 0%Q) (fun _ => 0)
                               example_engine)))
      (placed_words (snd (generate_puzzle (fun _ => 0%Q) (fun _ => 0)
                            example_engine)))
    = (Return tt, s) /\
    grid s = grid (snd (generate_puzzle (fun _ => 0%Q) (fun _ => 0)
                          example_engine)).
Proof.
  apply (@replay_reproduces_final_grid (fun _ => 0%Q) (fun _ => 0) example_engine).
  - split; vm_compute; reflexivity.
  - vm_compute. reflexivity.
Defined.

(** ** The constructor's word order *)

Lemma insert_by_perm K A (le : K -> K -> bool) (x : K * A) l :
  Permutation (insert_by le x l) (x :: l).
Proof.
  induction l as [|y t IH]; cbn [insert_by].
  - apply Permutation_refl.
  - destruct (le (fst x) (fst y)); [apply Permutation_refl|].
    eapply perm_trans; [apply perm_skip, IH | apply perm_swap].
Qed.

Lemma sort_by_perm K A (le : K -> K -> bool) (l : list (K * A)) :
  Permutation (sort_by le l) (map snd l).
Proof.
  unfold sort_by. apply Permutation_map.
  induction l as [|x t IH]; cbn [fold_right].
  - apply Permutation_refl.
  - eapply perm_trans; [apply insert_by_perm | apply perm_skip, IH].
Qed.

Lemma sorted_by_len_desc_perm word_list :
  Permutation (sorted_by_len_desc word_list) word_list.
Proof.
  unfold sorted_by_len_desc.
  eapply perm_trans; [apply sort_by_perm|].
  rewrite map_map. cbn [snd]. rewrite map_id. apply Permutation_refl.
Qed.

Lemma groupby_concat A (key : A -> Z) l : concat (groupby key l) = l.
Proof.
  induction l as [|x t IH]; [reflexivity|]. cbn [groupby].
  destruct (groupby key t) as [|[|y g] gs]; cbn [concat app] in *.
  - subst t. reflexivity.
  - rewrite IH. reflexivity.
  - destruct (key x =? key y); cbn [concat app]; rewrite IH; reflexivity.
Qed.

Lemma list_set_nth_error A (l : list A) : forall k v l' j,
  list_set l k v = Some l' ->
  nth_error l' j = if Nat.eqb j k then Some v else nth_error l j.
Proof.
  induction l as [|h t IH]; intros k v l' j H; [discriminate|].
  destruct k as [|k]; cbn [list_set] in H.
  - inversion H; subst. destruct j; reflexivity.
  - destruct (list_set t k v) as [t'|] eqn:E; [|discriminate].
    inversion H; subst. destruct j as [|j]; [reflexivity|].
    cbn [nth_error Nat.eqb]. apply (@IH k v t' j E).
Qed.

Lemma list_set_perm A (l : list A) : forall k v l' old,
  list_set l k v = Some l' -> nth_error l k = Some old ->
  Permutation (old :: l') (v :: l).
Proof.
  induction l as [|h t IH]; intros k v l' old H Hn; [discriminate|].
  destruct k as [|k]; cbn [list_set nth_error] in *.
  - inversion H; inversion Hn; subst. apply perm_swap.
  - destruct (list_set t k v) as [t'|] eqn:E; [|discriminate].
    inversion H; subst.
    eapply perm_trans; [apply perm_swap|].
    eapply perm_trans; [apply perm_skip, (@IH k v t' old E Hn)|].
    apply perm_swap.
Qed.

Lemma swap_perm A (x : list A) i j : Permutation (swap x i j) x.
Proof.
  unfold swap.
  destruct (nth_error x j) as [a|] eqn:Ej; [|apply Permutation_refl].
  destruct (nth_error x i) as [b|] eqn:Ei; [|apply Permutation_refl].
  destruct (list_set x i a) as [x1|] eqn:E1; [|apply Permutation_refl].
  pose proof (@list_set_perm _ x i a x1 b E1 Ei) as P1.
  destruct (list_set x1 j b) as [x2|] eqn:E2.
  - assert (Hj : nth_error x1 j = Some a).
    { rewrite (@list_set_nth_error _ x i a x1 j E1).
      destruct (Nat.eqb j i); [reflexivity | exact Ej]. }
    pose proof (@list_set_perm _ x1 j b x2 a E2 Hj) as P2.
    apply Permutation_cons_inv with (a := a).
    eapply perm_trans; [exact P2 | exact P1].
  - (* cannot happen: position j exists in x1 *)
    assert (Hj : nth_error x1 j = Some a).
    { rewrite (@list_set_nth_error _ x i a x1 j E1).
      destruct (Nat.eqb j i); [reflexivity | exact Ej]. }
    exfalso. clear - E2 Hj. revert j E2 Hj.
    induction x1 as [|h t IH]; intros j E2 Hj; [destruct j; discriminate|].
    destruct j as [|j]; cbn [list_set nth_error] in *; [discriminate|].
    destruct (list_set t j b) eqn:E; [discriminate|]. eapply IH; eauto.
Qed.

Lemma shuffle_loop_perm entropy A i : forall (x : list A) k,
  Permutation (fst (shuffle_loop entropy i x k)) x.
Proof.
  induction i as [|i IH]; intros x k; cbn [shuffle_loop].
  - apply Permutation_refl.
  - cbv zeta. eapply perm_trans; [apply IH | apply swap_perm].
Qed.

Lemma shuffle_groups_perm entropy groups : forall grouped k,
  Permutation (fst (shuffle_groups entropy groups grouped k))
              (grouped ++ concat groups).
Proof.
  induction groups as [|g gs IH]; intros grouped k; cbn [shuffle_groups concat].
  - rewrite app_nil_r. apply Permutation_refl.
  - pose proof (shuffle_loop_perm entropy (length g - 1) g k) as Hp.
    unfold shuffle.
    destruct (shuffle_loop entropy (length g - 1) g k) as [g' k'].
    cbn [fst] in Hp. eapply perm_trans; [apply IH|].
    rewrite app_assoc. apply Permutation_app_tail.
    apply Permutation_app_head. exact Hp.
Qed.

Lemma init_words_perm entropy word_list size :
  Permutation (words (ScrabbleCrossword_init entropy word_list size)) word_list.
Proof.
  unfold ScrabbleCrossword_init, _shuffle_same_length_groups.
  cbn [words random_draws].
  pose proof (shuffle_groups_perm entropy
                (groupby (@len ascii) (sorted_by_len_desc word_list)) [] 0) as Hp.
  destruct (shuffle_groups entropy _ [] 0) as [grouped k].
  cbn [fst app] in Hp. cbn [words with_words with_random_draws].
  rewrite groupby_concat in Hp.
  eapply perm_trans; [exact Hp | apply sorted_by_len_desc_perm].
Qed.

(** ** One placement per word *)

Lemma skipn_nth_error A (l : list A) : forall i x,
  nth_error l i = Some x -> skipn i l = x :: skipn (S i) l.
Proof.
  induction l as [|h t IH]; intros i x H; [destruct i; discriminate|].
  destruct i as [|i]; cbn [nth_error] in H.
  - inversion H; subst. reflexivity.
  - cbn [skipn]. rewrite (IH _ _ H). reflexivity.
Qed.

Section Counting.

Variable clock : nat -> Q.
Variable entropy : nat -> Z.
Variable size : Z.
Variable ws : list str.

Lemma no_condition : forall s w r c d s',
  grid_size s = size -> In w ws -> True ->
  place_word s w r c d = (Return tt, s') -> True.
Proof. intros. exact I. Qed.

Lemma try_placements_true_words solve_rest word tail :
  In word ws ->
  (forall s b s', preserved (fun _ _ => True) size ws s ->
     solve_rest s = (Return b, s') ->
     preserved (fun _ _ => True) size ws s' /\
     (b = true ->
      map pw_word (placed_words s') = map pw_word (placed_words s) ++ tail)) ->
  forall cands self s',
    preserved (fun _ _ => True) size ws self ->
    try_placements solve_rest word cands self = (Return true, s') ->
    map pw_word (placed_words s')
    = map pw_word (placed_words self) ++ upper word :: tail.
Proof.
  intros Hword Hsolve.
  induction cands as [|[[[row col] d] n] rest IH]; intros self s' Hk H;
    cbn [try_placements] in H; [discriminate|].
  cbv zeta in H.
  destruct (place_word self word row col d) as [[[]|e] s1] eqn:Ep; [|discriminate].
  assert (Hk1 : preserved (fun _ _ => True) size ws s1).
  { destruct Hk as (_ & Hws & Hsz).
    destruct (place_word_frame _ _ _ _ _ Ep) as [F1 F2].
    split; [exact I|]. split; congruence. }
  apply place_word_Return in Ep. destruct Ep as [_ Es1].
  destruct (solve_rest s1) as [[[|]|e] s2] eqn:Es; try discriminate.
  - inversion H; subst s2. destruct (Hsolve _ _ _ Hk1 Es) as [_ Hw].
    rewrite (Hw eq_refl), Es1. cbn [placed_words with_placed_words].
    rewrite map_app, <- app_assoc. reflexivity.
  - destruct (Hsolve _ _ _ Hk1 Es) as [(_ & Hws2 & Hsz2) _].
    apply IH in H; [exact H|]. split; [exact I|]. split; cbn; assumption.
Qed.

Lemma backtrack_from_true_words n : forall self b s',
  preserved (fun _ _ => True) size ws self ->
  (n <= length ws)%nat ->
  backtrack_from clock entropy n self = (Return b, s') ->
  preserved (fun _ _ => True) size ws s' /\
  (b = true ->
   map pw_word (placed_words s')
   = map pw_word (placed_words self) ++ map upper (skipn (length ws - n) ws)).
Proof.
  induction n as [|k IH]; intros self b s' Hk Hn H.
  - split; [eapply backtrack_from_keeps; [apply no_condition | exact Hk | exact H]|].
    intros ->. rewrite backtrack_from_eq in H.
    destruct (timed_out clock self) as [[[|]|e] s1] eqn:Et; try discriminate.
    apply timed_out_state in Et; subst s1. inversion H; subst s'.
    rewrite Nat.sub_0_r, skipn_all. cbn. rewrite app_nil_r. reflexivity.
  - split; [eapply backtrack_from_keeps; [apply no_condition | exact Hk | exact H]|].
    intros ->. rewrite backtrack_from_eq in H.
    destruct (timed_out clock self) as [[[|]|e] s1] eqn:Et; try discriminate.
    apply timed_out_state in Et; subst s1.
    destruct (py_index _ _) as [word|] eqn:Ew; [|discriminate].
    destruct (lift _) as [found|e]; [|discriminate].
    destruct Hk as (_ & Hws & Hsz). cbn [words with_clock_reads] in Ew.
    rewrite Hws in Ew. rewrite py_index_nonneg in Ew by (unfold len; lia).
    replace (Z.to_nat (len ws - Z.of_nat (S k))) with (length ws - S k)%nat in Ew
      by (unfold len; lia).
    rewrite (skipn_nth_error _ _ Ew).
    replace (S (length ws - S k)) with (length ws - k)%nat by lia.
    cbn [map].
    eapply try_placements_true_words in H.
    + exact H.
    + eapply nth_error_In; exact Ew.
    + intros s b s2 Hs Hb. apply (IH s b s2 Hs); [lia | exact Hb].
    + split; [exact I|]. split; cbn; assumption.
Qed.

End Counting.

(** C7.  When [generate_puzzle] returns [True] on a freshly constructed
    engine, the placed words are, in order, the uppercased words of the
    engine's word list: one entry per input word, so as many entries as the
    input list has words, and the same words up to order. *)
Theorem generate_puzzle_places_every_word clock entropy word_list size s' :
  generate_puzzle clock entropy (ScrabbleCrossword_init entropy word_list size)
  = (Return true, s') ->
  length (placed_words s') = length word_list /\
  Permutation (map pw_word (placed_words s')) (map upper word_list).
Proof.
  intros H. set (self := ScrabbleCrossword_init entropy word_list size) in *.
  assert (Hplaced : placed_words self = []).
  { unfold self, ScrabbleCrossword_init, _shuffle_same_length_groups.
    destruct (shuffle_groups _ _ _ _). reflexivity. }
  assert (Hmap : map pw_word (placed_words s') = map upper (words self)).
  { unfold generate_puzzle, _backtrack_solve in H. cbv zeta in H.
    destruct (backtrack_from clock entropy _ _) as [[r|e] s1] eqn:E;
      [|discriminate].
    inversion H; subst r s'. cbn [placed_words with_clock_reads].
    cbn [words with_start_time with_clock_reads] in E.
    eapply (@backtrack_from_true_words clock entropy (grid_size self) (words self))
      in E.
    - destruct E as [_ E]. rewrite (E eq_refl).
      cbn [placed_words with_start_time with_clock_reads]. rewrite Hplaced.
      replace (Z.to_nat (len (words self) - 0)) with (length (words self))
        by (unfold len; lia).
      rewrite Nat.sub_diag. reflexivity.
    - split; [exact I|]. split; reflexivity.
    - unfold len. lia. }
  pose proof (init_words_perm entropy word_list size) as Hp. fold self in Hp.
  split.
  - rewrite <- (length_map pw_word), Hmap, length_map.
    apply Permutation_length. exact Hp.
  - rewrite Hmap. apply Permutation_map. exact Hp.
Qed.

Lemma generate_puzzle_places_every_word_witness :
  length (placed_words (snd (generate_puzzle (fun _ => 0%Q) (fun _ => 0)
                               (ScrabbleCrossword_init (fun _ => 0) example_words 5))))
  = length example_words /\
  Permutation
    (map pw_word (placed_words (snd (generate_puzzle (fun _ => 0%Q) (fun _ => 0)
                               (ScrabbleCrossword_init (fun _ => 0) example_words 5)))))
    (map upper example_words).
Proof.
  apply (@generate_puzzle_places_every_word (fun _ => 0%Q) (fun _ => 0)
           example_words 5).
  vm_compute. reflexivity.
Defined.

(** ** The characters on the board *)

Lemma list_set_In A (l : list A) : forall k v l' x,
  list_set l k v = Some l' -> In x l' -> x = v \/ In x l.
Proof.
  induction l as [|h t IH]; intros k v l' x H Hx; [discriminate|].
  destruct k as [|k]; cbn [list_set] in H.
  - inversion H; subst. destruct Hx as [<-|Hx]; [left; reflexivity|].
    right. right. exact Hx.
  - destruct (list_set t k v) as [t'|] eqn:E; [|discriminate].
    inversion H; subst. destruct Hx as [<-|Hx]; [right; left; reflexivity|].
    destruct (@IH k v t' x E Hx) as [->|Hin]; [left; reflexivity|].
    right. right. exact Hin.
Qed.

Lemma py_setitem_In A (l : list A) i v l' x :
  py_setitem l i v = Some l' -> In x l' -> x = v \/ In x l.
Proof.
  unfold py_setitem. destruct (0 <=? i).
  - apply list_set_In.
  - destruct (- len l <=? i); [apply list_set_In | discriminate].
Qed.

Lemma grid_set_chars g r c v g' line ch :
  grid_set g r c v = Some g' -> In line g' -> In ch line ->
  ch = v \/ exists line0, In line0 g /\ In ch line0.
Proof.
  unfold grid_set. destruct (py_index g r) as [old|] eqn:Eo; [|discriminate].
  destruct (py_setitem old c v) as [new|] eqn:En; [|discriminate].
  intros Hg Hl Hc.
  destruct (@py_setitem_In _ g r new g' line Hg Hl) as [->|Hin].
  - destruct (@py_setitem_In _ old c v new ch En Hc) as [->|Hin]; [left; reflexivity|].
    right. exists old. split; [eapply py_index_In; exact Eo | exact Hin].
  - right. exists line. split; assumption.
Qed.

Lemma write_letters_chars (Q : ascii -> Prop) row col d chars : forall g i o g',
  Forall Q chars -> cells_satisfy Q g ->
  write_letters g row col d i chars = (o, g') -> cells_satisfy Q g'.
Proof.
  induction chars as [|char rest IH]; intros g i o g' HQ Hg H;
    cbn [write_letters] in H.
  - inversion H; subst. exact Hg.
  - destruct (position row col d i) as [r c].
    destruct (grid_set g r c char) as [g1|] eqn:E.
    + inversion HQ; subst. eapply IH; [eassumption| |exact H].
      intros line ch Hl Hc.
      destruct (@grid_set_chars g r c char g1 line ch E Hl Hc) as [->|(l0 & H0 & H1)].
      * right. assumption.
      * eapply Hg; eassumption.
    + inversion H; subst. exact Hg.
Qed.

Lemma empty_grid_cells Q size : cells_satisfy Q (empty_grid size).
Proof.
  intros line ch Hl Hc. unfold empty_grid in Hl.
  apply in_map_iff in Hl. destruct Hl as (_ & <- & _).
  apply in_map_iff in Hc. destruct Hc as (_ & <- & _). left. reflexivity.
Qed.

Lemma place_word_all_chars (Q : ascii -> Prop) s w r c d s' :
  Forall Q (upper w) ->
  (forall p, In p (placed_words s) -> Forall Q (pw_word p)) /\
  cells_satisfy Q (grid s) ->
  place_word s w r c d = (Return tt, s') ->
  (forall p, In p (placed_words s') -> Forall Q (pw_word p)) /\
  cells_satisfy Q (grid s').
Proof.
  intros HQ [Hp Hg] H. apply place_word_Return in H. destruct H as [Hw Hs'].
  split.
  - rewrite Hs'. cbn [placed_words with_placed_words]. intros p Hin.
    apply in_app_or in Hin. destruct Hin as [Hin|[<-|[]]]; [apply Hp; exact Hin|].
    exact HQ.
  - eapply write_letters_chars; eassumption.
Qed.

Lemma find_best_placement_state entropy self word o s' :
  find_best_placement entropy self word = (o, s') ->
  grid s' = grid self /\ placed_words s' = placed_words self /\
  words s' = words self.
Proof.
  unfold find_best_placement. cbv zeta.
  destruct (lift _) as [[|x l]|e]; try (intros H; inversion H; subst; auto).
  destruct (sort_by le3 _) as [|[[[[row col] d] a] b] t];
    inversion H; subst; auto.
Qed.

Lemma init_state entropy word_list size :
  grid (ScrabbleCrossword_init entropy word_list size) = empty_grid size /\
  placed_words (ScrabbleCrossword_init entropy word_list size) = [] /\
  grid_size (ScrabbleCrossword_init entropy word_list size) = size.
Proof.
  unfold ScrabbleCrossword_init, _shuffle_same_length_groups.
  destruct (shuffle_groups _ _ _ _). auto.
Qed.

Lemma reachable_all_chars clock entropy (ok : str -> Prop) (Q : ascii -> Prop) :
  (forall w, ok w -> Forall Q (upper w)) ->
  forall s, reachable clock entropy ok s ->
    all_chars Q s /\ Forall ok (words s).
Proof.
  intros Hok s Hr. unfold all_chars. induction Hr as
    [word_list size Hwl
    | self Hr IH
    | self word row col d self' Hr IH Hw Hp
    | self word r self' Hr IH Hf
    | self b self' Hr IH Hg].
  - destruct (init_state entropy word_list size) as (Eg & Ep & _).
    rewrite Eg, Ep. split; [split|].
    + intros p [].
    + apply empty_grid_cells.
    + eapply Permutation_Forall; [|exact Hwl].
      apply Permutation_sym, init_words_perm.
  - destruct IH as [_ IHw]. split; [split|exact IHw].
    + intros p [].
    + apply (empty_grid_cells Q).
  - destruct IH as [IH IHw]. split.
    + eapply place_word_all_chars; [apply Hok; exact Hw | exact IH | exact Hp].
    + destruct (place_word_frame _ _ _ _ _ Hp) as [_ ->]. exact IHw.
  - apply find_best_placement_state in Hf. destruct Hf as (-> & -> & ->). exact IH.
  - destruct IH as [IH IHw].
    assert (Hk : preserved
              (fun g pw => (forall p, In p pw -> Forall Q (pw_word p)) /\
                           cells_satisfy Q g)
              (grid_size self) (words self) self').
    { eapply generate_puzzle_keeps; [| |exact Hg].
      - intros s w r c d s1 _ Hin HP Hpl.
        eapply place_word_all_chars; [|exact HP|exact Hpl].
        apply Hok. rewrite Forall_forall in IHw. apply IHw. exact Hin.
      - split; [exact IH|]. split; reflexivity. }
    destruct Hk as (HP & Hws & _). split; [exact HP|]. rewrite Hws. exact IHw.
Qed.

Lemma upper_char_of_letter c : is_letter c = true -> is_upper (upper_char c) = true.
Proof.
  destruct c as [[] [] [] [] [] [] [] []]; vm_compute; intro H;
    first [reflexivity | discriminate H].
Qed.

Lemma upper_char_fixes_upper c : is_upper c = true -> upper_char c = c.
Proof.
  destruct c as [[] [] [] [] [] [] [] []]; vm_compute; intro H;
    first [reflexivity | discriminate H].
Qed.

Lemma upper_of_alphabetic w :
  alphabetic w -> Forall (fun c => is_upper c = true) (upper w).
Proof.
  unfold alphabetic, upper. intros H. apply Forall_map.
  eapply Forall_impl; [|exact H]. intros c. apply upper_char_of_letter.
Qed.

(** ** find_best_placement *)

Lemma insert_by_In K A (le : K -> K -> bool) (x : K * A) l z :
  In z (insert_by le x l) <-> z = x \/ In z l.
Proof.
  induction l as [|y t IH]; cbn [insert_by].
  - cbn. intuition congruence.
  - destruct (le (fst x) (fst y)); cbn [In]; [intuition congruence|].
    rewrite IH. intuition congruence.
Qed.

Section SortHead.

Variables (K A : Type) (le : K -> K -> bool).
Hypothesis le_total : forall a b, le a b = true \/ le b a = true.
Hypothesis le_trans : forall a b c, le a b = true -> le b c = true -> le a c = true.

(** The first element of a sorted list has the least key. *)
Lemma sorted_head_least (l : list (K * A)) h t :
  fold_right (insert_by le) [] l = h :: t ->
  forall y, In y l -> le (fst h) (fst y) = true.
Proof.
  revert h t. induction l as [|x l IH]; intros h t H y Hy; [destruct Hy|].
  cbn [fold_right] in H.
  destruct (fold_right (insert_by le) [] l) as [|h' t'] eqn:E.
  - cbn in H. inversion H; subst.
    assert (l = []) as ->.
    { destruct l as [|z l]; [reflexivity|]. exfalso.
      assert (Hin : In z (fold_right (insert_by le) [] (z :: l))).
      { cbn [fold_right]. apply insert_by_In. left. reflexivity. }
      cbn [fold_right] in E, Hin.
      destruct (fold_right (insert_by le) [] l); cbn in E; [discriminate|].
      destruct (le (fst z) (fst p)); discriminate. }
    destruct Hy as [<-|[]]. destruct (le_total (fst h) (fst h)); assumption.
  - cbn [insert_by] in H. specialize (IH h' t' eq_refl).
    destruct (le (fst x) (fst h')) eqn:Ele; inversion H; subst.
    + destruct Hy as [<-|Hy].
      * destruct (le_total (fst h) (fst h)); assumption.
      * eapply le_trans; [exact Ele | apply IH; exact Hy].
    + destruct Hy as [<-|Hy].
      * destruct (le_total (fst h) (fst x)) as [Hle|Hle]; [exact Hle|congruence].
      * apply IH. exact Hy.
Qed.

End SortHead.

Lemma le3_spec a b :
  le3 a b = true <->
  (fst (fst a) < fst (fst b) \/
   (fst (fst a) = fst (fst b) /\
    (snd (fst a) < snd (fst b) \/
     (snd (fst a) = snd (fst b) /\ snd a <= snd b)))).
Proof.
  destruct a as [[a1 a2] a3], b as [[b1 b2] b3]. cbn [le3 fst snd].
  rewrite orb_true_iff, andb_true_iff, orb_true_iff, andb_true_iff.
  rewrite !Z.ltb_lt, !Z.eqb_eq, Z.leb_le. reflexivity.
Qed.

Lemma le3_total a b : le3 a b = true \/ le3 b a = true.
Proof. rewrite !le3_spec. lia. Qed.

Lemma le3_trans a b c : le3 a b = true -> le3 b c = true -> le3 a c = true.
Proof. rewrite !le3_spec. lia. Qed.

Lemma ranking_keys_In entropy l : forall k key x,
  In (key, x) (ranking_keys entropy k l) ->
  In x l /\ fst key = (- snd (fst x), snd x).
Proof.
  induction l as [|y t IH]; intros k key x H; [destruct H|].
  cbn [ranking_keys] in H. destruct y as [[[[r c] d] n] nd].
  destruct H as [H|H].
  - inversion H; subst. split; [left; reflexivity | reflexivity].
  - apply IH in H. destruct H as [H1 H2]. split; [right; exact H1 | exact H2].
Qed.

Lemma ranking_keys_complete entropy l : forall k x,
  In x l -> exists key, In (key, x) (ranking_keys entropy k l).
Proof.
  induction l as [|y t IH]; intros k x H; [destruct H|].
  cbn [ranking_keys]. destruct y as [[[[r c] d] n] nd].
  destruct H as [<-|H].
  - eexists. left. reflexivity.
  - destruct (IH (S k) x H) as [key Hk]. exists key. right. exact Hk.
Qed.

(** What [find_best_placement] returns is a collected candidate that no
    other collected candidate precedes in the order of the sort key. *)
Lemma find_best_placement_first entropy self word found r c d s' :
  result (connected_placements self word) = Some found ->
  find_best_placement entropy self word = (Return (Some (r, c, d)), s') ->
  exists n nd, In (r, c, d, n, nd) found /\
    forall y, In y found -> ranked_before (r, c, d, n, nd) y.
Proof.
  unfold find_best_placement, connected_placements, lift. cbv zeta.
  intros Hf. rewrite Hf. destruct found as [|x0 l0]; [discriminate|].
  set (found := x0 :: l0) in *. clearbody found.
  unfold sort_by.
  destruct (fold_right (insert_by le3) [] (ranking_keys entropy (random_draws self) found))
    as [|[key [[[[r1 c1] d1] n] nd]] t] eqn:E; cbn [map snd]; [discriminate|].
  intros H. inversion H; subst r1 c1 d1 s'. exists n, nd.
  assert (Hhead : In (key, (r, c, d, n, nd))
                    (ranking_keys entropy (random_draws self) found)).
  { assert (Hin : In (key, (r, c, d, n, nd))
                    (fold_right (insert_by le3) []
                       (ranking_keys entropy (random_draws self) found)))
      by (rewrite E; left; reflexivity).
    clear - Hin. revert Hin.
    induction (ranking_keys entropy (random_draws self) found) as [|z t IH];
      cbn [fold_right]; [intros []|].
    intros Hin. apply insert_by_In in Hin. destruct Hin as [->|Hin];
      [left; reflexivity | right; apply IH; exact Hin]. }
  destruct (ranking_keys_In _ _ _ _ _ Hhead) as [Hin Hkey]. split; [exact Hin|].
  intros y Hy. destruct (@ranking_keys_complete entropy found (random_draws self) y Hy)
    as [ky Hky].
  pose proof (@sorted_head_least _ _ le3 le3_total le3_trans _ _ _ E _ Hky) as Hle.
  destruct (ranking_keys_In _ _ _ _ _ Hky) as [_ Hkey'].
  cbn [fst] in Hle. apply le3_spec in Hle. rewrite Hkey, Hkey' in Hle.
  destruct y as [[[[r' c'] d'] n'] nd']. cbn [fst snd ranked_before] in *. lia.
Qed.

Lemma find_best_placement_some entropy self word x found :
  result (connected_placements self word) = Some (x :: found) ->
  exists r c d s',
    find_best_placement entropy self word = (Return (Some (r, c, d)), s').
Proof.
  unfold find_best_placement, connected_placements, lift. cbv zeta.
  intros Hf. rewrite Hf.
  pose proof (sort_by_perm le3
                (ranking_keys entropy (random_draws self) (x :: found))) as Hp.
  destruct (sort_by le3 _) as [|[[[[r c] d] n] nd] t].
  - apply Permutation_nil in Hp. destruct x as [[[[? ?] ?] ?] ?]. discriminate.
  - eauto.
Qed.

(** C9: what the code does.  On the empty 5x5 board and the word A, every
    cell is a candidate with no intersection.  Whatever the random draws,
    [find_best_placement] returns a candidate at distance 4 from the centre,
    the largest there is, although the candidate at the centre, at distance
    0, has the same intersection count: the key holds the negated distance
    and the sort is ascending, so the farthest candidate comes first, not
    the closest one the comment in the source announces. *)
Theorem find_best_placement_prefers_farthest entropy :
  exists r c d s',
    find_best_placement entropy single_letter_engine ["A"%char]
    = (Return (Some (r, c, d)), s') /\
    collected single_letter_engine ["A"%char] (r, c, d, 0, -4) /\
    distance_to_center single_letter_engine ["A"%char] r c d = 4 /\
    collected single_letter_engine ["A"%char] (2, 2, across, 0, 0) /\
    distance_to_center single_letter_engine ["A"%char] 2 2 across = 0.
Proof.
  destruct (result (connected_placements single_letter_engine ["A"%char]))
    as [found|] eqn:Ef; [|vm_compute in Ef; discriminate].
  pose proof Ef as Ef0. vm_compute in Ef0. inversion Ef0; subst found. clear Ef0.
  destruct (@find_best_placement_some entropy _ _ _ _ Ef)
    as (r & c & d & s' & Hbest).
  destruct (@find_best_placement_first entropy _ _ _ r c d s' Ef Hbest)
    as (n & nd & Hin & Hmin).
  exists r, c, d, s'. split; [exact Hbest|].
  assert (Hcorner : ranked_before (r, c, d, n, nd) (0, 0, across, 0, -4)).
  { apply Hmin. left. reflexivity. }
  cbn [ranked_before] in Hcorner.
  assert (Hcentre : collected single_letter_engine ["A"%char] (2, 2, across, 0, 0)).
  { eexists. split; [exact Ef|]. cbn [In].
    repeat (first [left; reflexivity | right]). }
  assert (Hmine : collected single_letter_engine ["A"%char] (r, c, d, n, nd)).
  { eexists. split; [exact Ef | exact Hin]. }
  clear Hmin Ef Hbest. cbn [In] in Hin.
  repeat (destruct Hin as [Hin|Hin];
          [inversion Hin; subst r c d n nd;
           first [exfalso; lia
                 | split; [exact Hmine|]; split; [reflexivity|];
                   split; [exact Hcentre | reflexivity]] | ]).
  destruct Hin.
Qed.

(** * Further properties of the engine *)

(** ** Dictionary *)

Lemma str_eqb_eq a : forall b, str_eqb a b = true <-> a = b.
Proof.
  induction a as [|x a IH]; intros [|y b]; cbn [str_eqb];
    try (split; [discriminate | congruence]).
  - split; reflexivity.
  - rewrite andb_true_iff, Ascii.eqb_eq, IH. split.
    + intros [-> ->]. reflexivity.
    + intros H. inversion H. split; reflexivity.
Qed.

Lemma set_mem_In w s : set_mem w s = true <-> In w s.
Proof.
  unfold set_mem. rewrite existsb_exists. split.
  - intros (x & Hx & E). apply str_eqb_eq in E. subst x. exact Hx.
  - intros H. exists w. split; [exact H | apply str_eqb_eq; reflexivity].
Qed.

Lemma set_add_In w s v : In v (set_add w s) <-> v = w \/ In v s.
Proof.
  unfold set_add. destruct (set_mem w s) eqn:E.
  - apply set_mem_In in E. split; [auto|]. intros [->|H]; assumption.
  - cbn [In]. split; intros [H|H]; auto.
Qed.

(** X1.  After [insert(word)], [contains(v)] answers [True] exactly for the
    strings that were contained before and for those equal to [word] up to
    case: lookup is by whole word, never by prefix. *)
Theorem Trie_contains_insert t word v :
  Trie_contains (Trie_insert t word) v = true <->
  upper v = upper word \/ Trie_contains t v = true.
Proof.
  unfold Trie_contains, Trie_insert. cbn [all_words].
  rewrite !set_mem_In, set_add_In. reflexivity.
Qed.

Lemma fold_Trie_insert_In word_list : forall t v,
  In v (all_words (fold_left Trie_insert word_list t)) <->
  In v (all_words t) \/ exists w, In w word_list /\ v = upper w.
Proof.
  induction word_list as [|w ws IH]; intros t v; cbn [fold_left].
  - split; [auto|]. intros [H|(w & [] & _)]. exact H.
  - rewrite IH. unfold Trie_insert at 1. cbn [all_words]. rewrite set_add_In.
    split.
    + intros [[->|H]|(x & Hx & E)].
      * right. exists w. split; [left; reflexivity | reflexivity].
      * left. exact H.
      * right. exists x. split; [right; exact Hx | exact E].
    + intros [H|(x & [<-|Hx] & E)].
      * left. right. exact H.
      * left. left. exact E.
      * right. exists x. split; assumption.
Qed.

(** X2.  The dictionary the constructor builds contains exactly the input words,
    compared without regard to case. *)
Theorem constructor_dictionary entropy word_list size v :
  Trie_contains (trie (ScrabbleCrossword_init entropy word_list size)) v = true
  <-> exists w, In w word_list /\ upper v = upper w.
Proof.
  unfold ScrabbleCrossword_init, _shuffle_same_length_groups.
  destruct (shuffle_groups _ _ _ _) as [grouped k].
  cbn [trie with_random_draws with_words].
  unfold Trie_contains. rewrite set_mem_In, fold_Trie_insert_In.
  cbn [all_words Trie_new In]. split.
  - intros [[]|H]. exact H.
  - intros H. right. exact H.
Qed.

(** ** The constructor's word order *)

Section InsertionSort.

Variables (K A : Type) (le : K -> K -> bool).
Hypothesis le_total : forall a b, le a b = true \/ le b a = true.
Hypothesis le_trans : forall a b c, le a b = true -> le b c = true -> le a c = true.

Lemma insert_by_sorted (x : K * A) l :
  StronglySorted (fun a b => le (fst a) (fst b) = true) l ->
  StronglySorted (fun a b => le (fst a) (fst b) = true) (insert_by le x l).
Proof.
  induction 1 as [|y t Hs IH Hall]; cbn [insert_by].
  - constructor; constructor.
  - destruct (le (fst x) (fst y)) eqn:E.
    + constructor; [constructor; assumption|].
      constructor; [exact E|].
      eapply Forall_impl; [|exact Hall]. intros z Hz. cbn beta in *.
      eapply le_trans; eassumption.
    + constructor; [exact IH|].
      apply Forall_forall. intros z Hz. apply insert_by_In in Hz.
      destruct Hz as [->|Hz].
      * destruct (le_total (fst y) (fst x)) as [H|H]; [exact H | congruence].
      * rewrite Forall_forall in Hall. apply Hall. exact Hz.
Qed.

Lemma fold_insert_sorted (l : list (K * A)) :
  StronglySorted (fun a b => le (fst a) (fst b) = true)
    (fold_right (insert_by le) [] l).
Proof.
  induction l as [|x t IH]; cbn [fold_right]; [constructor|].
  apply insert_by_sorted. exact IH.
Qed.

End InsertionSort.

Lemma fold_insert_perm K A (le : K -> K -> bool) (l : list (K * A)) :
  Permutation (fold_right (insert_by le) [] l) l.
Proof.
  induction l as [|x t IH]; cbn [fold_right]; [apply Permutation_refl|].
  eapply perm_trans; [apply insert_by_perm | apply perm_skip, IH].
Qed.

Lemma geb_total (a b : Z) : (b <=? a) = true \/ (a <=? b) = true.
Proof. rewrite !Z.leb_le. lia. Qed.

Lemma geb_trans (a b c : Z) :
  (b <=? a) = true -> (c <=? b) = true -> (c <=? a) = true.
Proof. rewrite !Z.leb_le. lia. Qed.

Lemma keyed_sorted_lengths (sorted : list (Z * str)) :
  StronglySorted (fun a b => (fst b <=? fst a) = true) sorted ->
  Forall (fun kw => fst kw = len (snd kw)) sorted ->
  StronglySorted (fun x y => y <= x) (map (@len ascii) (map snd sorted)).
Proof.
  intros Hs Hkey.
  induction Hs as [|kw t Hs IH Hall]; cbn [map]; [constructor|].
  inversion Hkey as [|? ? Hk Hkt]; subst. constructor; [apply IH; exact Hkt|].
  rewrite Forall_map, Forall_map. rewrite Forall_forall in *.
  intros z Hz. specialize (Hall z Hz). pose proof (Hkt z Hz) as Hz'.
  cbn beta in *. apply Z.leb_le in Hall.
  apply Z.le_trans with (fst z); [apply Z.eq_le_incl; symmetry; exact Hz'|].
  apply Z.le_trans with (fst kw); [exact Hall | apply Z.eq_le_incl; exact Hk].
Qed.

Lemma sorted_by_len_desc_sorted word_list :
  StronglySorted (fun x y => y <= x) (map (@len ascii) (sorted_by_len_desc word_list)).
Proof.
  unfold sorted_by_len_desc, sort_by. apply keyed_sorted_lengths.
  - apply (@fold_insert_sorted Z str (fun a b => b <=? a) geb_total geb_trans).
  - eapply Permutation_Forall; [apply Permutation_sym, fold_insert_perm|].
    apply Forall_forall. intros kw Hin.
    apply in_map_iff in Hin. destruct Hin as (w & <- & _). reflexivity.
Qed.

Lemma groupby_uniform A (key : A -> Z) l :
  Forall (fun g => forall x y, In x g -> In y g -> key x = key y) (groupby key l).
Proof.
  induction l as [|x t IH]; cbn [groupby]; [constructor|].
  destruct (groupby key t) as [|[|y g] gs].
  - constructor; [|constructor]. intros a b [<-|[]] [<-|[]]. reflexivity.
  - inversion IH; subst. constructor; [|assumption].
    intros a b [<-|[]] [<-|[]]. reflexivity.
  - inversion IH as [|? ? Hg Hgs]; subst.
    destruct (key x =? key y) eqn:E.
    + apply Z.eqb_eq in E. constructor; [|exact Hgs].
      assert (Hx : forall z, In z (y :: g) -> key x = key z).
      { intros z Hz. rewrite E. apply Hg; [left; reflexivity | exact Hz]. }
      intros a b [<-|Ha] [<-|Hb].
      * reflexivity.
      * apply Hx. exact Hb.
      * symmetry. apply Hx. exact Ha.
      * apply Hg; assumption.
    + constructor; [|exact IH]. intros a b [<-|[]] [<-|[]]. reflexivity.
Qed.

Lemma uniform_perm_keys A (key : A -> Z) g g' :
  (forall x y, In x g -> In y g -> key x = key y) ->
  Permutation g' g -> map key g' = map key g.
Proof.
  intros Hu Hp.
  assert (Hall : forall l, (forall x, In x l -> In x g) ->
            forall k, (forall x, In x g -> key x = k) -> map key l = repeat k (length l)).
  { induction l as [|a l IH]; intros Hl k Hk; [reflexivity|].
    cbn [map length repeat]. rewrite (Hk a) by (apply Hl; left; reflexivity).
    rewrite (IH (fun x Hx => Hl x (or_intror Hx)) k Hk). reflexivity. }
  destruct g as [|a g0].
  - apply Permutation_sym, Permutation_nil in Hp. subst. reflexivity.
  - rewrite (Hall g' (fun x Hx => Permutation_in x Hp Hx) (key a)),
            (Hall (a :: g0) (fun x Hx => Hx) (key a)).
    + rewrite (Permutation_length Hp). reflexivity.
    + intros x Hx. apply Hu; [exact Hx | left; reflexivity].
    + intros x Hx. apply Hu; [exact Hx | left; reflexivity].
Qed.

Lemma shuffle_groups_keys entropy (key : str -> Z) groups : forall grouped k,
  Forall (fun g => forall x y, In x g -> In y g -> key x = key y) groups ->
  map key (fst (shuffle_groups entropy groups grouped k))
  = map key grouped ++ map key (concat groups).
Proof.
  induction groups as [|g gs IH]; intros grouped k Hu; cbn [shuffle_groups concat].
  - cbn. rewrite app_nil_r. reflexivity.
  - inversion Hu as [|? ? Hg Hgs]; subst.
    pose proof (shuffle_loop_perm entropy (length g - 1) g k) as Hp.
    unfold shuffle. destruct (shuffle_loop entropy (length g - 1) g k) as [g' k'].
    cbn [fst] in Hp. rewrite IH by exact Hgs.
    rewrite !map_app, <- app_assoc. f_equal. f_equal.
    apply uniform_perm_keys; assumption.
Qed.

(** X3.  The constructor keeps every input word, with its multiplicity, and
    orders [self.words] by non-increasing length: the shuffle only permutes
    words of equal length. *)
Theorem constructor_orders_words_by_length entropy word_list size :
  Permutation (words (ScrabbleCrossword_init entropy word_list size)) word_list /\
  StronglySorted (fun x y => y <= x)
    (map (@len ascii) (words (ScrabbleCrossword_init entropy word_list size))).
Proof.
  split; [apply init_words_perm|].
  unfold ScrabbleCrossword_init, _shuffle_same_length_groups.
  cbn [words random_draws].
  pose proof (@shuffle_groups_keys entropy (@len ascii)
                (groupby (@len ascii) (sorted_by_len_desc word_list)) [] 0
                (groupby_uniform _ _)) as Hk.
  destruct (shuffle_groups entropy _ [] 0) as [grouped k].
  cbn [fst map app] in Hk. cbn [words with_words with_random_draws].
  rewrite groupby_concat in Hk.
  exact (eq_ind_r (StronglySorted (fun x y => y <= x))
           (sorted_by_len_desc_sorted word_list) Hk).
Qed.

(** ** The board: construction and writes *)

Lemma len_range n : 0 <= n -> len (range n) = n.
Proof. intros H. unfold len, range. rewrite length_map, length_seq. lia. Qed.

Lemma empty_grid_well_formed self :
  0 <= grid_size self -> grid self = empty_grid (grid_size self) ->
  well_formed self.
Proof.
  intros Hn Hg. unfold well_formed. rewrite Hg. unfold empty_grid. split.
  - unfold len. rewrite length_map. apply len_range. exact Hn.
  - apply Forall_forall. intros line Hl. apply in_map_iff in Hl.
    destruct Hl as (_ & <- & _). unfold len. rewrite length_map.
    apply len_range. exact Hn.
Qed.

Lemma empty_grid_cell self p :
  grid self = empty_grid (grid_size self) -> in_board self p ->
  at_cell self p = Some SPACE.
Proof.
  intros Hg Hin.
  assert (Hn : 0 <= grid_size self) by (destruct Hin as [[? ?] _]; lia).
  destruct (@cell_in_board self p (@empty_grid_well_formed self Hn Hg) Hin) as [ch Hch].
  rewrite Hch. f_equal. unfold at_cell, cell in Hch. rewrite Hg in Hch.
  destruct (py_index (empty_grid (grid_size self)) (fst p)) as [line|] eqn:El;
    [|discriminate].
  apply py_index_In in Hch.
  destruct (@empty_grid_cells (fun _ => False) (grid_size self) line ch
              (@py_index_In _ _ _ _ El) Hch) as [H|[]].
  exact H.
Qed.

(** X4.  [clear_grid] gives a well-formed board of the configured size, every
    cell empty and nothing recorded, whatever was on the board; the
    constructor's board is the same. *)
Theorem clear_grid_gives_empty_board self :
  0 <= grid_size self ->
  well_formed (clear_grid self) /\ fresh (clear_grid self) /\
  (forall p, in_board (clear_grid self) p ->
             at_cell (clear_grid self) p = Some SPACE) /\
  words (clear_grid self) = words self /\ trie (clear_grid self) = trie self.
Proof.
  intros Hn. split; [|split; [|split; [|split]]]; try reflexivity.
  - apply empty_grid_well_formed; [exact Hn | reflexivity].
  - split; reflexivity.
  - intros p Hp. apply empty_grid_cell; [reflexivity | exact Hp].
Qed.

Lemma clear_grid_gives_empty_board_witness :
  well_formed (clear_grid corner_engine) /\ fresh (clear_grid corner_engine) /\
  (forall p, in_board (clear_grid corner_engine) p ->
             at_cell (clear_grid corner_engine) p = Some SPACE) /\
  words (clear_grid corner_engine) = words corner_engine /\
  trie (clear_grid corner_engine) = trie corner_engine.
Proof.
  apply (@clear_grid_gives_empty_board corner_engine).
  change (grid_size corner_engine) with 3. lia.
Defined.

Lemma list_set_length A (l : list A) : forall k v l',
  list_set l k v = Some l' -> length l' = length l.
Proof.
  induction l as [|h t IH]; intros k v l' H; [discriminate|].
  destruct k as [|k]; cbn [list_set] in H.
  - inversion H; reflexivity.
  - destruct (list_set t k v) as [t'|] eqn:E; [|discriminate].
    inversion H; subst. cbn [length]. f_equal. eapply IH; exact E.
Qed.

Lemma list_set_some A (l : list A) : forall k v,
  (k < length l)%nat -> exists l', list_set l k v = Some l'.
Proof.
  induction l as [|h t IH]; intros k v Hk; [cbn in Hk; lia|].
  destruct k as [|k]; cbn [list_set]; [eauto|].
  destruct (IH k v) as [t' Ht]; [cbn in Hk; lia|]. rewrite Ht. eauto.
Qed.

Lemma grid_set_in_board self r c v :
  well_formed self -> in_board self (r, c) ->
  exists g',
    grid_set (grid self) r c v = Some g' /\
    well_formed (with_grid self g') /\
    cell g' r c = Some v /\
    (forall r' c', in_board self (r', c') -> (r', c') <> (r, c) ->
                   cell g' r' c' = cell (grid self) r' c').
Proof.
  intros [Hrows Hcols] [Hr Hc]. cbn [fst snd] in Hr, Hc.
  unfold grid_set, py_setitem, cell.
  rewrite !py_index_nonneg by lia.
  destruct (nth_error (grid self) (Z.to_nat r)) as [line|] eqn:El.
  2:{ apply nth_error_None in El. unfold len in Hrows. lia. }
  assert (Hline : len line = grid_size self).
  { rewrite Forall_forall in Hcols. apply Hcols. eapply nth_error_In; exact El. }
  destruct (0 <=? c) eqn:E0; [|lia]. destruct (0 <=? r) eqn:E1; [|lia].
  destruct (@list_set_some _ line (Z.to_nat c) v) as [line' Hl'];
    [unfold len in Hline; lia|].
  destruct (@list_set_some _ (grid self) (Z.to_nat r) line') as [g' Hg'];
    [unfold len in Hrows; lia|].
  rewrite Hl', Hg'. exists g'. split; [reflexivity|].
  pose proof (@list_set_nth_error _ _ _ _ _ (Z.to_nat r) Hg') as Hrr.
  rewrite Nat.eqb_refl in Hrr.
  split; [|split].
  - split; cbn [grid with_grid grid_size].
    + unfold len. rewrite (@list_set_length _ _ _ _ _ Hg'). exact Hrows.
    + apply Forall_forall. intros x Hx.
      destruct (@list_set_In _ _ _ _ _ _ Hg' Hx) as [->|Hin].
      * unfold len. rewrite (@list_set_length _ _ _ _ _ Hl'). exact Hline.
      * rewrite Forall_forall in Hcols. apply Hcols. exact Hin.
  - rewrite py_index_nonneg by lia. rewrite Hrr.
    rewrite py_index_nonneg by lia.
    rewrite (@list_set_nth_error _ _ _ _ _ (Z.to_nat c) Hl'), Nat.eqb_refl.
    reflexivity.
  - intros r' c' [Hr' Hc'] Hne. cbn [fst snd] in Hr', Hc'.
    rewrite !py_index_nonneg by lia.
    rewrite (@list_set_nth_error _ _ _ _ _ (Z.to_nat r') Hg').
    destruct (Nat.eqb (Z.to_nat r') (Z.to_nat r)) eqn:Er.
    + apply Nat.eqb_eq in Er. assert (r' = r) by lia. subst r'.
      rewrite El. rewrite !py_index_nonneg by lia.
      rewrite (@list_set_nth_error _ _ _ _ _ (Z.to_nat c') Hl').
      destruct (Nat.eqb (Z.to_nat c') (Z.to_nat c)) eqn:Ec; [|reflexivity].
      apply Nat.eqb_eq in Ec. assert (c' = c) by lia. subst c'. congruence.
    + reflexivity.
Qed.

Lemma position_inj row col d a b :
  position row col d a = position row col d b -> a = b.
Proof. destruct d; cbn [position]; intros H; inversion H; lia. Qed.

Lemma on_span_dec row col d L (p : Z * Z) :
  (exists k, 0 <= k < L /\ p = position row col d k) \/
  (forall k, 0 <= k < L -> p <> position row col d k).
Proof.
  destruct p as [r c]. destruct d; cbn [position].
  - destruct (Z.eq_dec r row) as [->|Hr].
    + destruct (Z_le_dec col c) as [H1|H1].
      * destruct (Z_lt_dec c (col + L)) as [H2|H2].
        -- left. exists (c - col). split; [lia|]. f_equal. lia.
        -- right. intros k Hk E. inversion E. lia.
      * right. intros k Hk E. inversion E. lia.
    + right. intros k Hk E. inversion E. congruence.
  - destruct (Z.eq_dec c col) as [->|Hc].
    + destruct (Z_le_dec row r) as [H1|H1].
      * destruct (Z_lt_dec r (row + L)) as [H2|H2].
        -- left. exists (r - row). split; [lia|]. f_equal. lia.
        -- right. intros k Hk E. inversion E. lia.
      * right. intros k Hk E. inversion E. lia.
    + right. intros k Hk E. inversion E. congruence.
Qed.

Lemma write_letters_spec row col d chars : forall self i,
  well_formed self ->
  (forall k, 0 <= k < len chars -> in_board self (position row col d (i + k))) ->
  exists g',
    write_letters (grid self) row col d i chars = (Return tt, g') /\
    well_formed (with_grid self g') /\
    (forall k ch, nth_error chars k = Some ch ->
       at_cell (with_grid self g') (position row col d (i + Z.of_nat k)) = Some ch) /\
    (forall p, in_board self p ->
       (forall k, 0 <= k < len chars -> p <> position row col d (i + k)) ->
       at_cell (with_grid self g') p = at_cell self p).
Proof.
  induction chars as [|char rest IH]; intros self i Hwf Hin; cbn [write_letters].
  - exists (grid self). split; [reflexivity|]. split; [destruct self; exact Hwf|].
    split; [intros k ch H; destruct k; discriminate|]. intros p _ _. reflexivity.
  - assert (Hin0 : in_board self (position row col d i)).
    { replace i with (i + 0) by lia. apply Hin. rewrite len_cons.
      pose proof (len_nonneg rest). lia. }
    destruct (position row col d i) as [r c] eqn:Ep.
    destruct (@grid_set_in_board self r c char Hwf Hin0)
      as (g1 & Hset & Hwf1 & Hhere & Hother).
    rewrite Hset.
    destruct (IH (with_grid self g1) (i + 1) Hwf1) as (g' & Hw & Hwf' & Hlet & Hrest).
    { intros k Hk. replace (i + 1 + k) with (i + (k + 1)) by lia.
      apply Hin. rewrite len_cons. lia. }
    cbn [grid with_grid] in Hw. exists g'. split; [exact Hw|].
    split; [exact Hwf'|]. split.
    + intros k ch Hk. destruct k as [|k].
      * inversion Hk; subst ch. replace (i + Z.of_nat 0) with i by lia.
        rewrite Ep.
        transitivity (at_cell (with_grid self g1) (r, c)); [|exact Hhere].
        apply (Hrest (r, c) Hin0). intros k Hk' E. rewrite <- Ep in E.
        apply position_inj in E. lia.
      * replace (i + Z.of_nat (S k)) with (i + 1 + Z.of_nat k) by lia.
        apply (Hlet k ch Hk).
    + intros p Hp Hne.
      transitivity (at_cell (with_grid self g1) p).
      * apply (Hrest p Hp). intros k Hk.
        replace (i + 1 + k) with (i + (k + 1)) by lia. apply Hne.
        rewrite len_cons. lia.
      * destruct p as [r' c']. apply (Hother r' c' Hp). rewrite <- Ep.
        replace i with (i + 0) at 1 by lia. apply Hne. rewrite len_cons.
        pose proof (len_nonneg rest). lia.
Qed.

Lemma place_word_effect self word row col d :
  well_formed self -> covered_in_board self (upper word) row col d ->
  exists s',
    place_word self word row col d = (Return tt, s') /\
    well_formed s' /\
    placed_words s' = placed_words self ++ [(upper word, row, col, d)] /\
    (forall k ch, nth_error (upper word) k = Some ch ->
       at_cell s' (position row col d (Z.of_nat k)) = Some ch) /\
    (forall p, in_board self p ->
       (forall k, 0 <= k < len (upper word) -> p <> position row col d k) ->
       at_cell s' p = at_cell self p).
Proof.
  intros Hwf Hcov.
  destruct (@write_letters_spec row col d (upper word) self 0 Hwf)
    as (g' & Hw & Hwf' & Hlet & Hrest).
  { intros k Hk. cbn [Z.add]. apply Hcov. exact Hk. }
  unfold place_word. cbv zeta. rewrite Hw. eexists. split; [reflexivity|].
  split; [exact Hwf'|]. split; [reflexivity|]. split.
  - intros k ch Hk. apply (Hlet k ch Hk).
  - intros p Hp Hne. apply (Hrest p Hp). intros k Hk. cbn [Z.add]. apply Hne. exact Hk.
Qed.

(** X5.  On a well-formed board, [place_word] at a placement whose cells all lie
    on the board returns normally: it records the uppercased word, leaves
    the board well-formed, each covered cell then holds the word's letter
    and every other cell is unchanged. *)
Theorem place_word_writes_the_word self word row col d :
  well_formed self -> covered_in_board self (upper word) row col d ->
  exists s',
    place_word self word row col d = (Return tt, s') /\
    well_formed s' /\
    placed_words s' = placed_words self ++ [(upper word, row, col, d)] /\
    (forall k ch, nth_error (upper word) k = Some ch ->
       at_cell s' (position row col d (Z.of_nat k)) = Some ch) /\
    (forall p, in_board self p ->
       (forall k, 0 <= k < len (upper word) -> p <> position row col d k) ->
       at_cell s' p = at_cell self p).
Proof. exact (@place_word_effect self word row col d). Qed.

Lemma place_word_writes_the_word_witness :
  exists s',
    place_word corner_engine ["a"; "b"]%char 1 1 across = (Return tt, s') /\
    well_formed s' /\
    placed_words s'
    = placed_words corner_engine ++ [(upper ["a"; "b"]%char, 1, 1, across)] /\
    (forall k ch, nth_error (upper ["a"; "b"]%char) k = Some ch ->
       at_cell s' (position 1 1 across (Z.of_nat k)) = Some ch) /\
    (forall p, in_board corner_engine p ->
       (forall k, 0 <= k < len (upper ["a"; "b"]%char) ->
                  p <> position 1 1 across k) ->
       at_cell s' p = at_cell corner_engine p).
Proof.
  apply (@place_word_writes_the_word corner_engine ["a"; "b"]%char 1 1 across).
  - split; [reflexivity|]. vm_compute. repeat constructor.
  - intros k Hk. change (len (upper ["a"; "b"]%char)) with 2 in Hk.
    unfold in_board. change (grid_size corner_engine) with 3.
    cbn [position fst snd]. lia.
Defined.

(** ** Validated placements *)

Lemma accepted_placement_effect self word row col d :
  well_formed self -> in_board self (row, col) ->
  result (can_place_word_scrabble self word row col d) = Some true ->
  exists s',
    place_word self word row col d = (Return tt, s') /\
    well_formed s' /\
    (forall p ch, in_board self p -> at_cell self p = Some ch -> ch <> SPACE ->
                  at_cell s' p = Some ch).
Proof.
  intros Hwf Hin Hok.
  destruct (@can_place_word_scrabble_spec self word row col d Hwf Hin)
    as [b [Hb Hiff]].
  rewrite Hb in Hok. inversion Hok; subst b.
  destruct Hiff as [Hiff _]. destruct (Hiff eq_refl) as (Hfit & Hnc & _).
  pose proof (@span_covered self (upper word) row col d Hin Hfit) as Hcov.
  destruct (@place_word_effect self word row col d Hwf Hcov)
    as (s' & Hp & Hwf' & _ & Hlet & Hrest).
  exists s'. split; [exact Hp|]. split; [exact Hwf'|].
  intros p ch Hpin Hch Hsp.
  destruct (@on_span_dec row col d (len (upper word)) p) as [(k & Hk & ->)|Hoff].
  - destruct (nth_error (upper word) (Z.to_nat k)) as [letter|] eqn:El.
    2:{ apply nth_error_None in El. unfold len in Hk. lia. }
    pose proof (Hlet _ _ El) as Hnew. destruct (Hnc _ _ El) as (cur & Hcur & Hor).
    rewrite Z2Nat.id in Hnew, Hcur by lia.
    rewrite Hch in Hcur. inversion Hcur; subst cur.
    destruct Hor as [->| ->]; [congruence | exact Hnew].
  - rewrite (Hrest p Hpin Hoff). exact Hch.
Qed.

(** X7.  No silent overwrite: a placement the validator accepts can be placed
    without error, and placing it leaves every letter already on the board
    as it was. *)
Theorem validated_placement_keeps_letters self word row col d :
  well_formed self -> in_board self (row, col) ->
  result (can_place_word_scrabble self word row col d) = Some true ->
  exists s',
    place_word self word row col d = (Return tt, s') /\
    well_formed s' /\
    (forall p ch, in_board self p -> at_cell self p = Some ch -> ch <> SPACE ->
                  at_cell s' p = Some ch).
Proof. exact (@accepted_placement_effect self word row col d). Qed.

Lemma validated_placement_keeps_letters_witness :
  exists s',
    place_word corner_engine ["a"%char] 2 0 across = (Return tt, s') /\
    well_formed s' /\
    (forall p ch, in_board corner_engine p -> at_cell corner_engine p = Some ch ->
                  ch <> SPACE -> at_cell s' p = Some ch).
Proof.
  apply (@validated_placement_keeps_letters corner_engine ["a"%char] 2 0 across).
  - split; [reflexivity|]. vm_compute. repeat constructor.
  - unfold in_board. change (grid_size corner_engine) with 3. cbn [fst snd]. lia.
  - vm_compute. reflexivity.
Defined.

Lemma classic_in_board self p : in_board self p \/ ~ in_board self p.
Proof. unfold in_board. lia. Qed.

Lemma build_perpendicular_word_alone self row col d :
  well_formed self -> in_board self (row, col) ->
  ends_run (along self row col d) (grid_size self) (coordinate row col d - 1) ->
  ends_run (along self row col d) (grid_size self) (coordinate row col d + 1) ->
  result (build_perpendicular_word self row col d) = Some [PLACEHOLDER].
Proof.
  intros Hwf [Hr Hc] E1 E2. simpl in Hr, Hc.
  destruct d; unfold build_perpendicular_word, along, coordinate in *; cbv zeta.
  - destruct (@perpendicular_scan (fun r => read (grid self) r col)
                (grid_size self) row Hr) as (pre & post & H).
    { intros j Hj. apply (@cell_in_board self (j, col) Hwf). split; simpl; lia. }
    destruct H as (H1 & _ & _ & _ & _ & _ & _ & H8).
    destruct (H8 E1 E2) as [-> ->]. exact H1.
  - destruct (@perpendicular_scan (fun c => read (grid self) row c)
                (grid_size self) col Hc) as (pre & post & H).
    { intros j Hj. apply (@cell_in_board self (row, j) Hwf). split; simpl; lia. }
    destruct H as (H1 & _ & _ & _ & _ & _ & _ & H8).
    destruct (H8 E1 E2) as [-> ->]. exact H1.
Qed.

Lemma empty_board_ends_run self row col d j :
  grid self = empty_grid (grid_size self) -> in_board self (row, col) ->
  ends_run (along self row col d) (grid_size self) j.
Proof.
  intros Hg [Hr Hc]. cbn [fst snd] in *. unfold ends_run.
  destruct (Z_lt_dec j 0) as [|H0]; [left; assumption|].
  destruct (Z_le_dec (grid_size self) j) as [|H1]; [right; left; assumption|].
  right. right. destruct d; cbn [along].
  - apply (@empty_grid_cell self (j, col) Hg). split; cbn [fst snd]; lia.
  - apply (@empty_grid_cell self (row, j) Hg). split; cbn [fst snd]; lia.
Qed.

(** X8.  On an empty board the validator accepts every placement that starts on
    the board and fits: whatever the word and the dictionary, the answer is
    [True] exactly when the span fits. *)
Theorem empty_board_accepts_what_fits self word row col d :
  grid self = empty_grid (grid_size self) -> in_board self (row, col) ->
  exists b,
    result (can_place_word_scrabble self word row col d) = Some b /\
    (b = true <-> span_fits self (upper word) row col d).
Proof.
  intros Hg Hin.
  assert (Hn : 0 <= grid_size self) by (destruct Hin as [[? ?] _]; lia).
  pose proof (@empty_grid_well_formed self Hn Hg) as Hwf.
  destruct (@can_place_word_scrabble_spec self word row col d Hwf Hin)
    as [b [Hb Hiff]].
  exists b. split; [exact Hb|]. rewrite Hiff. split; [tauto|]. intros Hfit.
  pose proof (@span_covered self (upper word) row col d Hin Hfit) as Hcov.
  assert (Hpos : forall k ch, nth_error (upper word) k = Some ch ->
            in_board self (position row col d (Z.of_nat k))).
  { intros k ch Hk. apply Hcov. split; [lia|].
    assert (k < length (upper word))%nat by (apply nth_error_Some; congruence).
    unfold len. lia. }
  split; [exact Hfit|]. split; [|split].
  - intros k ch Hk. exists SPACE. split; [|left; reflexivity].
    apply (@empty_grid_cell self _ Hg). eapply Hpos; exact Hk.
  - intros k ch Hk _. exists [PLACEHOLDER]. split; [|left; reflexivity].
    pose proof (Hpos k ch Hk) as Hp.
    destruct (position row col d (Z.of_nat k)) as [r c]. cbn [fst snd].
    apply (@build_perpendicular_word_alone self r c d Hwf Hp);
      apply (@empty_board_ends_run self r c d _ Hg Hp).
  - split.
    + destruct (classic_in_board self (position row col d (-1))) as [H|H];
        [right; apply (@empty_grid_cell self _ Hg H) | left; exact H].
    + destruct (classic_in_board self (position row col d (len (upper word))))
        as [H|H];
        [right; apply (@empty_grid_cell self _ Hg H) | left; exact H].
Qed.

Lemma empty_board_accepts_what_fits_witness :
  exists b,
    result (can_place_word_scrabble example_engine ["q"; "i"]%char 4 3 across)
    = Some b /\
    (b = true <-> span_fits example_engine (upper ["q"; "i"]%char) 4 3 across).
Proof.
  apply (@empty_board_accepts_what_fits example_engine ["q"; "i"]%char 4 3 across).
  - vm_compute. reflexivity.
  - unfold in_board. change (grid_size example_engine) with 5. cbn [fst snd]. lia.
Defined.

(** ** The search on a well-formed board *)

Lemma place_word_start_time self word row col d o self' :
  place_word self word row col d = (o, self') ->
  start_time self' = start_time self.
Proof.
  unfold place_word. cbv zeta.
  destruct (write_letters (grid self) row col d 0 (upper word)) as [[[]|e] g];
    intros H; inversion H; subst; reflexivity.
Qed.

Lemma place_word_on_board self word row col d :
  well_formed self -> covered_in_board self (upper word) row col d ->
  exists s', place_word self word row col d = (Return tt, s') /\ well_formed s'.
Proof.
  intros Hwf Hcov.
  destruct (@write_letters_spec row col d (upper word) self 0 Hwf)
    as (g' & Hw & Hwf' & _).
  { intros k Hk. cbn [Z.add]. apply Hcov. exact Hk. }
  unfold place_word. cbv zeta. rewrite Hw. eexists. split; [reflexivity|].
  exact Hwf'.
Qed.

Lemma range_In n x : In x (range n) -> 0 <= x < n.
Proof.
  unfold range. intros H. apply in_map_iff in H. destruct H as (k & <- & Hk).
  apply in_seq in Hk. lia.
Qed.

Lemma all_positions_in_board self row col d :
  In (row, col, d) (all_positions (grid_size self)) -> in_board self (row, col).
Proof.
  unfold all_positions. intros H. apply in_flat_map in H.
  destruct H as (r & Hr & H). apply in_flat_map in H. destruct H as (c & Hc & H).
  apply range_In in Hr, Hc.
  destruct H as [H|[H|[]]]; inversion H; subst; split; cbn [fst snd]; lia.
Qed.

Lemma count_intersections_total self row col d chars : forall i n,
  well_formed self ->
  (forall k, 0 <= k < len chars -> in_board self (position row col d (i + k))) ->
  exists m, result (count_intersections (grid self) row col d i chars n) = Some m.
Proof.
  induction chars as [|char rest IH]; intros i n Hwf Hin; cbn [count_intersections].
  - eexists. reflexivity.
  - assert (Hin0 : in_board self (position row col d i)).
    { replace i with (i + 0) by lia. apply Hin. rewrite len_cons.
      pose proof (len_nonneg rest). lia. }
    destruct (@cell_in_board self _ Hwf Hin0) as [here Hhere]. unfold at_cell in Hhere.
    destruct (position row col d i) as [r c]. cbn [fst snd] in Hhere.
    rewrite result_bind, result_read, Hhere. apply IH; [exact Hwf|].
    intros k Hk. replace (i + 1 + k) with (i + (k + 1)) by lia.
    apply Hin. rewrite len_cons. lia.
Qed.

Lemma has_connection_to_existing_total self word row col d :
  well_formed self -> covered_in_board self (upper word) row col d ->
  exists b, result (has_connection_to_existing self word row col d) = Some b.
Proof.
  intros Hwf Hcov. unfold has_connection_to_existing.
  destruct (len (placed_words self) =? 0); [eexists; reflexivity|].
  destruct (@connection_scan_spec self row col d (upper word) 0 Hwf) as [b [Hb _]].
  { intros k Hk. cbn [Z.add]. apply Hcov. exact Hk. }
  exists b. exact Hb.
Qed.

Lemma consider_total self word acc row col d :
  well_formed self -> in_board self (row, col) ->
  Forall (candidate_on_board self word) acc ->
  exists acc',
    result (consider self word acc (row, col, d)) = Some acc' /\
    Forall (candidate_on_board self word) acc'.
Proof.
  intros Hwf Hin Hacc. unfold consider.
  destruct (@can_place_word_scrabble_spec self word row col d Hwf Hin)
    as [ok [Hok Hiff]].
  rewrite result_bind, Hok.
  destruct ok; [|exists acc; split; [reflexivity | exact Hacc]].
  destruct Hiff as [Hiff _]. destruct (Hiff eq_refl) as (Hfit & _).
  pose proof (@span_covered self (upper word) row col d Hin Hfit) as Hcov.
  destruct (@has_connection_to_existing_total self word row col d Hwf Hcov)
    as [conn Hconn].
  rewrite result_bind, Hconn.
  destruct conn; [|exists acc; split; [reflexivity | exact Hacc]].
  destruct (@count_intersections_total self row col d word 0 0 Hwf) as [n Hn].
  { intros k Hk. cbn [Z.add]. apply Hcov. rewrite len_upper. exact Hk. }
  rewrite result_bind, Hn. eexists. split; [reflexivity|].
  apply Forall_app. split; [exact Hacc|]. constructor; [exact Hcov|constructor].
Qed.

Lemma for_each_total A B (P : B -> Prop) (f : B -> A -> run B) l : forall acc,
  (forall acc x, In x l -> P acc ->
     exists acc', result (f acc x) = Some acc' /\ P acc') ->
  P acc ->
  exists r, result (for_each f l acc) = Some r /\ P r.
Proof.
  induction l as [|x t IH]; intros acc Hf Hacc; cbn [for_each].
  - exists acc. split; [reflexivity | exact Hacc].
  - destruct (Hf acc x (or_introl eq_refl) Hacc) as [acc' [Hr Hacc']].
    rewrite result_bind, Hr. apply IH; [|exact Hacc'].
    intros a y Hy. apply Hf. right. exact Hy.
Qed.

Lemma valid_placements_total self word :
  well_formed self ->
  exists found,
    result (valid_placements self word) = Some found /\
    Forall (candidate_on_board self word) found.
Proof.
  intros Hwf. unfold valid_placements. apply for_each_total; [|constructor].
  intros acc [[row col] d] Hx Hacc.
  apply consider_total; [exact Hwf | | exact Hacc].
  apply all_positions_in_board with (d := d). exact Hx.
Qed.

Lemma solver_keys_snd entropy l : forall k, map snd (solver_keys entropy k l) = l.
Proof.
  induction l as [|x t IH]; intros k; cbn [solver_keys map snd]; [reflexivity|].
  rewrite IH. reflexivity.
Qed.

Lemma candidate_on_board_size s1 s2 word x :
  grid_size s1 = grid_size s2 ->
  candidate_on_board s1 word x -> candidate_on_board s2 word x.
Proof.
  intros E. destruct x as [[[row col] d] n]. unfold candidate_on_board,
    covered_in_board, in_board. rewrite E. auto.
Qed.

Section SearchTotal.

Variable clock : nat -> Q.
Variable entropy : nat -> Z.
Variable size : Z.
Variable ws : list str.

Lemma try_placements_total solve_rest word :
  (forall s, ready size ws s ->
     exists b s', solve_rest s = (Return b, s') /\ ready size ws s') ->
  forall cands self,
    ready size ws self ->
    Forall (candidate_on_board self word) cands ->
    exists b s',
      try_placements solve_rest word cands self = (Return b, s') /\
      ready size ws s'.
Proof.
  intros Hsolve. induction cands as [|[[[row col] d] n] rest IH];
    intros self Hready Hc; cbn [try_placements].
  - exists false, self. split; [reflexivity | exact Hready].
  - cbv zeta. inversion Hc as [|? ? Hx Hrest]; subst.
    destruct Hready as (Hwf & Hst & Hws & Hsz).
    destruct (@place_word_on_board self word row col d Hwf Hx) as (s1 & Hp & Hwf1).
    rewrite Hp.
    destruct (@place_word_frame _ _ _ _ _ _ _ Hp) as [F1 F2].
    pose proof (@place_word_start_time _ _ _ _ _ _ _ Hp) as F3.
    destruct (Hsolve s1) as (b & s2 & Hs & Hr2).
    { split; [exact Hwf1|]. split; [congruence|]. split; congruence. }
    rewrite Hs. destruct b; [exists true, s2; split; [reflexivity | exact Hr2]|].
    destruct Hr2 as (_ & Hst2 & Hws2 & Hsz2). apply IH.
    + split; [|split; [|split]]; cbn; try assumption.
      destruct Hwf as [H1 H2]. split; cbn; rewrite Hsz2, <- Hsz; assumption.
    + eapply Forall_impl; [|exact Hrest]. intros x.
      apply candidate_on_board_size. cbn. congruence.
Qed.

Lemma backtrack_from_total n : forall s,
  ready size ws s -> (n <= length ws)%nat ->
  exists b s', backtrack_from clock entropy n s = (Return b, s') /\ ready size ws s'.
Proof.
  induction n as [|k IH]; intros s Hready Hn; rewrite backtrack_from_eq;
    destruct Hready as (Hwf & Hst & Hws & Hsz);
    unfold timed_out; cbv zeta; cbn [start_time with_clock_reads];
    destruct (start_time s) as [t0|] eqn:Et; try congruence;
    assert (Hr1 : ready size ws (with_clock_reads s (S (clock_reads s))))
      by (split; [destruct Hwf; split; assumption|];
          split; [cbn; congruence|]; split; assumption);
    destruct (negb _); eauto.
  cbn [words with_clock_reads]. rewrite Hws.
  rewrite py_index_nonneg by (unfold len; lia).
  destruct (nth_error ws (Z.to_nat (len ws - Z.of_nat (S k)))) as [word|] eqn:Ew.
  2:{ apply nth_error_None in Ew. unfold len in Ew. lia. }
  destruct (@valid_placements_total (with_clock_reads s (S (clock_reads s))) word)
    as (found & Hf & Hall); [destruct Hwf; split; assumption|].
  unfold lift. rewrite Hf.
  apply try_placements_total.
  - intros s1 Hs1. apply IH; [exact Hs1 | lia].
  - destruct Hr1 as (H1 & H2 & H3 & H4). split; [|split; [|split]]; assumption.
  - eapply Permutation_Forall.
    + apply Permutation_sym. eapply perm_trans; [apply sort_by_perm|].
      rewrite solver_keys_snd. apply Permutation_refl.
    + eapply Forall_impl; [|exact Hall]. intros x.
      apply candidate_on_board_size. reflexivity.
Qed.

End SearchTotal.

(** ** A word that cannot fit *)

Lemma consider_oversized self word acc row col d :
  in_board self (row, col) -> grid_size self < len word ->
  result (consider self word acc (row, col, d)) = Some acc.
Proof.
  intros [Hr Hc] Hlong. cbn [fst snd] in *. unfold consider, can_place_word_scrabble.
  cbv zeta.
  assert (Hout : out_of_span self (upper word) row col d = true).
  { unfold out_of_span. rewrite len_upper. destruct d; apply Z.gtb_lt; lia. }
  rewrite Hout. reflexivity.
Qed.

Lemma for_each_unchanged A B (f : B -> A -> run B) l acc :
  (forall x, In x l -> result (f acc x) = Some acc) ->
  result (for_each f l acc) = Some acc.
Proof.
  induction l as [|x t IH]; intros Hf; cbn [for_each]; [reflexivity|].
  rewrite result_bind, (Hf x (or_introl eq_refl)). apply IH.
  intros y Hy. apply Hf. right. exact Hy.
Qed.

Lemma valid_placements_oversized self word :
  grid_size self < len word -> result (valid_placements self word) = Some [].
Proof.
  intros Hlong. unfold valid_placements. apply for_each_unchanged.
  intros [[row col] d] Hx. apply consider_oversized; [|exact Hlong].
  apply all_positions_in_board with (d := d). exact Hx.
Qed.

Section Oversized.

Variable clock : nat -> Q.
Variable entropy : nat -> Z.
Variable size : Z.
Variable ws : list str.

Lemma try_placements_not_true solve_rest word :
  In word ws ->
  (forall s b s', preserved (fun _ _ => True) size ws s ->
     solve_rest s = (Return b, s') ->
     b = false /\ preserved (fun _ _ => True) size ws s') ->
  forall cands self s',
    preserved (fun _ _ => True) size ws self ->
    try_placements solve_rest word cands self <> (Return true, s').
Proof.
  intros Hword Hsolve. induction cands as [|[[[row col] d] n] rest IH];
    intros self s' Hk H; cbn [try_placements] in H; [discriminate|].
  cbv zeta in H.
  destruct (place_word self word row col d) as [[[]|e] s1] eqn:Ep; [|discriminate].
  assert (Hk1 : preserved (fun _ _ => True) size ws s1).
  { destruct Hk as (_ & Hws & Hsz).
    destruct (@place_word_frame _ _ _ _ _ _ _ Ep) as [F1 F2].
    split; [exact I|]. split; congruence. }
  destruct (solve_rest s1) as [[b|e] s2] eqn:Es; [|discriminate].
  destruct (Hsolve _ _ _ Hk1 Es) as [-> (_ & Hws2 & Hsz2)].
  apply IH in H; [exact H|]. split; [exact I|]. split; cbn; assumption.
Qed.

Lemma backtrack_from_oversized n : forall s b s',
  preserved (fun _ _ => True) size ws s ->
  (n <= length ws)%nat ->
  (exists i w, nth_error ws i = Some w /\ (length ws - n <= i)%nat /\ size < len w) ->
  backtrack_from clock entropy n s = (Return b, s') ->
  b = false /\ preserved (fun _ _ => True) size ws s'.
Proof.
  induction n as [|k IH]; intros s b s' Hk Hn (i & w & Hi & Hge & Hlong) H.
  - exfalso. assert (i < length ws)%nat by (apply nth_error_Some; congruence). lia.
  - split; [|eapply backtrack_from_keeps; [apply no_condition | exact Hk | exact H]].
    destruct b; [exfalso|reflexivity].
    rewrite backtrack_from_eq in H.
    destruct (timed_out clock s) as [[[|]|e] s1] eqn:Et; try discriminate.
    apply timed_out_state in Et; subst s1.
    destruct (py_index _ _) as [word|] eqn:Ew; [|discriminate].
    destruct Hk as (_ & Hws & Hsz). cbn [words with_clock_reads] in Ew.
    rewrite Hws in Ew. rewrite py_index_nonneg in Ew by (unfold len; lia).
    replace (Z.to_nat (len ws - Z.of_nat (S k))) with (length ws - S k)%nat in Ew
      by (unfold len; lia).
    destruct (Nat.eq_dec i (length ws - S k)) as [->|Hne].
    + rewrite Hi in Ew. inversion Ew; subst word.
      unfold lift in H. rewrite valid_placements_oversized in H
        by (cbn; rewrite Hsz; exact Hlong).
      cbn in H. discriminate.
    + destruct (lift _) as [found|e]; [|discriminate].
      revert H. apply try_placements_not_true.
      * eapply nth_error_In; exact Ew.
      * intros s1 b1 s2 Hs1 Hb1. apply (IH s1 b1 s2 Hs1); [lia| |exact Hb1].
        exists i, w. split; [exact Hi|]. split; [lia | exact Hlong].
      * split; [exact I|]. split; cbn; assumption.
Qed.

End Oversized.

Lemma generate_puzzle_total_aux clock entropy self :
  well_formed self ->
  exists b s', generate_puzzle clock entropy self = (Return b, s').
Proof.
  intros Hwf. unfold generate_puzzle, _backtrack_solve. cbv zeta.
  match goal with
  | |- context [backtrack_from clock entropy ?n ?s] =>
      destruct (@backtrack_from_total clock entropy (grid_size self) (words self) n s)
        as (b & s' & Hb & Hr)
  end.
  - split; [destruct Hwf; split; assumption|]. split; [cbn; discriminate|].
    split; reflexivity.
  - cbn [words with_start_time with_clock_reads]. unfold len. lia.
  - rewrite Hb. exists b. eexists. reflexivity.
Qed.

(** X10.  A word longer than the board side can never be placed: on a well-formed
    board whose word list holds such a word, [generate_puzzle] returns
    [False] -- it does not raise -- and leaves the grid and the placed words
    as they were. *)
Theorem oversized_word_fails_the_search clock entropy self :
  well_formed self ->
  (exists w, In w (words self) /\ grid_size self < len w) ->
  exists s',
    generate_puzzle clock entropy self = (Return false, s') /\
    grid s' = grid self /\ placed_words s' = placed_words self.
Proof.
  intros Hwf (w & Hin & Hlong).
  destruct (@generate_puzzle_total_aux clock entropy self Hwf) as (b & s1 & Hb).
  unfold generate_puzzle, _backtrack_solve in *. cbv zeta in *.
  destruct (backtrack_from clock entropy _ _) as [[r|e] s2] eqn:E; [|discriminate].
  inversion Hb; subst r s1. clear Hb.
  apply In_nth_error in Hin. destruct Hin as [i Hi].
  pose proof E as E'.
  apply (@backtrack_from_oversized clock entropy (grid_size self) (words self)) in E'.
  - destruct E' as [-> _]. eexists. split; [reflexivity|].
    apply backtrack_from_false in E. exact E.
  - split; [exact I|]. split; reflexivity.
  - cbn [words with_start_time with_clock_reads]. unfold len. lia.
  - exists i, w. split; [exact Hi|]. split; [|exact Hlong].
    cbn [words with_start_time with_clock_reads]. unfold len. lia.
Qed.

Lemma oversized_word_fails_the_search_witness :
  exists s',
    generate_puzzle (fun _ => 0%Q) (fun _ => 0)
      (ScrabbleCrossword_init (fun _ => 0) [["A"; "B"]%char] 1) = (Return false, s') /\
    grid s' = grid (ScrabbleCrossword_init (fun _ => 0) [["A"; "B"]%char] 1) /\
    placed_words s'
    = placed_words (ScrabbleCrossword_init (fun _ => 0) [["A"; "B"]%char] 1).
Proof.
  apply (@oversized_word_fails_the_search (fun _ => 0%Q) (fun _ => 0)
           (ScrabbleCrossword_init (fun _ => 0) [["A"; "B"]%char] 1)).
  - split; [reflexivity|]. vm_compute. repeat constructor.
  - exists ["A"; "B"]%char. split; [left; reflexivity|]. vm_compute. reflexivity.
Defined.

(** ** What find_best_placement chooses *)

Lemma In_range n x : 0 <= x < n -> In x (range n).
Proof.
  intros H. unfold range. apply in_map_iff. exists (Z.to_nat x).
  split; [lia|]. apply in_seq. lia.
Qed.

Lemma in_board_all_positions self row col d :
  in_board self (row, col) -> In (row, col, d) (all_positions (grid_size self)).
Proof.
  intros [Hr Hc]. cbn [fst snd] in *. unfold all_positions.
  apply in_flat_map. exists row. split; [apply In_range; exact Hr|].
  apply in_flat_map. exists col. split; [apply In_range; exact Hc|].
  destruct d; [left | right; left]; reflexivity.
Qed.

Lemma consider_ranked_spec self word acc row col d acc' :
  result (consider_ranked self word acc (row, col, d)) = Some acc' ->
  (acc' = acc /\ forall n, ~ accepted self word row col d n) \/
  (exists n, accepted self word row col d n /\
     acc' = acc ++ [(row, col, d, n, - distance_to_center self word row col d)]).
Proof.
  unfold consider_ranked, accepted. rewrite result_bind.
  destruct (result (can_place_word_scrabble self word row col d)) as [[|]|];
    [| |discriminate].
  - rewrite result_bind.
    destruct (result (has_connection_to_existing self word row col d)) as [[|]|];
      [| |discriminate].
    + rewrite result_bind.
      destruct (result (count_intersections (grid self) row col d 0 word 0))
        as [n|]; [|discriminate].
      cbn [ret result]. intros H. inversion H; subst. right. exists n. auto.
    + cbn [ret result]. intros H. inversion H; subst. left.
      split; [reflexivity|]. intros n (_ & H2 & _). discriminate.
  - cbn [ret result]. intros H. inversion H; subst. left.
    split; [reflexivity|]. intros n (H1 & _). discriminate.
Qed.

Lemma collected_spec self word l : forall acc found,
  result (for_each (consider_ranked self word) l acc) = Some found ->
  forall x, In x found <->
    In x acc \/
    exists row col d n,
      In (row, col, d) l /\ accepted self word row col d n /\
      x = (row, col, d, n, - distance_to_center self word row col d).
Proof.
  induction l as [|[[row col] d] t IH]; intros acc found H x; cbn [for_each] in H.
  - inversion H; subst. split; [auto|]. intros [Hx|(? & ? & ? & ? & [] & _)]. exact Hx.
  - rewrite result_bind in H.
    destruct (result (consider_ranked self word acc (row, col, d))) as [acc'|] eqn:E;
      [|discriminate].
    rewrite (IH _ _ H). apply consider_ranked_spec in E.
    destruct E as [[-> Hno]|(n & Hacc & ->)].
    + split.
      * intros [Hx|(r & c & d' & n & Hin & Ha & Hx)]; [left; exact Hx|].
        right. exists r, c, d', n. split; [right; exact Hin|]. split; assumption.
      * intros [Hx|(r & c & d' & n & [Hin|Hin] & Ha & Hx)]; [left; exact Hx| |].
        -- inversion Hin; subst. exfalso. eapply Hno; exact Ha.
        -- right. exists r, c, d', n. split; [exact Hin|]. split; assumption.
    + split.
      * intros [Hx|(r & c & d' & n' & Hin & Ha & Hx)].
        -- apply in_app_or in Hx. destruct Hx as [Hx|[<-|[]]]; [left; exact Hx|].
           right. exists row, col, d, n. split; [left; reflexivity|].
           split; [exact Hacc | reflexivity].
        -- right. exists r, c, d', n'. split; [right; exact Hin|]. split; assumption.
      * intros [Hx|(r & c & d' & n' & [Hin|Hin] & Ha & Hx)].
        -- left. apply in_or_app. left. exact Hx.
        -- inversion Hin; subst r c d'. left. apply in_or_app. right. left.
           destruct Hacc as (_ & _ & H3), Ha as (_ & _ & H3').
           rewrite H3 in H3'. inversion H3'; subst. reflexivity.
        -- right. exists r, c, d', n'. split; [exact Hin|]. split; assumption.
Qed.

(** X11.  [find_best_placement] changes neither the grid nor the placed words.
    When it returns a placement, that placement starts on the board, passes
    the validator and the connectivity rule, and no other such placement has
    more intersections, or as many and a greater distance to the centre:
    among equals the farthest wins.  It returns [None] exactly when no
    placement on the board passes both checks. *)
Theorem find_best_placement_choice entropy self word r s' :
  find_best_placement entropy self word = (Return r, s') ->
  grid s' = grid self /\ placed_words s' = placed_words self /\
  match r with
  | Some (row, col, d) =>
      exists n,
        in_board self (row, col) /\ accepted self (upper word) row col d n /\
        forall row' col' d' n',
          in_board self (row', col') -> accepted self (upper word) row' col' d' n' ->
          n' < n \/
          (n' = n /\ distance_to_center self (upper word) row' col' d'
                     <= distance_to_center self (upper word) row col d)
  | None =>
      forall row col d n,
        in_board self (row, col) -> ~ accepted self (upper word) row col d n
  end.
Proof.
  intros H.
  destruct (@find_best_placement_state entropy self word _ _ H) as (Hg & Hp & _).
  split; [exact Hg|]. split; [exact Hp|].
  destruct (result (connected_placements self word)) as [found|] eqn:Ef.
  2:{ unfold find_best_placement, connected_placements, lift in *. cbv zeta in H.
      rewrite Ef in H. discriminate. }
  pose proof (@collected_spec self (upper word) _ [] found Ef) as Hspec.
  destruct r as [[[row col] d]|].
  - destruct (@find_best_placement_first entropy self word found row col d s' Ef H)
      as (n & nd & Hin & Hmin).
    apply Hspec in Hin. destruct Hin as [[]|(r & c & d' & n0 & Hpos & Hacc & E)].
    inversion E; subst r c d' n0 nd. exists n.
    split; [eapply all_positions_in_board; exact Hpos|]. split; [exact Hacc|].
    intros row' col' d' n' Hb' Ha'.
    assert (Hin' : In (row', col', d', n',
                       - distance_to_center self (upper word) row' col' d') found).
    { apply Hspec. right. exists row', col', d', n'.
      split; [apply in_board_all_positions; exact Hb'|]. split; [exact Ha'|reflexivity]. }
    specialize (Hmin _ Hin'). cbn [ranked_before] in Hmin. lia.
  - intros row col d n Hb Ha.
    assert (Hin : In (row, col, d, n,
                      - distance_to_center self (upper word) row col d) found).
    { apply Hspec. right. exists row, col, d, n.
      split; [apply in_board_all_positions; exact Hb|]. split; [exact Ha|reflexivity]. }
    unfold find_best_placement, connected_placements, lift in *. cbv zeta in H.
    rewrite Ef in H. destruct found as [|x t]; [destruct Hin|].
    destruct (sort_by le3 _) as [|[[[[? ?] ?] ?] ?] ?]; discriminate.
Qed.

Lemma find_best_placement_choice_witness :
  grid (snd (find_best_placement (fun _ => 0) corner_engine ["a"; "b"]%char))
  = grid corner_engine /\
  placed_words (snd (find_best_placement (fun _ => 0) corner_engine ["a"; "b"]%char))
  = placed_words corner_engine /\
  exists n,
    in_board corner_engine (0, 2) /\
    accepted corner_engine (upper ["a"; "b"]%char) 0 2 down n /\
    forall row' col' d' n',
      in_board corner_engine (row', col') ->
      accepted corner_engine (upper ["a"; "b"]%char) row' col' d' n' ->
      n' < n \/
      (n' = n /\ distance_to_center corner_engine (upper ["a"; "b"]%char) row' col' d'
                 <= distance_to_center corner_engine (upper ["a"; "b"]%char) 0 2 down).
Proof.
  apply (@find_best_placement_choice (fun _ => 0) corner_engine ["a"; "b"]%char
           (Some (0, 2, down))).
  vm_compute. reflexivity.
Defined.

(** ** get_bounding_box *)

Lemma for_each_prefix A B (I : list A -> B -> Prop) (f : B -> A -> run B) l :
  forall visited acc,
  (forall pre x acc, In x l -> I pre acc ->
     exists acc', result (f acc x) = Some acc' /\ I (pre ++ [x]) acc') ->
  I visited acc ->
  exists r, result (for_each f l acc) = Some r /\ I (visited ++ l) r.
Proof.
  induction l as [|x t IH]; intros visited acc Hf Hacc; cbn [for_each].
  - exists acc. rewrite app_nil_r. split; [reflexivity | exact Hacc].
  - destruct (Hf visited x acc (or_introl eq_refl) Hacc) as [acc' [Hr Hacc']].
    rewrite result_bind, Hr.
    replace (visited ++ x :: t) with ((visited ++ [x]) ++ t)
      by (rewrite <- app_assoc; reflexivity).
    apply IH; [|exact Hacc']. intros pre y a Hy. apply Hf. right. exact Hy.
Qed.

Lemma all_cells_in_board self p :
  In p (all_cells (grid_size self)) <-> in_board self p.
Proof.
  unfold all_cells, in_board. rewrite in_flat_map. split.
  - intros (row & Hr & H). apply in_map_iff in H. destruct H as (col & <- & Hc).
    apply range_In in Hr, Hc. cbn [fst snd]. lia.
  - intros [Hr Hc]. exists (fst p). split; [apply In_range; exact Hr|].
    apply in_map_iff. exists (snd p). split; [destruct p; reflexivity|].
    apply In_range. exact Hc.
Qed.

Lemma visit_cell_step self visited box p :
  well_formed self -> in_board self p -> box_so_far self visited box ->
  exists box',
    result (visit_cell self box p) = Some box' /\
    box_so_far self (visited ++ [p]) box'.
Proof.
  intros Hwf Hin [Hins Htight].
  destruct (@cell_in_board self p Hwf Hin) as [ch Hch].
  destruct box as [[[a b] c] d]. destruct p as [row col].
  unfold visit_cell. unfold at_cell in Hch. cbn [fst snd] in Hch.
  rewrite result_bind, result_read, Hch.
  destruct (Ascii.eqb_spec ch SPACE) as [->|Hne]; cbn [negb].
  - exists (a, b, c, d). split; [reflexivity|]. split.
    + intros q Hq Hocc. apply in_app_or in Hq. destruct Hq as [Hq|[<-|[]]].
      * apply Hins; assumption.
      * exfalso. destruct Hocc as (_ & x & Hx & Hxs). unfold at_cell in Hx.
        cbn [fst snd] in Hx. congruence.
    + destruct Htight as [[E Hno]|Ht]; [left|right; exact Ht].
      split; [exact E|]. intros q Hq Hocc.
      apply in_app_or in Hq. destruct Hq as [Hq|[<-|[]]].
      * eapply Hno; eassumption.
      * destruct Hocc as (_ & x & Hx & Hxs). unfold at_cell in Hx.
        cbn [fst snd] in Hx. congruence.
  - assert (Hocc : occupied self (row, col)).
    { split; [exact Hin|]. exists ch. split; [exact Hch | exact Hne]. }
    eexists. split; [reflexivity|]. split.
    + intros q Hq Hq'. apply in_app_or in Hq. destruct Hq as [Hq|[<-|[]]].
      * specialize (Hins q Hq Hq'). cbn [inside] in *. lia.
      * cbn [inside fst snd]. lia.
    + right. destruct Hin as [Hr Hc]. cbn [fst snd] in Hr, Hc.
      destruct Htight as [[E _]|(Ta & Tb & Tc & Td)].
      * inversion E; subst a b c d. cbn [tight].
        rewrite !Z.min_r, !Z.max_r by lia.
        repeat split; exists (row, col); split; (exact Hocc || reflexivity).
      * cbn [tight]. repeat split.
        -- destruct (Z.min_spec a row) as [[_ ->]|[_ ->]];
             [exact Ta | exists (row, col); split; [exact Hocc | reflexivity]].
        -- destruct (Z.max_spec b row) as [[_ ->]|[_ ->]];
             [exists (row, col); split; [exact Hocc | reflexivity] | exact Tb].
        -- destruct (Z.min_spec c col) as [[_ ->]|[_ ->]];
             [exact Tc | exists (row, col); split; [exact Hocc | reflexivity]].
        -- destruct (Z.max_spec d col) as [[_ ->]|[_ ->]];
             [exists (row, col); split; [exact Hocc | reflexivity] | exact Td].
Qed.

(** X12.  On a well-formed board [get_bounding_box] returns a box that contains
    every occupied cell and, when some cell is occupied, is the smallest
    such box: each of its sides passes through an occupied cell.  On a board
    without letters it returns [(N, -1, N, -1)]; so [max_row = -1], the test
    [display_grid] makes, holds exactly when no cell is occupied. *)
Theorem get_bounding_box_is_minimal self :
  well_formed self ->
  exists min_row max_row min_col max_col,
    result (get_bounding_box self) = Some (min_row, max_row, min_col, max_col) /\
    (forall p, occupied self p -> inside (min_row, max_row, min_col, max_col) p) /\
    ((exists p, occupied self p) -> tight self (min_row, max_row, min_col, max_col)) /\
    ((forall p, ~ occupied self p) ->
     (min_row, max_row, min_col, max_col) = (grid_size self, -1, grid_size self, -1)) /\
    (max_row = -1 <-> forall p, ~ occupied self p).
Proof.
  intros Hwf. unfold get_bounding_box.
  destruct (@for_each_prefix _ _ (box_so_far self) (visit_cell self)
              (all_cells (grid_size self)) []
              (grid_size self, -1, grid_size self, -1)) as [box [Hr [Hins Ht]]].
  - intros pre p acc Hp Hacc. apply visit_cell_step; [exact Hwf| |exact Hacc].
    apply all_cells_in_board. exact Hp.
  - split; [intros p []|]. left. split; [reflexivity|]. intros p [].
  - cbn [app] in Hins, Ht. destruct box as [[[a b] c] d].
    exists a, b, c, d. split; [exact Hr|].
    assert (Hall : forall p, occupied self p -> In p (all_cells (grid_size self))).
    { intros p [Hp _]. apply all_cells_in_board. exact Hp. }
    assert (Hcase : (exists p, occupied self p) -> tight self (a, b, c, d)).
    { intros [p Hp]. destruct Ht as [[_ Hno]|Ht]; [|exact Ht].
      exfalso. apply (Hno p (Hall p Hp) Hp). }
    assert (Hempty : (forall p, ~ occupied self p) ->
              (a, b, c, d) = (grid_size self, -1, grid_size self, -1)).
    { intros Hno. destruct Ht as [[E _]|(_ & (p & Hp & _) & _)]; [exact E|].
      exfalso. apply (Hno p Hp). }
    split; [intros p Hp; apply Hins; [apply Hall|]; exact Hp|].
    split; [exact Hcase|]. split; [exact Hempty|]. split.
    + intros -> p Hp.
      destruct (Hcase (ex_intro _ p Hp)) as (_ & (q & [[Hq _] _] & Eq) & _). lia.
    + intros Hno. specialize (Hempty Hno). inversion Hempty. reflexivity.
Qed.

Lemma get_bounding_box_is_minimal_witness :
  exists min_row max_row min_col max_col,
    result (get_bounding_box corner_engine)
    = Some (min_row, max_row, min_col, max_col) /\
    (forall p, occupied corner_engine p ->
               inside (min_row, max_row, min_col, max_col) p) /\
    ((exists p, occupied corner_engine p) ->
     tight corner_engine (min_row, max_row, min_col, max_col)) /\
    ((forall p, ~ occupied corner_engine p) ->
     (min_row, max_row, min_col, max_col)
     = (grid_size corner_engine, -1, grid_size corner_engine, -1)) /\
    (max_row = -1 <-> forall p, ~ occupied corner_engine p).
Proof.
  apply (@get_bounding_box_is_minimal corner_engine).
  split; [reflexivity|]. vm_compute. repeat constructor.
Defined.

(** ** The timeout check and the empty word list *)

(** The code subtracts the two clock readings in double precision.  Rounding
    to the nearest double is monotone and leaves integers of magnitude up to
    2^53 as they are; so for an integral timeout [t] the rounded difference
    exceeds [t] whenever the exact difference is at least [t + 1], and does
    not exceed [t] whenever the exact difference is at most [t].  On these
    two ranges the exact comparison of [timed_out] is the comparison the
    code makes; the two statements below stay within them. *)

(** X13.  With an integral timeout [t] (the constructor sets 30), if at the
    first check the clock is at least [t + 1] seconds past the start,
    [generate_puzzle] returns [False] at once: nothing is placed, no random
    number is drawn. *)
Theorem generate_puzzle_times_out_at_entry clock entropy self (t : Z) :
  Z.abs t < 2 ^ 53 ->
  (timeout self == inject_Z t)%Q ->
  (inject_Z (t + 1) <= clock (S (clock_reads self)) - clock (clock_reads self))%Q ->
  exists s',
    generate_puzzle clock entropy self = (Return false, s') /\
    grid s' = grid self /\ placed_words s' = placed_words self /\
    random_draws s' = random_draws self.
Proof.
  intros _ Ht Hlate. unfold generate_puzzle, _backtrack_solve. cbv zeta.
  rewrite backtrack_from_eq. unfold timed_out. cbv zeta.
  cbn [start_time timeout clock_reads with_start_time with_clock_reads].
  destruct (Qle_bool (clock (S (clock_reads self)) - clock (clock_reads self))
              (timeout self)) eqn:E.
  - apply Qle_bool_iff in E. exfalso.
    rewrite Ht in E. rewrite inject_Z_plus in Hlate.
    change (inject_Z 1) with 1%Q in Hlate. lra.
  - cbn [negb]. eexists. split; [reflexivity|]. repeat split.
Qed.

Lemma generate_puzzle_times_out_at_entry_witness :
  exists s',
    generate_puzzle (fun k => inject_Z (100 * Z.of_nat k)) (fun _ => 0) example_engine
    = (Return false, s') /\
    grid s' = grid example_engine /\
    placed_words s' = placed_words example_engine /\
    random_draws s' = random_draws example_engine.
Proof.
  apply (@generate_puzzle_times_out_at_entry
           (fun k => inject_Z (100 * Z.of_nat k)) (fun _ => 0) example_engine 30).
  - vm_compute. reflexivity.
  - vm_compute. reflexivity.
  - vm_compute. discriminate.
Defined.

(** X14.  With no word to place and an integral timeout [t], if at the first
    check the clock is at most [t] seconds past the start, [generate_puzzle]
    returns [True] and leaves the board as it is. *)
Theorem generate_puzzle_without_words clock entropy self (t : Z) :
  words self = [] ->
  Z.abs t <= 2 ^ 53 ->
  (timeout self == inject_Z t)%Q ->
  (clock (S (clock_reads self)) - clock (clock_reads self) <= inject_Z t)%Q ->
  exists s',
    generate_puzzle clock entropy self = (Return true, s') /\
    grid s' = grid self /\ placed_words s' = placed_words self.
Proof.
  intros Hw _ Ht Hin. unfold generate_puzzle, _backtrack_solve. cbv zeta.
  cbn [words with_start_time with_clock_reads]. rewrite Hw.
  change (Z.to_nat (len (@nil str) - 0)) with 0%nat.
  rewrite backtrack_from_eq. unfold timed_out. cbv zeta.
  cbn [start_time timeout clock_reads with_start_time with_clock_reads].
  rewrite <- Ht in Hin. apply Qle_bool_iff in Hin. rewrite Hin. cbn [negb].
  eexists. split; [reflexivity|]. split; reflexivity.
Qed.

Lemma generate_puzzle_without_words_witness :
  exists s',
    generate_puzzle (fun k => inject_Z (Z.of_nat k)) (fun _ => 0)
      (ScrabbleCrossword_init (fun _ => 0) [] 4) = (Return true, s') /\
    grid s' = grid (ScrabbleCrossword_init (fun _ => 0) [] 4) /\
    placed_words s' = placed_words (ScrabbleCrossword_init (fun _ => 0) [] 4).
Proof.
  apply (@generate_puzzle_without_words (fun k => inject_Z (Z.of_nat k)) (fun _ => 0)
           (ScrabbleCrossword_init (fun _ => 0) [] 4) 30).
  - reflexivity.
  - vm_compute. discriminate.
  - vm_compute. reflexivity.
  - vm_compute. discriminate.
Defined.

(** ** place_word off the board *)

Lemma write_letters_app row col d a : forall b g i,
  write_letters g row col d i (a ++ b) =
  match write_letters g row col d i a with
  | (Return _, g') => write_letters g' row col d (i + len a) b
  | (Raise e, g') => (Raise e, g')
  end.
Proof.
  induction a as [|x a IH]; intros b g i; cbn [write_letters app].
  - replace (i + len (@nil ascii)) with i by (unfold len; cbn; lia). reflexivity.
  - destruct (position row col d i) as [r c].
    destruct (grid_set g r c x) as [g1|]; [|reflexivity].
    rewrite IH. rewrite len_cons.
    replace (i + 1 + len a) with (i + (len a + 1)) by lia. reflexivity.
Qed.

Lemma list_set_none A (l : list A) : forall k v,
  (length l <= k)%nat -> list_set l k v = None.
Proof.
  induction l as [|h t IH]; intros k v Hk; [reflexivity|].
  destruct k as [|k]; cbn [list_set]; [cbn in Hk; lia|].
  rewrite IH by (cbn in Hk; lia). reflexivity.
Qed.

Lemma grid_set_past_edge self r c v :
  well_formed self -> 0 <= r -> 0 <= c ->
  grid_size self <= r \/ grid_size self <= c ->
  grid_set (grid self) r c v = None.
Proof.
  intros [Hrows Hcols] Hr Hc Hout. unfold grid_set.
  rewrite py_index_nonneg by lia.
  destruct (nth_error (grid self) (Z.to_nat r)) as [line|] eqn:El; [|reflexivity].
  assert (Hline : len line = grid_size self).
  { rewrite Forall_forall in Hcols. apply Hcols. eapply nth_error_In; exact El. }
  assert (Hlt : (Z.to_nat r < length (grid self))%nat)
    by (apply nth_error_Some; congruence).
  unfold py_setitem. destruct (0 <=? c) eqn:E; [|lia].
  rewrite list_set_none; [reflexivity|]. unfold len in *. lia.
Qed.

(** X6.  [place_word] does not check bounds.  On a well-formed board, from a
    start cell on the board, a word whose span does not fit raises
    [IndexError]: nothing is recorded, but the letters that fit have been
    written to the board. *)
Theorem place_word_past_edge_raises self word row col d :
  well_formed self -> in_board self (row, col) ->
  ~ span_fits self (upper word) row col d ->
  exists s',
    place_word self word row col d = (Raise IndexError, s') /\
    placed_words s' = placed_words self /\
    well_formed s' /\
    (forall k ch, nth_error (upper word) k = Some ch ->
       in_board self (position row col d (Z.of_nat k)) ->
       at_cell s' (position row col d (Z.of_nat k)) = Some ch).
Proof.
  intros Hwf [Hr Hc] Hfit. cbn [fst snd] in Hr, Hc.
  set (start := match d with across => col | down => row end).
  assert (Hstart : 0 <= start < grid_size self) by (destruct d; assumption).
  assert (Hlong : grid_size self - start < len (upper word)).
  { unfold span_fits in Hfit. destruct d; unfold start; lia. }
  set (m := Z.to_nat (grid_size self - start)).
  assert (Hm : (m < length (upper word))%nat) by (unfold len in Hlong; lia).
  assert (Hsplit : upper word = firstn m (upper word) ++ skipn m (upper word))
    by (symmetry; apply firstn_skipn).
  assert (Hlen1 : len (firstn m (upper word)) = grid_size self - start).
  { unfold len. rewrite length_firstn. lia. }
  destruct (skipn m (upper word)) as [|x rest] eqn:Es.
  { exfalso. apply (f_equal (@length ascii)) in Es. rewrite length_skipn in Es.
    cbn in Es. lia. }
  destruct (@write_letters_spec row col d (firstn m (upper word)) self 0 Hwf)
    as (g1 & Hw & Hwf1 & Hlet & _).
  { intros k Hk. cbn [Z.add]. rewrite Hlen1 in Hk.
    destruct d; unfold start in *; split; cbn [position fst snd]; lia. }
  unfold place_word. cbv zeta.
  replace (write_letters (grid self) row col d 0 (upper word))
    with (write_letters (grid self) row col d 0
            (firstn m (upper word) ++ x :: rest))
    by (rewrite <- Hsplit; reflexivity).
  rewrite write_letters_app, Hw. cbn [write_letters Z.add].
  assert (Hedge : grid_set g1 (fst (position row col d (len (firstn m (upper word)))))
                    (snd (position row col d (len (firstn m (upper word))))) x = None).
  { apply (@grid_set_past_edge (with_grid self g1) _ _ x Hwf1);
      rewrite Hlen1; destruct d; unfold start in *; cbn [position fst snd grid_size with_grid];
      lia. }
  destruct (position row col d (len (firstn m (upper word)))) as [r c].
  cbn [fst snd] in Hedge. rewrite Hedge.
  eexists. split; [reflexivity|]. split; [reflexivity|]. split; [exact Hwf1|].
  intros k ch Hk Hin. apply Hlet.
  rewrite nth_error_firstn.
  assert (Hkm : (k < m)%nat).
  { destruct Hin as [H1 H2]. destruct d; unfold start, m in *;
      cbn [position fst snd] in H1, H2; lia. }
  apply Nat.ltb_lt in Hkm. rewrite Hkm. exact Hk.
Qed.

Lemma place_word_past_edge_raises_witness :
  exists s',
    place_word corner_engine ["a"; "b"; "c"]%char 1 1 across
    = (Raise IndexError, s') /\
    placed_words s' = placed_words corner_engine /\
    well_formed s' /\
    (forall k ch, nth_error (upper ["a"; "b"; "c"]%char) k = Some ch ->
       in_board corner_engine (position 1 1 across (Z.of_nat k)) ->
       at_cell s' (position 1 1 across (Z.of_nat k)) = Some ch).
Proof.
  apply (@place_word_past_edge_raises corner_engine ["a"; "b"; "c"]%char 1 1 across).
  - split; [reflexivity|]. vm_compute. repeat constructor.
  - unfold in_board. change (grid_size corner_engine) with 3. cbn [fst snd]. lia.
  - unfold span_fits. change (grid_size corner_engine) with 3.
    change (len (upper ["a"; "b"; "c"]%char)) with 3. lia.
Defined.

(** ** The final layout can be read off the grid *)

Lemma build_perpendicular_word_same_board s1 s2 row col d :
  same_board s1 s2 ->
  build_perpendicular_word s1 row col d = build_perpendicular_word s2 row col d.
Proof.
  intros (Hg & Hn & _). unfold build_perpendicular_word. rewrite Hg, Hn. reflexivity.
Qed.

Lemma bind_ext A B (m : run A) (f g : A -> run B) :
  (forall a, f a = g a) -> bind m f = bind m g.
Proof. intros H. unfold bind. destruct (result m); [rewrite H|]; reflexivity. Qed.

Lemma check_letters_same_board s1 s2 row col d chars : forall i,
  same_board s1 s2 ->
  check_letters s1 row col d i chars = check_letters s2 row col d i chars.
Proof.
  induction chars as [|char rest IH]; intros i Hs; cbn [check_letters]; [reflexivity|].
  destruct (position row col d i) as [r c].
  rewrite (@build_perpendicular_word_same_board s1 s2 r c d Hs).
  pose proof Hs as (Hg & Hn & Ht). rewrite Hg, Ht.
  apply bind_ext. intros cur.
  destruct (negb (Ascii.eqb cur SPACE) && negb (Ascii.eqb cur char)); [reflexivity|].
  apply bind_ext. intros ok. destruct ok; [apply IH; exact Hs | reflexivity].
Qed.

Lemma can_place_word_scrabble_same_board s1 s2 word row col d :
  same_board s1 s2 ->
  can_place_word_scrabble s1 word row col d = can_place_word_scrabble s2 word row col d.
Proof.
  intros Hs. unfold can_place_word_scrabble. cbv zeta.
  rewrite (@check_letters_same_board s1 s2 row col d (upper word) 0 Hs).
  destruct Hs as (Hg & Hn & Ht).
  unfold out_of_span, check_boundaries. rewrite Hg, Hn. reflexivity.
Qed.

Lemma validated_same_board s1 s2 word x :
  same_board s1 s2 -> validated s1 word x -> validated s2 word x.
Proof.
  intros Hs. destruct x as [[[row col] d] n]. unfold validated, in_board.
  rewrite (@can_place_word_scrabble_same_board s1 s2 word row col d Hs).
  destruct Hs as (_ & -> & _). auto.
Qed.

Lemma place_word_trie self word row col d o self' :
  place_word self word row col d = (o, self') -> trie self' = trie self.
Proof.
  unfold place_word. cbv zeta.
  destruct (write_letters (grid self) row col d 0 (upper word)) as [[[]|e] g];
    intros H; inversion H; subst; reflexivity.
Qed.

Lemma consider_validated self word acc row col d :
  well_formed self -> in_board self (row, col) ->
  Forall (validated self word) acc ->
  exists acc',
    result (consider self word acc (row, col, d)) = Some acc' /\
    Forall (validated self word) acc'.
Proof.
  intros Hwf Hin Hacc.
  destruct (@consider_total self word [] row col d Hwf Hin (Forall_nil _))
    as [r0 [Hr0 _]].
  unfold consider in *. rewrite result_bind in *.
  destruct (result (can_place_word_scrabble self word row col d)) as [[|]|] eqn:Eok;
    try discriminate.
  - rewrite result_bind in *.
    destruct (result (has_connection_to_existing self word row col d)) as [[|]|];
      try discriminate.
    + rewrite result_bind in *.
      destruct (result (count_intersections (grid self) row col d 0 word 0)) as [n|];
        [|discriminate].
      eexists. split; [reflexivity|]. apply Forall_app. split; [exact Hacc|].
      constructor; [|constructor]. split; [exact Hin | exact Eok].
    + exists acc. split; [reflexivity | exact Hacc].
  - exists acc. split; [reflexivity | exact Hacc].
Qed.

Lemma valid_placements_validated self word :
  well_formed self ->
  exists found,
    result (valid_placements self word) = Some found /\
    Forall (validated self word) found.
Proof.
  intros Hwf. unfold valid_placements. apply for_each_total; [|constructor].
  intros acc [[row col] d] Hx Hacc.
  apply consider_validated; [exact Hwf | | exact Hacc].
  apply all_positions_in_board with (d := d). exact Hx.
Qed.

Section ValidatedInvariant.

Variable clock : nat -> Q.
Variable entropy : nat -> Z.
Variable P : Grid -> list placement -> Prop.
Variable size : Z.
Variable ws : list str.
Variable tr : Trie.

(** [P] is kept by placing a word of the puzzle where the validator
    accepts it. *)
Hypothesis accepted_placement_keeps : forall s w r c d s',
  ready size ws s -> In w ws ->
  P (grid s) (placed_words s) ->
  in_board s (r, c) ->
  result (can_place_word_scrabble s w r c d) = Some true ->
  place_word s w r c d = (Return tt, s') ->
  P (grid s') (placed_words s').

Lemma try_placements_validated solve_rest word :
  In word ws ->
  (forall s b s',
     ready size ws s -> trie s = tr -> P (grid s) (placed_words s) ->
     solve_rest s = (Return b, s') ->
     ready size ws s' /\ trie s' = tr /\ P (grid s') (placed_words s')) ->
  forall cands self b s',
    ready size ws self -> trie self = tr -> P (grid self) (placed_words self) ->
    Forall (validated self word) cands ->
    try_placements solve_rest word cands self = (Return b, s') ->
    ready size ws s' /\ trie s' = tr /\ P (grid s') (placed_words s').
Proof.
  intros Hword Hsolve. induction cands as [|[[[row col] d] n] rest IH];
    intros self b s' Hready Htr HP Hc H; cbn [try_placements] in H.
  - inversion H; subst. auto.
  - cbv zeta in H. apply Forall_cons_iff in Hc. destruct Hc as [Hv Hrest].
    unfold validated in Hv. destruct Hv as [Hin Hok].
    destruct Hready as (Hwf & Hst & Hws & Hsz).
    destruct (@accepted_placement_effect self word row col d Hwf Hin Hok)
      as (s1 & Hp & Hwf1 & _).
    rewrite Hp in H.
    destruct (@place_word_frame _ _ _ _ _ _ _ Hp) as [F1 F2].
    pose proof (@place_word_start_time _ _ _ _ _ _ _ Hp) as F3.
    pose proof (@place_word_trie _ _ _ _ _ _ _ Hp) as F4.
    assert (HP1 : P (grid s1) (placed_words s1)).
    { apply (@accepted_placement_keeps self word row col d s1
               (conj Hwf (conj Hst (conj Hws Hsz)))); assumption. }
    assert (Hr1 : ready size ws s1)
      by (split; [exact Hwf1|]; split; [congruence|]; split; congruence).
    assert (Ht1 : trie s1 = tr) by congruence.
    destruct (solve_rest s1) as [[[|]|e] s2] eqn:Es; try discriminate.
    + inversion H; subst s2. exact (Hsolve s1 true s' Hr1 Ht1 HP1 Es).
    + destruct (Hsolve s1 false s2 Hr1 Ht1 HP1 Es)
        as ((_ & Hst2 & Hws2 & Hsz2) & Htr2 & _).
      eapply IH; [| | | |exact H].
      * split; [|split; [|split]]; cbn; try assumption.
        destruct Hwf as [H1 H2]. split; cbn; rewrite Hsz2, <- Hsz; assumption.
      * cbn. exact Htr2.
      * cbn. exact HP.
      * eapply Forall_impl; [|exact Hrest]. intros x.
        apply validated_same_board. split; [reflexivity|].
        split; cbn; congruence.
Qed.

Lemma backtrack_from_validated n : forall s b s',
  ready size ws s -> trie s = tr -> P (grid s) (placed_words s) ->
  (n <= length ws)%nat ->
  backtrack_from clock entropy n s = (Return b, s') ->
  ready size ws s' /\ trie s' = tr /\ P (grid s') (placed_words s').
Proof.
  induction n as [|k IH]; intros s b s' Hready Htr HP Hn; rewrite backtrack_from_eq;
    destruct (timed_out clock s) as [[[|]|e] s1] eqn:Et; try discriminate;
    apply timed_out_state in Et; subst s1; intros H;
    assert (Hr1 : ready size ws (with_clock_reads s (S (clock_reads s))))
      by (destruct Hready as ([? ?] & ? & ? & ?);
          split; [split; assumption|]; split; [assumption|]; split; assumption).
  - inversion H; subst. auto.
  - inversion H; subst. auto.
  - inversion H; subst. auto.
  - destruct (py_index _ _) as [word|] eqn:Ew; [|discriminate].
    destruct (@valid_placements_validated (with_clock_reads s (S (clock_reads s))) word)
      as (found & Hf & Hall); [destruct Hr1; assumption|].
    unfold lift in H. rewrite Hf in H.
    eapply try_placements_validated; [| | | | | |exact H].
    + apply py_index_In in Ew. cbn in Ew. destruct Hready as (_ & _ & <- & _). exact Ew.
    + intros s1 b1 s2 Hs1 Ht1 HP1. apply IH; [assumption|assumption|assumption|lia].
    + destruct Hr1 as (H1 & H2 & H3 & H4). split; [|split; [|split]]; assumption.
    + cbn. exact Htr.
    + cbn. exact HP.
    + eapply Permutation_Forall.
      * apply Permutation_sym. eapply perm_trans; [apply sort_by_perm|].
        rewrite solver_keys_snd. apply Permutation_refl.
      * eapply Forall_impl; [|exact Hall]. intros x.
        apply validated_same_board. split; [|split]; reflexivity.
Qed.

End ValidatedInvariant.

Lemma upper_letter_not_space c : is_upper c = true -> c <> SPACE.
Proof. intros H ->. vm_compute in H. discriminate. Qed.

Lemma legible_after_accepted_placement s w r c d s' :
  well_formed s -> alphabetic w ->
  legible (grid_size s) (grid s) (placed_words s) ->
  in_board s (r, c) ->
  result (can_place_word_scrabble s w r c d) = Some true ->
  place_word s w r c d = (Return tt, s') ->
  legible (grid_size s) (grid s') (placed_words s').
Proof.
  intros Hwf Halpha Hleg Hin Hok Hp.
  destruct (@can_place_word_scrabble_spec s w r c d Hwf Hin) as [b [Hb Hiff]].
  rewrite Hb in Hok. inversion Hok; subst b.
  destruct Hiff as [Hiff _]. destruct (Hiff eq_refl) as (Hfit & _).
  pose proof (@span_covered s (upper w) r c d Hin Hfit) as Hcov.
  destruct (@place_word_effect s w r c d Hwf Hcov)
    as (s1 & Hp1 & _ & Hrec & Hlet & _).
  destruct (@accepted_placement_effect s w r c d Hwf Hin Hb)
    as (s2 & Hp2 & _ & Hkeep).
  rewrite Hp in Hp1, Hp2. inversion Hp1; subst s1. inversion Hp2; subst s2.
  rewrite Hrec. intros w0 r0 c0 d0 Hin0 k ch Hk.
  apply in_app_or in Hin0. destruct Hin0 as [Hold|[Hnew|[]]].
  - destruct (Hleg w0 r0 c0 d0 Hold k ch Hk) as (H1 & H2 & H3 & H4).
    split; [exact H1|]. split; [exact H2|]. split; [|exact H4].
    apply (Hkeep (position r0 c0 d0 (Z.of_nat k)) ch); [split| |]; assumption.
  - inversion Hnew; subst w0 r0 c0 d0.
    assert (Hpos : in_board s (position r c d (Z.of_nat k))).
    { apply Hcov. split; [lia|].
      assert (k < length (upper w))%nat by (apply nth_error_Some; congruence).
      unfold len. lia. }
    destruct Hpos as [H1 H2]. split; [exact H1|]. split; [exact H2|].
    split; [apply (Hlet k ch Hk)|].
    apply upper_letter_not_space.
    pose proof (upper_of_alphabetic Halpha) as Hup. rewrite Forall_forall in Hup.
    apply Hup. eapply nth_error_In; exact Hk.
Qed.

(** X15.  After [generate_puzzle], whether it succeeded or not, every recorded
    placement can be read off the grid: for words made of letters, on a
    well-formed board where this held at the start (for instance with
    nothing placed), each recorded word lies on the board and each of its
    cells holds its letter.  No later placement has overwritten it. *)
Theorem recorded_words_are_on_the_grid clock entropy self b s' :
  well_formed self -> Forall alphabetic (words self) ->
  legible (grid_size self) (grid self) (placed_words self) ->
  generate_puzzle clock entropy self = (Return b, s') ->
  legible (grid_size self) (grid s') (placed_words s').
Proof.
  intros Hwf Hwords Hleg H. unfold generate_puzzle, _backtrack_solve in H.
  cbv zeta in H.
  destruct (backtrack_from clock entropy _ _) as [[r|e] s1] eqn:E; [|discriminate].
  inversion H; subst r s'. cbn [grid placed_words with_clock_reads].
  apply (@backtrack_from_validated clock entropy
           (legible (grid_size self)) (grid_size self) (words self) (trie self)) in E.
  - destruct E as (_ & _ & E). exact E.
  - intros s w r c d s' Hs Hw HP Hin Hok Hp.
    rewrite Forall_forall in Hwords.
    destruct Hs as (Hwfs & _ & _ & Hsz). rewrite <- Hsz in *.
    eapply legible_after_accepted_placement; try eassumption.
    apply Hwords. exact Hw.
  - split; [destruct Hwf; split; assumption|]. split; [cbn; discriminate|].
    split; reflexivity.
  - reflexivity.
  - exact Hleg.
  - cbn [words with_start_time with_clock_reads]. unfold len. lia.
Qed.

Unset Implicit Arguments.

Lemma recorded_words_are_on_the_grid_witness :
  legible (grid_size example_engine)
    (grid (snd (generate_puzzle (fun _ => 0%Q) (fun _ => 0) example_engine)))
    (placed_words (snd (generate_puzzle (fun _ => 0%Q) (fun _ => 0) example_engine))).
Proof.
  apply (@recorded_words_are_on_the_grid (fun _ => 0%Q) (fun _ => 0)
           example_engine true).
  - split; [reflexivity|]. vm_compute. repeat constructor.
  - vm_compute. repeat constructor.
  - intros w r c d Hin. change (placed_words example_engine) with (@nil placement) in Hin.
    destruct Hin.
  - vm_compute. reflexivity.
Defined.

Set Implicit Arguments.

(** ** Uppercase output *)

Lemma py_setitem_length A (l : list A) i v l' :
  py_setitem l i v = Some l' -> length l' = length l.
Proof.
  unfold py_setitem. destruct (0 <=? i).
  - apply list_set_length.
  - destruct (- len l <=? i); [apply list_set_length | discriminate].
Qed.

(** Writing a cell keeps the shape of the grid, wherever the cell is. *)
Lemma grid_set_shape g r c v g' n :
  grid_set g r c v = Some g' ->
  Forall (fun line => len line = n) g ->
  len g' = len g /\ Forall (fun line => len line = n) g'.
Proof.
  unfold grid_set. destruct (py_index g r) as [old|] eqn:Eo; [|discriminate].
  destruct (py_setitem old c v) as [new|] eqn:En; [|discriminate].
  intros Hg Hall. split.
  - unfold len. rewrite (@py_setitem_length _ g r new g' Hg). reflexivity.
  - apply Forall_forall. intros line Hl. rewrite Forall_forall in Hall.
    destruct (@py_setitem_In _ g r new g' line Hg Hl) as [->|Hin].
    + unfold len. rewrite (@py_setitem_length _ old c v new En).
      apply (Hall old). eapply py_index_In. exact Eo.
    + apply Hall. exact Hin.
Qed.

Lemma write_letters_shape row col d chars n : forall g i o g',
  write_letters g row col d i chars = (o, g') ->
  Forall (fun line => len line = n) g ->
  len g' = len g /\ Forall (fun line => len line = n) g'.
Proof.
  induction chars as [|char rest IH]; intros g i o g' H Hall;
    cbn [write_letters] in H.
  - inversion H; subst. split; [reflexivity | exact Hall].
  - destruct (position row col d i) as [r c].
    destruct (grid_set g r c char) as [g1|] eqn:E.
    + destruct (@grid_set_shape g r c char g1 n E Hall) as [E1 H1].
      destruct (IH _ _ _ _ H H1) as [E2 H2]. split; [congruence | exact H2].
    + inversion H; subst. split; [reflexivity | exact Hall].
Qed.

Lemma place_word_shape self word row col d o self' n :
  place_word self word row col d = (o, self') ->
  len (grid self) = n /\ Forall (fun line => len line = n) (grid self) ->
  len (grid self') = n /\ Forall (fun line => len line = n) (grid self').
Proof.
  unfold place_word. cbv zeta. intros H [H1 H2].
  destruct (write_letters (grid self) row col d 0 (upper word)) as [[[]|e] g] eqn:E;
    destruct (@write_letters_shape row col d (upper word) n (grid self) 0 _ _ E H2)
      as [E1 E2];
    inversion H; subst; cbn [grid with_grid with_placed_words];
    (split; [congruence | exact E2]).
Qed.

Lemma find_best_placement_grid_size entropy self word o s' :
  find_best_placement entropy self word = (o, s') -> grid_size s' = grid_size self.
Proof.
  unfold find_best_placement. cbv zeta.
  destruct (lift _) as [[|x l]|e]; try (intros H; inversion H; subst; auto).
  destruct (sort_by le3 _) as [|[[[[row col] d] a] b] t];
    inversion H; subst; auto.
Qed.

(** Every state of the engine has a square grid of side [grid_size]. *)
Lemma reachable_well_formed clock entropy (ok : str -> Prop) s :
  reachable clock entropy ok s -> 0 <= grid_size s -> well_formed s.
Proof.
  intros Hr. induction Hr as
    [word_list size Hwl
    | self Hr IH
    | self word row col d self' Hr IH Hw Hp
    | self word r self' Hr IH Hf
    | self b self' Hr IH Hg]; intros Hn.
  - destruct (init_state entropy word_list size) as (Eg & _ & Es).
    apply empty_grid_well_formed; [exact Hn | rewrite Es; exact Eg].
  - apply empty_grid_well_formed; [exact Hn | reflexivity].
  - destruct (place_word_frame _ _ _ _ _ Hp) as [Es _].
    unfold well_formed. rewrite Es in *.
    apply (@place_word_shape self word row col d _ self' (grid_size self) Hp).
    apply IH. exact Hn.
  - pose proof (@find_best_placement_grid_size entropy self word _ self' Hf) as Es.
    apply find_best_placement_state in Hf. destruct Hf as (Eg & _ & _).
    unfold well_formed. rewrite Eg, Es. apply IH. rewrite <- Es. exact Hn.
  - assert (Hk : preserved
              (fun g _ => len g = grid_size self /\
                          Forall (fun line => len line = grid_size self) g)
              (grid_size self) (words self) self').
    { eapply generate_puzzle_keeps; [| |exact Hg].
      - intros s w r c d s1 _ _ HP Hpl.
        apply (@place_word_shape s w r c d _ s1 (grid_size self) Hpl HP).
      - split; [|split; reflexivity]. apply IH.
        destruct (@generate_puzzle_keeps clock entropy (fun _ _ => True)
                    (grid_size self) (words self)) with (self := self) (b := b)
          (s' := self') as (_ & _ & Es); auto.
        + split; [exact I|]. split; reflexivity.
        + rewrite <- Es. exact Hn. }
    destruct Hk as (HP & _ & Es). unfold well_formed. rewrite Es. exact HP.
Qed.

Lemma upper_of_letters_and_blanks w :
  letters_and_blanks w ->
  Forall (fun c => is_upper c = true \/ c = SPACE) (upper w).
Proof.
  unfold letters_and_blanks, upper. intros H. apply Forall_map.
  eapply Forall_impl; [|exact H]. intros c [Hc| ->].
  - left. apply upper_char_of_letter. exact Hc.
  - right. reflexivity.
Qed.

(** C10, for words made of letters and blanks.  Whatever the casing of the
    input words, in every state the engine reaches from its constructor
    through [clear_grid], [place_word], [find_best_placement] and
    [generate_puzzle] on such words: each non-empty cell holds an uppercase
    letter and each recorded word is its own uppercase form; and
    [place_word], when it returns, has appended the tuple of the uppercased
    argument, and every covered cell of a placement on the board then holds
    the letter of the uppercased argument.  (A character that is neither a
    letter nor a blank is stored as it is: see [digit_is_stored].) *)
Theorem engine_output_is_uppercase clock entropy s :
  reachable clock entropy letters_and_blanks s ->
  cells_satisfy (fun c => is_upper c = true) (grid s) /\
  (forall p, In p (placed_words s) -> upper (pw_word p) = pw_word p) /\
  (forall word row col d s',
     place_word s word row col d = (Return tt, s') ->
     placed_words s' = placed_words s ++ [(upper word, row, col, d)] /\
     (covered_in_board s (upper word) row col d ->
      forall k ch, nth_error (upper word) k = Some ch ->
        at_cell s' (position row col d (Z.of_nat k)) = Some ch)).
Proof.
  intros Hr.
  destruct (@reachable_all_chars clock entropy letters_and_blanks
              (fun c => is_upper c = true \/ c = SPACE)
              upper_of_letters_and_blanks s Hr) as [[Hpw Hcells] _].
  split; [|split].
  - intros line ch Hl Hc. destruct (Hcells line ch Hl Hc) as [H|[H|H]]; auto.
  - intros p Hp. specialize (Hpw p Hp). unfold upper.
    induction (pw_word p) as [|c t IH]; [reflexivity|].
    inversion Hpw as [|? ? Hc Ht]; subst. cbn [map]. rewrite IH by assumption.
    destruct Hc as [Hc| ->]; [|reflexivity].
    rewrite upper_char_fixes_upper by assumption. reflexivity.
  - intros word row col d s' Hp. split.
    + apply place_word_Return in Hp. destruct Hp as [_ ->]. reflexivity.
    + intros Hcov k ch Hk.
      assert (Hin : in_board s (position row col d (Z.of_nat k))).
      { apply Hcov. split; [lia|].
        assert (k < length (upper word))%nat by (apply nth_error_Some; congruence).
        unfold len. lia. }
      assert (Hwf : well_formed s).
      { apply (@reachable_well_formed clock entropy letters_and_blanks s Hr).
        destruct Hin as [[? ?] _]. lia. }
      destruct (@place_word_effect s word row col d Hwf Hcov)
        as (s1 & Hp1 & _ & _ & Hlet & _).
      rewrite Hp in Hp1. inversion Hp1; subst s1. apply (Hlet k ch Hk).
Qed.

Lemma engine_output_is_uppercase_witness :
  cells_satisfy (fun c => is_upper c = true)
    (grid (snd (place_word (ScrabbleCrossword_init (fun _ => 0) [["a"; " "; "b"]%char] 3)
                  ["a"; " "; "b"]%char 0 0 across))) /\
  (forall p,
     In p (placed_words
             (snd (place_word
                     (ScrabbleCrossword_init (fun _ => 0) [["a"; " "; "b"]%char] 3)
                     ["a"; " "; "b"]%char 0 0 across))) ->
     upper (pw_word p) = pw_word p) /\
  (forall word row col d s',
     place_word
       (snd (place_word (ScrabbleCrossword_init (fun _ => 0) [["a"; " "; "b"]%char] 3)
               ["a"; " "; "b"]%char 0 0 across)) word row col d = (Return tt, s') ->
     placed_words s'
     = placed_words
         (snd (place_word
                 (ScrabbleCrossword_init (fun _ => 0) [["a"; " "; "b"]%char] 3)
                 ["a"; " "; "b"]%char 0 0 across)) ++ [(upper word, row, col, d)] /\
     (covered_in_board
        (snd (place_word (ScrabbleCrossword_init (fun _ => 0) [["a"; " "; "b"]%char] 3)
                ["a"; " "; "b"]%char 0 0 across)) (upper word) row col d ->
      forall k ch, nth_error (upper word) k = Some ch ->
        at_cell s' (position row col d (Z.of_nat k)) = Some ch)).
Proof.
  assert (Hw : letters_and_blanks ["a"; " "; "b"]%char).
  { repeat first [apply Forall_nil
                 | apply Forall_cons; [first [left; reflexivity | right; reflexivity]|]]. }
  apply (@engine_output_is_uppercase (fun _ => 0%Q) (fun _ => 0)).
  apply (@reach_place_word (fun _ => 0%Q) (fun _ => 0) letters_and_blanks
           (ScrabbleCrossword_init (fun _ => 0) [["a"; " "; "b"]%char] 3)
           ["a"; " "; "b"]%char 0 0 across).
  - apply reach_init. constructor; [exact Hw | constructor].
  - exact Hw.
  - vm_compute. reflexivity.
Defined.

(** C10 as stated fails for a word with a character that is neither a
    letter nor a blank.  The puzzle whose only word is r2d2 is solved on a
    4x4 board: the word recorded is R2D2 and its digits are on the board.
    With draws that keep the candidates in the order of their enumeration
    the word lies across from (0, 0), and the cell (0, 1) holds the digit 2,
    which is not empty and not an uppercase letter. *)
Lemma digit_is_stored :
  reachable (fun _ => 0%Q) (fun _ => 0) (fun _ => True)
    (snd (generate_puzzle (fun _ => 0%Q) (fun _ => 0) droid_engine)) /\
  map pw_word
    (placed_words (snd (generate_puzzle (fun _ => 0%Q) (fun _ => 0) droid_engine)))
  = [["R"; "2"; "D"; "2"]%char] /\
  at_cell (snd (generate_puzzle (fun _ => 0%Q) (fun _ => 0) droid_engine)) (0, 1)
  = Some "2"%char /\
  "2"%char <> SPACE /\ is_upper "2"%char = false /\
  ~ cells_satisfy (fun c => is_upper c = true)
      (grid (snd (generate_puzzle (fun _ => 0%Q) (fun _ => 0) droid_engine))).
Proof.
  split.
  { apply (@reach_generate_puzzle (fun _ => 0%Q) (fun _ => 0) (fun _ => True)
             droid_engine true).
    - apply reach_init. repeat constructor.
    - vm_compute. reflexivity. }
  split; [vm_compute; reflexivity|]. split; [vm_compute; reflexivity|].
  split; [discriminate|]. split; [reflexivity|].
  intros H.
  destruct (H ["R"; "2"; "D"; "2"]%char "2"%char) as [E|E].
  - vm_compute. left. reflexivity.
  - right. left. reflexivity.
  - discriminate E.
  - vm_compute in E. discriminate E.
Qed.

(** ** No lowercase output, whatever the input *)

Lemma upper_char_not_lower c : is_lower (upper_char c) = false.
Proof. destruct c as [[] [] [] [] [] [] [] []]; reflexivity. Qed.

(** X16.  Whatever the input words -- letters or not -- no recorded word and no
    cell of the board ever holds a lowercase letter a-z, in any state the
    engine reaches from its constructor through [clear_grid], [place_word],
    [find_best_placement] and [generate_puzzle]. *)
Theorem engine_output_has_no_lowercase clock entropy s :
  reachable clock entropy (fun _ => True) s ->
  all_chars (fun c => is_lower c = false) s.
Proof.
  intros Hr.
  destruct (@reachable_all_chars clock entropy (fun _ => True)
              (fun c => is_lower c = false)) with (s := s) as [H _].
  - intros w _. unfold upper. apply Forall_map. apply Forall_forall.
    intros c _. apply upper_char_not_lower.
  - exact Hr.
  - exact H.
Qed.

Lemma engine_output_has_no_lowercase_witness :
  all_chars (fun c => is_lower c = false)
    (snd (place_word (ScrabbleCrossword_init (fun _ => 0) [["r"; "2"; "d"; "2"]%char] 4)
            ["r"; "2"; "d"; "2"]%char 0 0 down)).
Proof.
  apply (@engine_output_has_no_lowercase (fun _ => 0%Q) (fun _ => 0)).
  apply (@reach_place_word (fun _ => 0%Q) (fun _ => 0) (fun _ => True)
           (ScrabbleCrossword_init (fun _ => 0) [["r"; "2"; "d"; "2"]%char] 4)
           ["r"; "2"; "d"; "2"]%char 0 0 down).
  - apply reach_init. repeat constructor.
  - exact I.
  - vm_compute. reflexivity.
Defined.
